(** * git-changelists: the snapshot / changelist state engine

    A shallow embedding of [src/ChangelistService.ts] (with the helpers of
    [src/utils.ts] and the records of [src/types.ts]) and the properties of
    its specification.

    Modelling conventions.
    - A [ChangelistService] instance is a [World]: its mutable fields
      ([state], [changedFiles]), the extension's [workspaceState] memento,
      the file system it reads and writes, and the notifications it fired.
    - A method is a computation in the monad [M]: it threads the world and
      may throw.  A throw keeps the mutations made before it, as in
      JavaScript.
    - A JavaScript object reference to a changelist held in
      [state.changelists] is the index it was found at.  Arrays of
      snapshots are values: no two changelists share one array object,
      since [importChangelists] is given a payload parsed afresh, as the
      import command does.
    - What the service cannot decide by itself is an input: the Node [path]
      functions and the repository are a [Host]; the clock, the id
      generator, the configuration and the answers of git are an [Env],
      chosen anew for every call.
    - The file system is a finite map from the absolute paths of regular
      files to their bytes.  A text, such as the content of a snapshot, is
      written as its UTF-8 encoding: [writeFileSync(p, text, 'utf8')] stores
      the text as it is, and [readFileSync(p, 'utf8')] is [decodeUtf8] of
      the bytes, which replaces what is not UTF-8.
    - Directories are not in the map.  Whether a path that is no regular
      file is a directory is an answer of the outside world
      ([isDirectory]); [shelveFile] reads the path it is given, and reading
      a directory fails.  [mkdirSync] before a write is a no-op, except in
      the constructor, where its failure ends the construction.  Apart
      from that an [fs] call fails only for a missing file; git calls may
      fail as they like.
    - [exportChangelists] hands out the array objects of the changelists
      themselves; an import payload is what [JSON.parse] built and holds
      arrays of its own.  The two are different types here, with
      [JSON.stringify] followed by [JSON.parse] between them, as in the
      export and import commands.
    - [log] writes to an output channel only and is left out.  The guards
      [if (!this.git)] are dead: the constructor assigns [this.git] and
      nothing clears it. *)

From Stdlib Require Import ZArith Ascii String.
From stdpp Require Import base option list strings gmap fin_maps sorting.

Open Scope Z_scope.

(** ** Records of [types.ts] *)

Inductive GitFileStatus :=
  modified | added | deleted | renamed | copied | untracked | ignored | conflicted.

#[global] Instance GitFileStatus_eq_dec : EqDecision GitFileStatus.
Proof. solve_decision. Defined.

Record ChangedFile := {
  cf_absolutePath : string;
  cf_relativePath : string;
  cf_status : GitFileStatus;
  cf_originalPath : option string;
  cf_repoPath : option string
}.

Record ShelvedFile := {
  sf_relativePath : string;
  sf_status : GitFileStatus;
  sf_patch : string;
  sf_originalContent : option string;
  sf_headContent : option string;
  sf_shelvedAt : Z;
  sf_originalPath : option string;
  sf_repoPath : option string
}.

Record Changelist := {
  cl_id : string;
  cl_label : string;
  cl_shelvedFiles : list ShelvedFile;
  cl_isDefault : bool;
  cl_isActive : bool;
  cl_repoPath : option string
}.

Record ChangelistState := {
  changelists : list Changelist;
  activeChangelistId : string;
  version : Z
}.

(** One entry of [ChangelistExport.changelists].  The import guards
    [item.label && Array.isArray(item.shelvedFiles)] make both fields
    optional in effect: a missing array is [None]. *)
Record ExportItem := {
  ex_label : string;
  ex_shelvedFiles : option (list ShelvedFile)
}.

Record ChangelistExport := {
  exp_version : Z;
  exp_changelists : option (list ExportItem);
  exp_exportedAt : string
}.

(** One entry of what [exportChangelists] returns: the label, and the
    [shelvedFiles] array object of a changelist itself, named by the index
    of that changelist in [state.changelists]. *)
Record LiveExportItem := {
  lx_label : string;
  lx_shelvedFilesOf : nat
}.

Record LiveExport := {
  lv_version : Z;
  lv_changelists : list LiveExportItem;
  lv_exportedAt : string
}.

(** Field assignments [obj.field = v]. *)

Definition set_label (v : string) (cl : Changelist) : Changelist :=
  {| cl_id := cl_id cl; cl_label := v; cl_shelvedFiles := cl_shelvedFiles cl;
     cl_isDefault := cl_isDefault cl; cl_isActive := cl_isActive cl;
     cl_repoPath := cl_repoPath cl |}.

Definition set_shelvedFiles (v : list ShelvedFile) (cl : Changelist) : Changelist :=
  {| cl_id := cl_id cl; cl_label := cl_label cl; cl_shelvedFiles := v;
     cl_isDefault := cl_isDefault cl; cl_isActive := cl_isActive cl;
     cl_repoPath := cl_repoPath cl |}.

Definition set_isActive (v : bool) (cl : Changelist) : Changelist :=
  {| cl_id := cl_id cl; cl_label := cl_label cl; cl_shelvedFiles := cl_shelvedFiles cl;
     cl_isDefault := cl_isDefault cl; cl_isActive := v;
     cl_repoPath := cl_repoPath cl |}.

Definition set_cl_repoPath (v : option string) (cl : Changelist) : Changelist :=
  {| cl_id := cl_id cl; cl_label := cl_label cl; cl_shelvedFiles := cl_shelvedFiles cl;
     cl_isDefault := cl_isDefault cl; cl_isActive := cl_isActive cl;
     cl_repoPath := v |}.

Definition set_sf_repoPath (v : option string) (sf : ShelvedFile) : ShelvedFile :=
  {| sf_relativePath := sf_relativePath sf; sf_status := sf_status sf;
     sf_patch := sf_patch sf; sf_originalContent := sf_originalContent sf;
     sf_headContent := sf_headContent sf; sf_shelvedAt := sf_shelvedAt sf;
     sf_originalPath := sf_originalPath sf; sf_repoPath := v |}.

Definition set_changelists (v : list Changelist) (st : ChangelistState) : ChangelistState :=
  {| changelists := v; activeChangelistId := activeChangelistId st; version := version st |}.

Definition set_activeChangelistId (v : string) (st : ChangelistState) : ChangelistState :=
  {| changelists := changelists st; activeChangelistId := v; version := version st |}.

(** ** JavaScript idioms *)

(** A string is truthy when it is not empty. *)
Definition truthy (s : string) : bool :=
  match s with EmptyString => false | String _ _ => true end.

(** [o || d] for an optional string [o]. *)
Definition js_or (o : option string) (d : string) : string :=
  match o with
  | Some s => if truthy s then s else d
  | None => d
  end.

(** [s.replace(/re/g, r)] for a character class [re]. *)
Fixpoint replace_chars (hit : ascii → bool) (r : ascii) (s : string) : string :=
  match s with
  | EmptyString => EmptyString
  | String c rest => String (if hit c then r else c) (replace_chars hit r rest)
  end.

(** ** [utils.ts] *)

(** [filePath.replace(/\\/g, '/')] *)
Definition normalizePath (filePath : string) : string :=
  replace_chars (Ascii.eqb "\") "/" filePath.

(** What the service takes from Node and from VS Code at construction. *)
Record Host := {
  path_join : list string → string;       (* path.join(...segments) *)
  path_basename : string → string;        (* path.basename(p) *)
  getRepoHash : string → string;          (* md5 of the resolved path, 8 hex digits *)
  getWorkspaceRoot : option string;       (* first workspace folder, if any *)
  repository_path : string                (* this.repository.path *)
}.

Definition getAbsolutePathFromRepo (h : Host) (relativePath repoPath : string) : string :=
  path_join h [repoPath; relativePath].

Definition getRepoStateKey (h : Host) (repoPath : string) : string :=
  "smartChangelists.state." +:+ getRepoHash h repoPath.

(** ** [ChangelistService.ts]: constants, world, monad *)

Definition LEGACY_STATE_KEY : string := "smartChangelists.state".
Definition STATE_VERSION : Z := 4.
Definition SNAPSHOTS_DIR : string := ".smartchangelists".

Definition stateKey (h : Host) : string := getRepoStateKey h (repository_path h).

Inductive Event := ChangelistsChanged | FilesChanged.

Record World := {
  state : ChangelistState;                       (* this.state *)
  changedFiles : gmap string ChangedFile;        (* this.changedFiles *)
  workspaceState : gmap string ChangelistState;  (* this.context.workspaceState *)
  files : gmap string string;                    (* the file system *)
  events : list Event                            (* notifications fired, oldest first *)
}.

(** The errors the service throws, one constructor per [throw new Error]
    message; [GitError] is a rejection coming from simple-git. *)
Inductive Error :=
| ChangelistNotFound (id : string)          (* `Changelist not found: ${id}` *)
| CannotDeleteDefault                      (* 'Cannot delete default changelist' *)
| CannotSaveToDefault                      (* 'Cannot save to default changelist' *)
| DefaultChangelistNotFound                (* 'Default changelist not found' *)
| FileNotFoundInChanges (p : string)       (* `File not found in changes: ${p}` *)
| FileNotFoundInChangelist (p : string)    (* `File not found in changelist: ${p}` *)
| FileNotFound (p : string)                (* `File not found: ${p}` *)
| NoFilesInChangelist                      (* 'No files in changelist' *)
| NoFilesToCommit                          (* 'No files to commit' *)
| NoShelvedFilesToCommit                   (* 'No shelved files to commit' *)
| InvalidImportData                        (* 'Invalid import data' *)
| GitError (msg : string)
| FsError (code : string).                 (* a Node fs error, such as ENOENT *)

#[global] Instance Error_eq_dec : EqDecision Error.
Proof. solve_decision. Defined.

Inductive Result (A : Type) :=
| Ok (a : A)
| Throw (e : Error).
Arguments Ok {A} a.
Arguments Throw {A} e.

Definition M (A : Type) : Type := World → Result A * World.

#[global] Instance M_ret : MRet M := λ A a w, (Ok a, w).
#[global] Instance M_bind : MBind M := λ A B k m w,
  match m w with
  | (Ok a, w') => k a w'
  | (Throw e, w') => (Throw e, w')
  end.

Definition throw {A} (e : Error) : M A := λ w, (Throw e, w).
Definition get : M World := λ w, (Ok w, w).
Definition modify (f : World → World) : M unit := λ w, (Ok tt, f w).

(** [try { m } finally { c }], for a [c] that does not throw. *)
Definition finally {A} (m : M A) (c : M unit) : M A := λ w,
  match m w with
  | (r, w') => (r, snd (c w'))
  end.

(** [for (const x of l) await f(x)] *)
Fixpoint forEach {A} (f : A → M unit) (l : list A) : M unit :=
  match l with
  | [] => mret tt
  | x :: rest => f x;; forEach f rest
  end.

Definition outcome {A} (r : Result A * World) : Result A := fst r.
Definition after {A} (r : Result A * World) : World := snd r.

(** World updates. *)

Definition with_state (f : ChangelistState → ChangelistState) (w : World) : World :=
  {| state := f (state w); changedFiles := changedFiles w;
     workspaceState := workspaceState w; files := files w; events := events w |}.

Definition with_changedFiles (v : gmap string ChangedFile) (w : World) : World :=
  {| state := state w; changedFiles := v;
     workspaceState := workspaceState w; files := files w; events := events w |}.

Definition with_workspaceState
    (f : gmap string ChangelistState → gmap string ChangelistState) (w : World) : World :=
  {| state := state w; changedFiles := changedFiles w;
     workspaceState := f (workspaceState w); files := files w; events := events w |}.

Definition with_files (f : gmap string string → gmap string string) (w : World) : World :=
  {| state := state w; changedFiles := changedFiles w;
     workspaceState := workspaceState w; files := f (files w); events := events w |}.

Definition with_event (e : Event) (w : World) : World :=
  {| state := state w; changedFiles := changedFiles w;
     workspaceState := workspaceState w; files := files w; events := events w ++ [e] |}.

(** What simple-git's [status()] resolves to, as far as the service reads
    it. *)
Record FileStatusResult := {
  fsr_path : string;
  fsr_index : string;
  fsr_working_dir : string
}.

Record StatusResultRenamed := {
  rn_from : string;
  rn_to : string
}.

Record StatusResult := {
  sr_modified : list string;
  sr_not_added : list string;
  sr_created : list string;
  sr_deleted : list string;
  sr_renamed : list StatusResultRenamed;
  sr_conflicted : list string;
  sr_files : list FileStatusResult
}.

(** The answers of the outside world during one call. *)
Record Env := {
  saveSnapshotsToFile : bool;                 (* getConfig().saveSnapshotsToFile *)
  dateNow : Z;                                (* Date.now() *)
  generateId : nat → string;                  (* the k-th generateId() of the call *)
  isDirectory : string → bool;                (* the path is a directory *)
  mkdir : string → option string;             (* fs.mkdirSync(p, {recursive}); Some code when it throws *)
  gitShow : string → option string;           (* git.show([ref]); None when it rejects *)
  gitStatus : option StatusResult;            (* git.status(); None when it rejects *)
  gitAdd : list string → option string;       (* git.add(paths); Some msg when it rejects *)
  gitCommit : string → option string;         (* git.commit(message) *)
  gitStashPush : gmap string string → string + gmap string string;
  gitStashPop : gmap string string → string + gmap string string;
  gitApply : string → gmap string string → string + gmap string string;
  gitCheckout : string → gmap string string → string + gmap string string
}.

(** A git call that only succeeds or rejects. *)
Definition gitDo (r : option string) : M unit :=
  match r with
  | None => mret tt
  | Some msg => throw (GitError msg)
  end.

(** A git call that rewrites the working tree. *)
Definition gitRun (run : gmap string string → string + gmap string string) : M unit := λ w,
  match run (files w) with
  | inl msg => (Throw (GitError msg), w)
  | inr fs' => (Ok tt, with_files (λ _, fs') w)
  end.

(** [fs] primitives. *)
Definition existsSync (p : string) : M bool :=
  w ← get; mret (bool_decide (is_Some (files w !! p))).
Definition writeFileSync (p content : string) : M unit :=
  modify (with_files (insert p content)).
Definition unlinkSync (p : string) : M unit :=
  w ← get;
  if bool_decide (is_Some (files w !! p)) then modify (with_files (delete p))
  else throw (FsError "ENOENT").

Definition fire (e : Event) : M unit := modify (with_event e).

(** [fs.mkdirSync(p, { recursive: true })], where its failure matters. *)
Definition mkdirSync (env : Env) (p : string) : M unit :=
  match mkdir env p with
  | None => mret tt
  | Some code => throw (FsError code)
  end.

(** ** Reading a file as text *)

(** U+FFFD, the replacement character, in UTF-8: EF BF BD. *)
Definition REPLACEMENT : string := String "239" (String "191" (String "189" "")).

(** A multi-byte sequence under way: the bytes read so far, the number of
    continuation bytes still needed, and the range the next one has to be
    in. *)
Record Utf8Pending := {
  u_seen : string;
  u_needed : nat;
  u_lower : N;
  u_upper : N
}.

(** A byte at the start of a sequence: what is put out and what is under
    way. *)
Definition utf8_lead (b : ascii) : string * option Utf8Pending :=
  let n := N_of_ascii b in
  let pending needed lower upper :=
    Some {| u_seen := String b ""; u_needed := needed; u_lower := lower; u_upper := upper |} in
  if (n <=? 127)%N then (String b "", None)
  else if (194 <=? n)%N && (n <=? 223)%N then ("", pending 1%nat 128%N 191%N)
  else if (224 <=? n)%N && (n <=? 239)%N then
    ("", pending 2%nat (if (n =? 224)%N then 160%N else 128%N)
                       (if (n =? 237)%N then 159%N else 191%N))
  else if (240 <=? n)%N && (n <=? 244)%N then
    ("", pending 3%nat (if (n =? 240)%N then 144%N else 128%N)
                       (if (n =? 244)%N then 143%N else 191%N))
  else (REPLACEMENT, None).

(** The UTF-8 decoder of [buffer.toString('utf8')], with the decoded text
    written as UTF-8 again: a well-formed sequence is put out as it is, an
    ill-formed one is replaced by U+FFFD and the offending byte is read
    again as the start of a sequence. *)
Fixpoint utf8_decode (st : option Utf8Pending) (bytes : string) : string :=
  match bytes with
  | EmptyString => match st with Some _ => REPLACEMENT | None => "" end
  | String b rest =>
    match st with
    | None => fst (utf8_lead b) +:+ utf8_decode (snd (utf8_lead b)) rest
    | Some u =>
      if (u_lower u <=? N_of_ascii b)%N && (N_of_ascii b <=? u_upper u)%N then
        match u_needed u with
        | S (S k) =>
          utf8_decode
            (Some {| u_seen := u_seen u +:+ String b ""; u_needed := S k;
                     u_lower := 128; u_upper := 191 |}) rest
        | _ => (u_seen u +:+ String b "") +:+ utf8_decode None rest
        end
      else REPLACEMENT +:+ fst (utf8_lead b) +:+ utf8_decode (snd (utf8_lead b)) rest
    end
  end.

Definition decodeUtf8 (bytes : string) : string := utf8_decode None bytes.

(** The bytes are the UTF-8 encoding of a text: read as text and written
    back, they are the same bytes. *)
Definition validUtf8 (bytes : string) : Prop := decodeUtf8 bytes = bytes.

#[global] Instance validUtf8_dec bytes : Decision (validUtf8 bytes).
Proof. unfold validUtf8. apply _. Defined.

(** [fs.existsSync(p) ? fs.readFileSync(p, 'utf8') : undefined].  A
    directory exists and cannot be read: EISDIR. *)
Definition readIfExists (env : Env) (p : string) : M (option string) :=
  w ← get;
  match files w !! p with
  | Some bytes => mret (Some (decodeUtf8 bytes))
  | None => if isDirectory env p then throw (FsError "EISDIR") else mret None
  end.

(** ** State store *)

(** [saveState(state?)]: [state || this.state] goes under the repository's key. *)
Definition saveState (h : Host) (st : option ChangelistState) : M unit :=
  w ← get;
  let stateToSave := default (state w) st in
  modify (with_workspaceState (insert (stateKey h) stateToSave)).

Definition tryMigrateLegacyState (h : Host) (w : World) : option ChangelistState :=
  match workspaceState w !! LEGACY_STATE_KEY with
  | None => None
  | Some legacyState =>
    match getWorkspaceRoot h with
    | None => None
    | Some workspaceRoot =>
      if negb (truthy workspaceRoot)
         || negb (bool_decide (normalizePath (repository_path h) = normalizePath workspaceRoot))
      then None
      else
        let migratedChangelists :=
          (λ cl, set_cl_repoPath (Some (repository_path h))
                   (set_shelvedFiles
                      ((λ sf, set_sf_repoPath (Some (repository_path h)) sf)
                         <$> cl_shelvedFiles cl) cl))
            <$> changelists legacyState in
        Some {| version := STATE_VERSION;
                activeChangelistId := activeChangelistId legacyState;
                changelists := migratedChangelists |}
    end
  end.

Definition upgradeState (h : Host) (oldState : ChangelistState) : ChangelistState :=
  let upgradedChangelists :=
    (λ cl, set_cl_repoPath (Some (js_or (cl_repoPath cl) (repository_path h)))
             (set_shelvedFiles
                ((λ sf, set_sf_repoPath (Some (js_or (sf_repoPath sf) (repository_path h))) sf)
                   <$> cl_shelvedFiles cl) cl))
      <$> changelists oldState in
  {| version := STATE_VERSION;
     activeChangelistId := activeChangelistId oldState;
     changelists := upgradedChangelists |}.

Definition defaultState (h : Host) (defaultId : string) : ChangelistState :=
  {| version := STATE_VERSION;
     activeChangelistId := defaultId;
     changelists :=
       [ {| cl_id := defaultId; cl_label := "Default Changelist"; cl_shelvedFiles := [];
            cl_isDefault := true; cl_isActive := true;
            cl_repoPath := Some (repository_path h) |} ] |}.

Definition loadState (h : Host) (env : Env) : M ChangelistState :=
  w ← get;
  let stored := workspaceState w !! stateKey h in
  match stored with
  | Some s =>
    if bool_decide (version s = STATE_VERSION) then mret s
    else
      match tryMigrateLegacyState h w with
      | Some migratedState => saveState h (Some migratedState);; mret migratedState
      | None =>
        if bool_decide (version s < STATE_VERSION) then
          let upgradedState := upgradeState h s in
          saveState h (Some upgradedState);; mret upgradedState
        else
          let st := defaultState h (generateId env 0) in
          saveState h (Some st);; mret st
      end
  | None =>
    match tryMigrateLegacyState h w with
    | Some migratedState => saveState h (Some migratedState);; mret migratedState
    | None =>
      let st := defaultState h (generateId env 0) in
      saveState h (Some st);; mret st
    end
  end.

(** The content of the [.gitignore] of the mirror directory: two lines. *)
Definition SNAPSHOTS_GITIGNORE : string :=
  "*" +:+ String "010" ("!.gitignore" +:+ String "010" "").

(** [ensureSnapshotsDir]: with the mirror on, a mirror directory that is
    not there is made and given its [.gitignore]. *)
Definition ensureSnapshotsDir (h : Host) (env : Env) : M unit :=
  if negb (saveSnapshotsToFile env) then mret tt
  else
    let snapshotsDir := path_join h [repository_path h; SNAPSHOTS_DIR] in
    w ← get;
    if isDirectory env snapshotsDir || bool_decide (is_Some (files w !! snapshotsDir))
    then mret tt
    else
      mkdirSync env snapshotsDir;;
      writeFileSync (path_join h [snapshotsDir; ".gitignore"]) SNAPSHOTS_GITIGNORE.

(** The constructor: [this.state = this.loadState()], then [initGit], which
    assigns [this.git], [setupWatchers], which registers listeners, and
    [ensureSnapshotsDir]. *)
Definition construct (h : Host) (env : Env) : M unit :=
  st ← loadState h env;
  modify (with_state (λ _, st));;
  ensureSnapshotsDir h env.

(** The service object before its constructor has run. *)
Definition blank (ws : gmap string ChangelistState) (fs : gmap string string) : World :=
  {| state := {| changelists := []; activeChangelistId := ""; version := 0 |};
     changedFiles := ∅; workspaceState := ws; files := fs; events := [] |}.

(** [mapGitStatus] of [utils.ts]. *)
Definition mapGitStatus (index workingDir : string) : GitFileStatus :=
  if bool_decide (workingDir = "M") || bool_decide (index = "M") then modified
  else if bool_decide (workingDir = "D") || bool_decide (index = "D") then deleted
  else if bool_decide (workingDir = "A") || bool_decide (index = "A") then added
  else if bool_decide (workingDir = "R") || bool_decide (index = "R") then renamed
  else if bool_decide (workingDir = "C") || bool_decide (index = "C") then copied
  else if bool_decide (workingDir = "?") || bool_decide (index = "?") then untracked
  else if bool_decide (workingDir = "!") || bool_decide (index = "!") then ignored
  else if bool_decide (workingDir = "U") || bool_decide (index = "U") then conflicted
  else modified.

(** The closure [processFile] of [updateChangedFiles]: one [Map.set]. *)
Definition processFile (h : Host) (filePath : string) (gitStatus : GitFileStatus)
    (originalPath : option string) (m : gmap string ChangedFile) : gmap string ChangedFile :=
  let relativePath := normalizePath filePath in
  let absolutePath := getAbsolutePathFromRepo h relativePath (repository_path h) in
  <[relativePath :=
      {| cf_absolutePath := absolutePath;
         cf_relativePath := relativePath;
         cf_status := gitStatus;
         cf_originalPath :=
           match originalPath with
           | Some o => if truthy o then Some (normalizePath o) else None
           | None => None
           end;
         cf_repoPath := Some (repository_path h) |}]> m.

(** [updateChangedFiles]: the map is cleared and filled again, list by
    list; a path in several lists keeps the entry written last. *)
Definition updateChangedFiles (h : Host) (status : StatusResult) : gmap string ChangedFile :=
  let each (s : GitFileStatus) := foldl (λ m f, processFile h f s None m) in
  let m1 := each modified ∅ (sr_modified status) in
  let m2 := each untracked m1 (sr_not_added status) in
  let m3 := each added m2 (sr_created status) in
  let m4 := each deleted m3 (sr_deleted status) in
  let m5 := foldl (λ m r, processFile h (rn_to r) renamed (Some (rn_from r)) m) m4
              (sr_renamed status) in
  let m6 := each conflicted m5 (sr_conflicted status) in
  foldl (λ m f,
           if bool_decide (is_Some (m !! normalizePath (fsr_path f))) then m
           else processFile h (fsr_path f)
                  (mapGitStatus (fsr_index f) (fsr_working_dir f)) None m)
    m6 (sr_files status).

(** [refresh]: a rejected [git.status()] is logged and swallowed. *)
Definition refresh (h : Host) (env : Env) : M unit :=
  match gitStatus env with
  | Some status => modify (with_changedFiles (updateChangedFiles h status));; fire FilesChanged
  | None => mret tt
  end.

(** ** Changelist registry *)

(** [state.changelists.find(cl => cl.id === id)], with the index the object
    sits at. *)
Definition getChangelistRef (id : string) (st : ChangelistState) : option (nat * Changelist) :=
  list_find (λ cl, cl_id cl = id) (changelists st).

Definition getChangelist (id : string) (st : ChangelistState) : option Changelist :=
  snd <$> getChangelistRef id st.

Definition getDefaultChangelistRef (st : ChangelistState) : option (nat * Changelist) :=
  list_find (λ cl, cl_isDefault cl = true) (changelists st).

Definition getDefaultChangelist (st : ChangelistState) : Result Changelist :=
  match getDefaultChangelistRef st with
  | Some (_, defaultCl) => Ok defaultCl
  | None => Throw DefaultChangelistNotFound
  end.

Definition getActiveChangelist (st : ChangelistState) : Result Changelist :=
  match list_find (λ cl, cl_isActive cl = true) (changelists st) with
  | Some (_, activeCl) => Ok activeCl
  | None => getDefaultChangelist st
  end.

(** Assignment through a reference: [ref.field = v]. *)
Definition mutate (i : nat) (f : Changelist → Changelist) : M unit :=
  modify (with_state (λ st, set_changelists (alter f i (changelists st)) st)).

(** [createChangelist(label)]; [id] is what [generateId()] returned.  The
    result is the reference to the pushed object. *)
Definition createChangelist (h : Host) (id label : string) : M nat :=
  let changelist :=
    {| cl_id := id; cl_label := label; cl_shelvedFiles := [];
       cl_isDefault := false; cl_isActive := false;
       cl_repoPath := Some (repository_path h) |} in
  w ← get;
  modify (with_state (λ st, set_changelists (changelists st ++ [changelist]) st));;
  saveState h None;;
  fire ChangelistsChanged;;
  mret (length (changelists (state w))).

Definition renameChangelist (h : Host) (id newLabel : string) : M unit :=
  w ← get;
  match getChangelistRef id (state w) with
  | None => throw (ChangelistNotFound id)
  | Some (i, _) =>
    mutate i (set_label newLabel);;
    saveState h None;;
    fire ChangelistsChanged
  end.

Definition setActiveChangelist (h : Host) (id : string) : M unit :=
  w ← get;
  match getChangelistRef id (state w) with
  | None => throw (ChangelistNotFound id)
  | Some (i, _) =>
    modify (with_state (λ st, set_changelists (set_isActive false <$> changelists st) st));;
    mutate i (set_isActive true);;
    modify (with_state (set_activeChangelistId id));;
    saveState h None;;
    fire ChangelistsChanged
  end.

(** ** Snapshot engine *)

(** The predicate [f => normalizePath(f.relativePath) === normalizedPath]. *)
Definition samePath (normalizedPath : string) (f : ShelvedFile) : Prop :=
  normalizePath (sf_relativePath f) = normalizedPath.

#[global] Instance samePath_dec p f : Decision (samePath p f).
Proof. unfold samePath. apply _. Defined.

(** [shelvedFiles.findIndex(...)]: [None] for -1. *)
Definition findIndex (normalizedPath : string) (l : list ShelvedFile) : option nat :=
  fst <$> list_find (samePath normalizedPath) l.

(** [shelvedFiles.find(...)] *)
Definition findShelved (normalizedPath : string) (l : list ShelvedFile) : option ShelvedFile :=
  snd <$> list_find (samePath normalizedPath) l.

(** The character class of the folder-name sanitizer: less-than,
    greater-than, colon, double quote (code 034), slash, backslash, bar,
    question mark, star. *)
Definition unsafe_in_folder_name (c : ascii) : bool :=
  bool_decide (c ∈ ["<"; ">"; ":"; "034"; "/"; "\"; "|"; "?"; "*"]%char).

Definition getSnapshotFilePath (h : Host) (shelvedFile : ShelvedFile) (changelist : Changelist)
    : string :=
  let sanitizedName := replace_chars unsafe_in_folder_name "_" (cl_label changelist) in
  let fileName := path_basename h (sf_relativePath shelvedFile) in
  path_join h [repository_path h; SNAPSHOTS_DIR; sanitizedName; fileName].

(** [saveSnapshotToFile]: the mirror copy; an empty content is falsy and is
    not written. *)
Definition saveSnapshotToFile (h : Host) (env : Env)
    (shelvedFile : ShelvedFile) (changelist : Changelist) : M unit :=
  if negb (saveSnapshotsToFile env) then mret tt
  else
    match sf_originalContent shelvedFile with
    | None => mret tt
    | Some content =>
      if negb (truthy content) then mret tt
      else writeFileSync (getSnapshotFilePath h shelvedFile changelist) content
    end.

Definition deleteSnapshotFile (h : Host) (env : Env)
    (shelvedFile : ShelvedFile) (changelist : Changelist) : M unit :=
  if negb (saveSnapshotsToFile env) then mret tt
  else
    let snapshotPath := getSnapshotFilePath h shelvedFile changelist in
    ex ← existsSync snapshotPath;
    if (ex : bool) then unlinkSync snapshotPath else mret tt.

Definition shelveFile (h : Host) (env : Env) (relativePath targetChangelistId : string)
    : M unit :=
  let normalizedPath := normalizePath relativePath in
  w ← get;
  match changedFiles w !! normalizedPath with
  | None => throw (FileNotFoundInChanges relativePath)
  | Some file =>
    match getChangelistRef targetChangelistId (state w) with
    | None => throw (ChangelistNotFound targetChangelistId)
    | Some (i, changelist) =>
      if cl_isDefault changelist then throw CannotSaveToDefault
      else
        let absolutePath := getAbsolutePathFromRepo h normalizedPath (repository_path h) in
        currentContent ←
          (if decide (cf_status file = deleted) then mret None
           else readIfExists env absolutePath);
        let headContent :=
          if decide (cf_status file = untracked) then None
          else gitShow env ("HEAD:" +:+ normalizedPath) in
        let existingIndex := findIndex normalizedPath (cl_shelvedFiles changelist) in
        let shelvedFile :=
          {| sf_relativePath := normalizedPath;
             sf_status := cf_status file;
             sf_patch := "";
             sf_originalContent := currentContent;
             sf_headContent := headContent;
             sf_shelvedAt := dateNow env;
             sf_originalPath := cf_originalPath file;
             sf_repoPath := Some (repository_path h) |} in
        mutate i (λ cl,
          set_shelvedFiles
            match existingIndex with
            | Some k => <[k := shelvedFile]> (cl_shelvedFiles cl)
            | None => cl_shelvedFiles cl ++ [shelvedFile]
            end cl);;
        saveSnapshotToFile h env shelvedFile changelist;;
        saveState h None;;
        fire ChangelistsChanged
    end
  end.

Definition shelveFiles (h : Host) (env : Env) (relativePaths : list string)
    (targetChangelistId : string) : M unit :=
  forEach (λ p, shelveFile h env p targetChangelistId) relativePaths.

(** [unshelveFileInternal]: a deletion snapshot removes the file, a content
    snapshot overwrites it, a legacy snapshot goes through [git apply]. *)
Definition unshelveFileInternal (h : Host) (env : Env) (shelvedFile : ShelvedFile) : M unit :=
  let repoPath := js_or (sf_repoPath shelvedFile) (repository_path h) in
  let absolutePath := getAbsolutePathFromRepo h (sf_relativePath shelvedFile) repoPath in
  if decide (sf_status shelvedFile = deleted) then
    ex ← existsSync absolutePath;
    if (ex : bool) then unlinkSync absolutePath else mret tt
  else
    match sf_originalContent shelvedFile with
    | Some content => writeFileSync absolutePath content
    | None =>
      if truthy (sf_patch shelvedFile) then
        let patchPath := path_join h [repository_path h; ".git"; "temp-patch.patch"] in
        writeFileSync patchPath (sf_patch shelvedFile);;
        finally (gitRun (gitApply env patchPath))
                (ex ← existsSync patchPath;
                 if (ex : bool) then unlinkSync patchPath else mret tt)
      else mret tt
    end.

Definition unshelveFile (h : Host) (env : Env) (changelistId relativePath : string) : M unit :=
  w ← get;
  match getChangelist changelistId (state w) with
  | None => throw (ChangelistNotFound changelistId)
  | Some changelist =>
    let normalizedPath := normalizePath relativePath in
    match findShelved normalizedPath (cl_shelvedFiles changelist) with
    | None => throw (FileNotFoundInChangelist relativePath)
    | Some shelvedFile =>
      unshelveFileInternal h env shelvedFile;;
      refresh h env;;
      fire ChangelistsChanged
    end
  end.

Definition applyAndStage (h : Host) (env : Env) (changelistId relativePath : string) : M unit :=
  w ← get;
  match getChangelist changelistId (state w) with
  | None => throw (ChangelistNotFound changelistId)
  | Some changelist =>
    let normalizedPath := normalizePath relativePath in
    match findShelved normalizedPath (cl_shelvedFiles changelist) with
    | None => throw (FileNotFoundInChangelist relativePath)
    | Some shelvedFile =>
      unshelveFileInternal h env shelvedFile;;
      gitDo (gitAdd env [normalizedPath]);;
      refresh h env;;
      fire ChangelistsChanged
    end
  end.

Definition applyAllAndStage (h : Host) (env : Env) (changelistId : string) : M unit :=
  w ← get;
  match getChangelist changelistId (state w) with
  | None => throw (ChangelistNotFound changelistId)
  | Some changelist =>
    if bool_decide (length (cl_shelvedFiles changelist) = 0%nat) then throw NoFilesInChangelist
    else
      forEach (unshelveFileInternal h env) (cl_shelvedFiles changelist);;
      gitDo (gitAdd env (sf_relativePath <$> cl_shelvedFiles changelist));;
      refresh h env;;
      fire ChangelistsChanged
  end.

Definition unshelveAll (h : Host) (env : Env) (changelistId : string) : M unit :=
  w ← get;
  match getChangelist changelistId (state w) with
  | None => throw (ChangelistNotFound changelistId)
  | Some changelist =>
    forEach (unshelveFileInternal h env) (cl_shelvedFiles changelist);;
    refresh h env;;
    fire ChangelistsChanged
  end.

(** [deleteChangelist]: restore every snapshot, drop the record, hand the
    active flag to the default changelist if the dropped one had it. *)
Definition deleteChangelist (h : Host) (env : Env) (id : string) : M unit :=
  w ← get;
  match getChangelist id (state w) with
  | None => throw (ChangelistNotFound id)
  | Some changelist =>
    if cl_isDefault changelist then throw CannotDeleteDefault
    else
      forEach (unshelveFileInternal h env) (cl_shelvedFiles changelist);;
      modify (with_state (λ st,
        set_changelists (filter (λ cl, cl_id cl ≠ id) (changelists st)) st));;
      (if cl_isActive changelist then
         w' ← get;
         match getDefaultChangelistRef (state w') with
         | None => throw DefaultChangelistNotFound
         | Some (j, defaultCl) =>
           mutate j (set_isActive true);;
           modify (with_state (set_activeChangelistId (cl_id defaultCl)))
         end
       else mret tt);;
      saveState h None;;
      refresh h env;;
      fire ChangelistsChanged
  end.

(** ** Git operations *)

(** [commitWorkingChanges]; the paths are those of [changedFiles.values()]
    (in the map's order here, in insertion order in JavaScript). *)
Definition commitWorkingChanges (h : Host) (env : Env) (message : string) : M unit :=
  w ← get;
  let files := snd <$> map_to_list (changedFiles w) in
  if bool_decide (length files = 0%nat) then throw NoFilesToCommit
  else
    gitDo (gitAdd env (cf_relativePath <$> files));;
    gitDo (gitCommit env message);;
    refresh h env.

Definition commitChangelist (h : Host) (env : Env) (changelistId message : string) : M unit :=
  w ← get;
  match getChangelistRef changelistId (state w) with
  | None => throw (ChangelistNotFound changelistId)
  | Some (i, changelist) =>
    if cl_isDefault changelist then commitWorkingChanges h env message
    else if bool_decide (length (cl_shelvedFiles changelist) = 0%nat)
    then throw NoShelvedFilesToCommit
    else
      let hasWorkingChanges := bool_decide (0 < size (changedFiles w))%nat in
      (if hasWorkingChanges then gitRun (gitStashPush env) else mret tt);;
      forEach (unshelveFileInternal h env) (cl_shelvedFiles changelist);;
      gitDo (gitAdd env (sf_relativePath <$> cl_shelvedFiles changelist));;
      gitDo (gitCommit env message);;
      mutate i (set_shelvedFiles []);;
      (if hasWorkingChanges then gitRun (gitStashPop env) else mret tt);;
      saveState h None;;
      refresh h env;;
      fire ChangelistsChanged
  end.

Definition revertFile (h : Host) (env : Env) (relativePath : string) : M unit :=
  let normalizedPath := normalizePath relativePath in
  w ← get;
  match changedFiles w !! normalizedPath with
  | None => throw (FileNotFound relativePath)
  | Some file =>
    (if decide (cf_status file = untracked) then
       unlinkSync (getAbsolutePathFromRepo h normalizedPath (repository_path h))
     else gitRun (gitCheckout env normalizedPath));;
    refresh h env
  end.

Definition deleteShelvedFile (h : Host) (env : Env) (changelistId relativePath : string)
    : M unit :=
  w ← get;
  match getChangelistRef changelistId (state w) with
  | None => throw (ChangelistNotFound changelistId)
  | Some (i, changelist) =>
    let normalizedPath := normalizePath relativePath in
    match findShelved normalizedPath (cl_shelvedFiles changelist) with
    | Some shelvedFile => deleteSnapshotFile h env shelvedFile changelist
    | None => mret tt
    end;;
    mutate i (λ cl,
      set_shelvedFiles
        (filter (λ f, normalizePath (sf_relativePath f) ≠ normalizedPath) (cl_shelvedFiles cl))
        cl);;
    saveState h None;;
    fire ChangelistsChanged
  end.

(** ** Export / import *)

(** [exportChangelists]: every entry holds the array object of its
    changelist, not a copy. *)
Definition exportChangelists (exportedAt : string) (st : ChangelistState) : LiveExport :=
  {| lv_version := 2;
     lv_changelists :=
       (λ x, {| lx_label := cl_label (snd x); lx_shelvedFilesOf := fst x |})
         <$> filter (λ x, cl_isDefault (snd x) = false
                          ∧ (0 < length (cl_shelvedFiles (snd x)))%nat)
               (imap pair (changelists st));
     lv_exportedAt := exportedAt |}.

(** [JSON.parse(JSON.stringify(data))], as the export command writes the
    data to a file and the import command reads a file: every array is
    read off the changelist that holds it and becomes an array of the
    payload. *)
Definition throughJSON (st : ChangelistState) (data : LiveExport) : ChangelistExport :=
  {| exp_version := lv_version data;
     exp_changelists :=
       Some ((λ item,
                {| ex_label := lx_label item;
                   ex_shelvedFiles :=
                     cl_shelvedFiles <$> changelists st !! lx_shelvedFilesOf item |})
               <$> lv_changelists data);
     exp_exportedAt := lv_exportedAt data |}.

(** The loop of [importChangelists]; [k] counts the [generateId()] calls made
    so far and the result is [imported]. *)
Fixpoint importItems (h : Host) (env : Env) (items : list ExportItem) (k : nat) : M nat :=
  match items with
  | [] => mret 0%nat
  | item :: rest =>
    match ex_shelvedFiles item with
    | Some shelvedFiles =>
      if truthy (ex_label item) then
        changelist ← createChangelist h (generateId env k) (ex_label item);
        mutate changelist (set_shelvedFiles shelvedFiles);;
        imported ← importItems h env rest (S k);
        mret (S imported)
      else importItems h env rest k
    | None => importItems h env rest k
    end
  end.

Definition importChangelists (h : Host) (env : Env) (data : ChangelistExport) : M nat :=
  match exp_changelists data with
  | None => throw InvalidImportData
  | Some items =>
    imported ← importItems h env items 0;
    saveState h None;;
    fire ChangelistsChanged;;
    mret imported
  end.

(** ** Error kinds *)

Inductive ErrorKind := NotFound | InvalidOperation | IOFailure.

#[global] Instance ErrorKind_eq_dec : EqDecision ErrorKind.
Proof. solve_decision. Defined.

(** The kind that the specification's error taxonomy gives to each error.
    The service itself throws plain [Error] objects that differ by message
    only.  An unresolvable changelist, changed file or snapshot path is
    NotFound; deleting or shelving to the default changelist and committing
    or applying an empty changelist are InvalidOperation; a failure of the
    file system or of git is IOFailure. *)
Definition kindOf (e : Error) : ErrorKind :=
  match e with
  | ChangelistNotFound _ | DefaultChangelistNotFound
  | FileNotFoundInChanges _ | FileNotFoundInChangelist _ | FileNotFound _ => NotFound
  | CannotDeleteDefault | CannotSaveToDefault
  | NoFilesInChangelist | NoFilesToCommit | NoShelvedFilesToCommit
  | InvalidImportData => InvalidOperation
  | GitError _ | FsError _ => IOFailure
  end.

(** ** Runs of one service instance *)

(** The public mutating methods. *)
Inductive Op :=
| OpCreate (label : string)
| OpRename (id newLabel : string)
| OpDelete (id : string)
| OpSetActive (id : string)
| OpShelve (relativePath targetChangelistId : string)
| OpShelveFiles (relativePaths : list string) (targetChangelistId : string)
| OpUnshelve (changelistId relativePath : string)
| OpApplyAndStage (changelistId relativePath : string)
| OpApplyAllAndStage (changelistId : string)
| OpUnshelveAll (changelistId : string)
| OpCommitWorkingChanges (message : string)
| OpCommit (changelistId message : string)
| OpRevert (relativePath : string)
| OpDeleteShelved (changelistId relativePath : string)
| OpImport (data : ChangelistExport)
| OpRefresh.

Definition exec (h : Host) (env : Env) (op : Op) : M unit :=
  match op with
  | OpCreate label => createChangelist h (generateId env 0) label;; mret tt
  | OpRename id newLabel => renameChangelist h id newLabel
  | OpDelete id => deleteChangelist h env id
  | OpSetActive id => setActiveChangelist h id
  | OpShelve p id => shelveFile h env p id
  | OpShelveFiles ps id => shelveFiles h env ps id
  | OpUnshelve id p => unshelveFile h env id p
  | OpApplyAndStage id p => applyAndStage h env id p
  | OpApplyAllAndStage id => applyAllAndStage h env id
  | OpUnshelveAll id => unshelveAll h env id
  | OpCommitWorkingChanges message => commitWorkingChanges h env message
  | OpCommit id message => commitChangelist h env id message
  | OpRevert p => revertFile h env p
  | OpDeleteShelved id p => deleteShelvedFile h env id p
  | OpImport data => importChangelists h env data;; mret tt
  | OpRefresh => refresh h env
  end.

(** The states of one repository's service: the constructor runs on a store
    that holds nothing for the repository (the fields are those it has set,
    also if making the mirror directory then failed); then any call, failed
    or not, and any edit of the working tree from outside. *)
Inductive reachable (h : Host) : World → Prop :=
| reach_init env ws fs :
    ws !! stateKey h = None →
    ws !! LEGACY_STATE_KEY = None →
    reachable h (after (construct h env (blank ws fs)))
| reach_exec env op w :
    reachable h w → reachable h (after (exec h env op w))
| reach_edit fs w :
    reachable h w → reachable h (with_files (λ _, fs) w).

(** ** Invariants *)

(** The default changelist is the first record and the only default one. *)
Definition default_first (st : ChangelistState) : Prop :=
  match changelists st with
  | [] => False
  | d :: rest => cl_isDefault d = true ∧ Forall (λ cl, cl_isDefault cl = false) rest
  end.

Definition count_default (st : ChangelistState) : nat :=
  length (filter (λ cl, cl_isDefault cl = true) (changelists st)).

Definition count_active (st : ChangelistState) : nat :=
  length (filter (λ cl, cl_isActive cl = true) (changelists st)).

(** At most one snapshot per normalized relative path. *)
Definition path_unique (l : list ShelvedFile) : Prop :=
  NoDup ((λ f, normalizePath (sf_relativePath f)) <$> l).

Definition snapshots_unique (st : ChangelistState) : Prop :=
  Forall (λ cl, path_unique (cl_shelvedFiles cl)) (changelists st).





(** ** What a shelve leaves behind *)

(** [shelveFile] can read what it has to for the changed file [file] at
    [normalizedPath]: nothing for a file recorded as deleted, else a
    regular file, or nothing where there is neither file nor directory. *)
Definition readable (h : Host) (env : Env) (file : ChangedFile) (normalizedPath : string)
    (fs : gmap string string) : Prop :=
  cf_status file = deleted
  ∨ is_Some (fs !! getAbsolutePathFromRepo h normalizedPath (repository_path h))
  ∨ isDirectory env (getAbsolutePathFromRepo h normalizedPath (repository_path h)) = false.

#[global] Instance readable_dec h env file np fs : Decision (readable h env file np fs).
Proof. unfold readable. apply _. Defined.

(** The snapshot [shelveFile] builds for the changed file [file] at
    [normalizedPath], from the working tree [fs]. *)
Definition captured (h : Host) (env : Env) (file : ChangedFile) (normalizedPath : string)
    (fs : gmap string string) : ShelvedFile :=
  {| sf_relativePath := normalizedPath;
     sf_status := cf_status file;
     sf_patch := "";
     sf_originalContent :=
       if decide (cf_status file = deleted) then None
       else decodeUtf8 <$> fs !! getAbsolutePathFromRepo h normalizedPath (repository_path h);
     sf_headContent :=
       if decide (cf_status file = untracked) then None
       else gitShow env ("HEAD:" +:+ normalizedPath);
     sf_shelvedAt := dateNow env;
     sf_originalPath := cf_originalPath file;
     sf_repoPath := Some (repository_path h) |}.

(** Replace-or-push of a snapshot in a changelist's array. *)
Definition stored_in (sf : ShelvedFile) (l : list ShelvedFile) : list ShelvedFile :=
  match findIndex (sf_relativePath sf) l with
  | Some k => <[k := sf]> l
  | None => l ++ [sf]
  end.

(** The mirror copy written for a snapshot, if any. *)
Definition mirrored (h : Host) (env : Env) (sf : ShelvedFile) (cl : Changelist)
    (fs : gmap string string) : gmap string string :=
  match sf_originalContent sf with
  | Some content =>
    if saveSnapshotsToFile env && truthy content
    then <[getSnapshotFilePath h sf cl := content]> fs
    else fs
  | None => fs
  end.

(** The world after a successful [shelveFile] of [file] into the changelist
    [cl] found at index [i]. *)
Definition shelved (h : Host) (env : Env) (normalizedPath : string) (file : ChangedFile)
    (i : nat) (cl : Changelist) (w : World) : World :=
  let sf := captured h env file normalizedPath (files w) in
  let st :=
    set_changelists
      (<[i := set_shelvedFiles (stored_in sf (cl_shelvedFiles cl)) cl]> (changelists (state w)))
      (state w) in
  {| state := st;
     changedFiles := changedFiles w;
     workspaceState := <[stateKey h := st]> (workspaceState w);
     files := mirrored h env sf cl (files w);
     events := events w ++ [ChangelistsChanged] |}.

(** ** What a restore leaves behind *)


(** The world after [refresh]. *)
Definition refreshed (h : Host) (env : Env) (w : World) : World :=
  match gitStatus env with
  | Some status => with_event FilesChanged (with_changedFiles (updateChangedFiles h status) w)
  | None => w
  end.

(** ** How the registry evolves *)

Definition new_changelist (h : Host) (id label : string) (l : list ShelvedFile) : Changelist :=
  {| cl_id := id; cl_label := label; cl_shelvedFiles := l;
     cl_isDefault := false; cl_isActive := false;
     cl_repoPath := Some (repository_path h) |}.

(** The state after [deleteChangelist] has dropped the record [cl]. *)
Definition dropped (id : string) (cl : Changelist) (st : ChangelistState) : ChangelistState :=
  let st1 := set_changelists (filter (λ c, cl_id c ≠ id) (changelists st)) st in
  if cl_isActive cl then
    match getDefaultChangelistRef st1 with
    | Some (j, defaultCl) =>
      set_activeChangelistId (cl_id defaultCl)
        (set_changelists (alter (set_isActive true) j (changelists st1)) st1)
    | None => st1
    end
  else st1.

Definition activated (id : string) (i : nat) (st : ChangelistState) : ChangelistState :=
  set_activeChangelistId id
    (set_changelists (alter (set_isActive true) i (set_isActive false <$> changelists st)) st).

Definition assigned (i : nat) (cl : Changelist) (st : ChangelistState) : ChangelistState :=
  set_changelists (<[i := cl]> (changelists st)) st.

(** The changes the methods make to [this.state], one constructor per
    method that writes it; [ok] is what is known of an imported snapshot
    array. *)
Inductive evolves (h : Host) (ok : list ShelvedFile → Prop) (st : ChangelistState)
    : ChangelistState → Prop :=
| ev_create id label :
    evolves h ok st (set_changelists (changelists st ++ [new_changelist h id label []]) st)
| ev_import id label l :
    ok l →
    evolves h ok st (set_changelists (changelists st ++ [new_changelist h id label l]) st)
| ev_rename id i cl v :
    getChangelistRef id st = Some (i, cl) →
    evolves h ok st (assigned i (set_label v cl) st)
| ev_activate id i cl :
    getChangelistRef id st = Some (i, cl) →
    evolves h ok st (activated id i st)
| ev_drop id cl :
    getChangelist id st = Some cl → cl_isDefault cl = false →
    evolves h ok st (dropped id cl st)
| ev_store id i cl sf :
    getChangelistRef id st = Some (i, cl) → cl_isDefault cl = false →
    normalizePath (sf_relativePath sf) = sf_relativePath sf →
    evolves h ok st (assigned i (set_shelvedFiles (stored_in sf (cl_shelvedFiles cl)) cl) st)
| ev_clear id i cl :
    getChangelistRef id st = Some (i, cl) → cl_isDefault cl = false →
    evolves h ok st (assigned i (set_shelvedFiles [] cl) st)
| ev_discard id i cl p :
    getChangelistRef id st = Some (i, cl) →
    evolves h ok st
      (assigned i
         (set_shelvedFiles
            (filter (λ f, normalizePath (sf_relativePath f) ≠ p) (cl_shelvedFiles cl)) cl) st).

(** What an import payload has to satisfy for [ok]. *)
Definition items_ok (ok : list ShelvedFile → Prop) (items : list ExportItem) : Prop :=
  Forall (λ item, ∀ l, ex_shelvedFiles item = Some l → ok l) items.

Definition import_ok (ok : list ShelvedFile → Prop) (op : Op) : Prop :=
  match op with
  | OpImport data => ∀ items, exp_changelists data = Some items → items_ok ok items
  | _ => True
  end.

(** The two invariants of the registry. *)
Definition registry_inv (st : ChangelistState) : Prop :=
  default_first st ∧ (count_active st ≤ 1)%nat.

(** ** Frames *)

(** A computation that touches nothing but the file system. *)
Definition fs_only {A} (m : M A) : Prop :=
  ∀ w, ∃ r fs, m w = (r, with_files (λ _, fs) w).

(** A computation that leaves [this.state] alone. *)
Definition state_kept {A} (m : M A) : Prop := ∀ w, state (after (m w)) = state w.

#[global] Instance path_unique_dec l : Decision (path_unique l).
Proof. unfold path_unique. apply _. Defined.

#[global] Instance snapshots_unique_dec st : Decision (snapshots_unique st).
Proof. unfold snapshots_unique. apply _. Defined.

(** ** Telling a stranded stash from an ordinary failure *)

(** The run of [commitChangelist] pushed a stash and threw [e] afterwards. *)
Definition stash_stranded (h : Host) (env : Env) (c msg : string) (w : World) (e : Error)
    : Prop :=
  (∃ cl, getChangelist c (state w) = Some cl ∧ cl_isDefault cl = false
         ∧ cl_shelvedFiles cl ≠ [])
  ∧ (0 < size (changedFiles w))%nat
  ∧ (∃ fs, gitStashPush env (files w) = inr fs)
  ∧ outcome (commitChangelist h env c msg w) = Throw e.

(** The run of [commitChangelist] pushed no stash and failed with [e] in
    git or in the file system. *)
Definition ordinary_failure (h : Host) (env : Env) (c msg : string) (w : World) (e : Error)
    : Prop :=
  size (changedFiles w) = 0%nat
  ∧ outcome (commitChangelist h env c msg w) = Throw e
  ∧ kindOf e = IOFailure.

(** What the specification asks of the surfaced error: the caller can tell
    the two apart by looking at it. *)
Definition caller_can_tell (h : Host) : Prop :=
  ∃ unrecoverable : Error → bool,
    (∀ env c msg w e, stash_stranded h env c msg w e → unrecoverable e = true)
    ∧ (∀ env c msg w e, ordinary_failure h env c msg w e → unrecoverable e = false).

(** ** Comparing records up to the repository path *)

(** A record with every [repoPath] field erased and its version set
    aside: what is left must survive a migration untouched. *)
Definition sans_repoPath_sf (sf : ShelvedFile) : ShelvedFile := set_sf_repoPath None sf.

Definition sans_repoPath_cl (cl : Changelist) : Changelist :=
  set_cl_repoPath None (set_shelvedFiles (sans_repoPath_sf <$> cl_shelvedFiles cl) cl).

Definition sans_repoPath (st : ChangelistState) : list Changelist * string :=
  (sans_repoPath_cl <$> changelists st, activeChangelistId st).

(** The [repoPath] fields of a record: per changelist, its own and those of
    its snapshots. *)
Definition repoPaths (st : ChangelistState) : list (option string * list (option string)) :=
  (λ cl, (cl_repoPath cl, sf_repoPath <$> cl_shelvedFiles cl)) <$> changelists st.

(** The same fields once every missing path has been given the default. *)
Definition defaulted (d : string) (x : option string * list (option string))
    : option string * list (option string) :=
  (Some (js_or (fst x) d), (λ o, Some (js_or o d)) <$> snd x).

(** ** Version index *)

Record FileVersion := {
  fv_changelist : Changelist;
  fv_shelvedFile : ShelvedFile;
  fv_label : string;
  fv_timestamp : Z
}.

(** [Array.prototype.sort(compare)]: the stable sort.  An element goes in
    front of the first element it does not compare greater than, so equal
    elements keep the order they came in. *)
Fixpoint insert_by {A} (compare : A → A → Z) (x : A) (l : list A) : list A :=
  match l with
  | [] => [x]
  | y :: rest =>
    if bool_decide (compare x y ≤ 0) then x :: y :: rest
    else y :: insert_by compare x rest
  end.

Definition js_sort {A} (compare : A → A → Z) (l : list A) : list A :=
  foldr (insert_by compare) [] l.

(** The versions [getFileVersions] collects before it sorts them. *)
Definition collectVersions (normalizedPath : string) (st : ChangelistState) : list FileVersion :=
  changelists st ≫= λ changelist,
    (λ shelvedFile,
       {| fv_changelist := changelist;
          fv_shelvedFile := shelvedFile;
          fv_label := cl_label changelist;
          fv_timestamp := sf_shelvedAt shelvedFile |})
      <$> filter (samePath normalizedPath) (cl_shelvedFiles changelist).

Definition getFileVersions (relativePath : string) (st : ChangelistState) : list FileVersion :=
  let normalizedPath := normalizePath relativePath in
  js_sort (λ a b, fv_timestamp b - fv_timestamp a) (collectVersions normalizedPath st).

(** ** [utils.ts]: the repository of a file *)

Record GitRepository := {
  gr_path : string;
  gr_name : string;
  gr_isSubmodule : bool;
  gr_parentRepoPath : option string
}.

(** [s.startsWith(prefix)] *)
Definition startsWith (s prefix : string) : bool := String.prefix prefix s.

(** The test of the loop of [getRepoForFile]. *)
Definition repoContains (path_resolve : string → string) (normalizedFilePath : string)
    (repo : GitRepository) : bool :=
  let normalizedRepoPath := normalizePath (path_resolve (gr_path repo)) in
  startsWith normalizedFilePath (normalizedRepoPath +:+ "/")
  || bool_decide (normalizedFilePath = normalizedRepoPath).

(** [getRepoForFile]; [path_resolve] is Node's [path.resolve]. *)
Definition getRepoForFile (path_resolve : string → string) (filePath : string)
    (repositories : list GitRepository) : option GitRepository :=
  let normalizedFilePath := normalizePath (path_resolve filePath) in
  let sortedRepos :=
    js_sort (λ a b, Z.of_nat (String.length (gr_path b)) - Z.of_nat (String.length (gr_path a)))
      repositories in
  List.find (repoContains path_resolve normalizedFilePath) sortedRepos.

(** ** What an import takes *)

(** The guard [item.label && Array.isArray(item.shelvedFiles)] of the import
    loop: the label and the array of an item that passes it. *)
Definition importable (item : ExportItem) : option (string * list ShelvedFile) :=
  match ex_shelvedFiles item with
  | Some shelvedFiles =>
    if truthy (ex_label item) then Some (ex_label item, shelvedFiles) else None
  | None => None
  end.

(** The records an import pushes for [items] when [k] ids have been drawn
    before. *)
Definition imported_changelists (h : Host) (env : Env) (k : nat) (items : list ExportItem)
    : list Changelist :=
  imap (λ j x, new_changelist h (generateId env (k + j)) (fst x) (snd x))
    (omap importable items).

(** ** The store and the memory *)

(** What is stored for the repository is what the service holds. *)
Definition synced (h : Host) (w : World) : Prop :=
  workspaceState w !! stateKey h = Some (state w).

(** A computation that leaves [this.state] and the store alone. *)
Definition store_kept {A} (m : M A) : Prop :=
  ∀ w, state (after (m w)) = state w ∧ workspaceState (after (m w)) = workspaceState w.

(** The entry [processFile] writes. *)
Definition changedFile (h : Host) (relativePath : string) (gitStatus : GitFileStatus)
    (originalPath : option string) : ChangedFile :=
  {| cf_absolutePath := getAbsolutePathFromRepo h relativePath (repository_path h);
     cf_relativePath := relativePath;
     cf_status := gitStatus;
     cf_originalPath :=
       match originalPath with
       | Some o => if truthy o then Some (normalizePath o) else None
       | None => None
       end;
     cf_repoPath := Some (repository_path h) |}.

(** The working tree once [deleteSnapshotFile] has removed the mirror copy
    of a snapshot, if the mirror is on. *)
Definition unmirrored (h : Host) (env : Env) (sf : ShelvedFile) (cl : Changelist)
    (fs : gmap string string) : gmap string string :=
  if saveSnapshotsToFile env then delete (getSnapshotFilePath h sf cl) fs else fs.

(** The snapshots [deleteShelvedFile] keeps. *)
Definition discarded (normalizedPath : string) (l : list ShelvedFile) : list ShelvedFile :=
  filter (λ f, normalizePath (sf_relativePath f) ≠ normalizedPath) l.

(** What a batch leaves for a path it was given: a snapshot of that path,
    made from the entry of the changed file. *)
Definition shelved_as (w : World) (l : list ShelvedFile) (p : string) : Prop :=
  ∃ sf file,
    findShelved (normalizePath p) l = Some sf
    ∧ changedFiles w !! normalizePath p = Some file
    ∧ sf_relativePath sf = normalizePath p
    ∧ sf_status sf = cf_status file
    ∧ sf_originalPath sf = cf_originalPath file
    ∧ sf_patch sf = "".

(** The test of [tryMigrateLegacyState]: there is a workspace root and it is
    this repository. *)
Definition isWorkspaceRoot (h : Host) : bool :=
  match getWorkspaceRoot h with
  | Some workspaceRoot =>
    truthy workspaceRoot
    && bool_decide (normalizePath (repository_path h) = normalizePath workspaceRoot)
  | None => false
  end.

(** Every changelist and every snapshot names the repository [repoPath]. *)
Definition stamped (repoPath : string) (st : ChangelistState) : Prop :=
  Forall (λ cl, cl_repoPath cl = Some repoPath
                ∧ Forall (λ sf, sf_repoPath sf = Some repoPath) (cl_shelvedFiles cl))
    (changelists st).

(** The paths [git status] reports, list by list in the order
    [updateChangedFiles] reads them. *)
Definition reportedPaths (status : StatusResult) : list string :=
  sr_modified status ++ sr_not_added status ++ sr_created status ++ sr_deleted status
  ++ (rn_to <$> sr_renamed status) ++ sr_conflicted status ++ (fsr_path <$> sr_files status).

(** An entry of the map of changed files that sits under its own normalized
    relative path and points into the repository. *)
Definition wellKeyed (h : Host) (key : string) (file : ChangedFile) : Prop :=
  normalizePath key = key
  ∧ cf_relativePath file = key
  ∧ cf_absolutePath file = getAbsolutePathFromRepo h key (repository_path h)
  ∧ cf_repoPath file = Some (repository_path h).

(** ** [RepositoryManager.ts] *)

(** A JavaScript [Map] with string keys: its entries in insertion order. *)
Definition JsMap (V : Type) : Type := list (string * V).

(** [map.get(key)] *)
Definition Map_get {V} (key : string) (m : JsMap V) : option V :=
  snd <$> (snd <$> list_find (λ e, fst e = key) (m : list (string * V))).

(** [map.set(key, value)]: an entry that is there keeps its place. *)
Fixpoint Map_set {V} (key : string) (value : V) (m : JsMap V) : JsMap V :=
  match m with
  | [] => [(key, value)]
  | e :: rest =>
    if decide (fst e = key) then (key, value) :: rest else e :: Map_set key value rest
  end.

(** [map.delete(key)] *)
Definition Map_delete {V} (key : string) (m : JsMap V) : JsMap V :=
  filter (λ e, fst e ≠ key) (m : list (string * V)).

(** The loop [for (const repo of repos) this.repositories.set(repo.path, repo)]. *)
Definition setRepositories (repos : list GitRepository) (repositories : JsMap GitRepository)
    : JsMap GitRepository :=
  foldl (λ m repo, Map_set (gr_path repo) repo m) repositories repos.

(** The loop over [this.repositories] that drops the repositories of a
    removed folder.  Deleting the entry being visited does not disturb the
    iteration of a [Map], so every key that was there is visited once. *)
Definition dropRepositories (folderPath : string) (repositories : JsMap GitRepository)
    : JsMap GitRepository :=
  foldl (λ m repoPath, if startsWith repoPath folderPath then Map_delete repoPath m else m)
    repositories (fst <$> (repositories : list (string * GitRepository))).

(** The listener for [onDidChangeWorkspaceFolders]; [findGitRepositories]
    scans the disk under a folder, and [added] and [removed] are the
    [fsPath]s of the folders of the event. *)
Definition onDidChangeWorkspaceFolders (findGitRepositories : string → list GitRepository)
    (added removed : list string) (repositories : JsMap GitRepository)
    : JsMap GitRepository :=
  let afterRemoval := foldl (λ m folderPath, dropRepositories folderPath m) repositories removed in
  foldl (λ m folderPath, setRepositories (findGitRepositories folderPath) m) afterRemoval added.

(** [scanRepositories]: the map is cleared and filled from the workspace
    folders. *)
Definition scanRepositories (findGitRepositories : string → list GitRepository)
    (workspaceFolders : list string) : JsMap GitRepository :=
  foldl (λ m folderPath, setRepositories (findGitRepositories folderPath) m)
    [] workspaceFolders.

(** A computation that keeps the map of changed files well keyed. *)
Definition keeps_wellKeyed {A} (h : Host) (m : M A) : Prop :=
  ∀ w, map_Forall (wellKeyed h) (changedFiles w)
       → map_Forall (wellKeyed h) (changedFiles (after (m w))).

(** ** A sample repository *)

(** Node's [path.join] and [path.basename] for POSIX paths. *)

Fixpoint split_slash (acc s : string) : list string :=
  match s with
  | EmptyString => [acc]
  | String c rest =>
    if Ascii.eqb c "/" then acc :: split_slash "" rest
    else split_slash (acc +:+ String c "") rest
  end.

(** The segments of a path with [.] and empty segments dropped and [..]
    resolved; the stack holds the segments so far, last one first. *)
Definition resolve_segment (absolute : bool) (stack : list string) (seg : string)
    : list string :=
  if bool_decide (seg = "") || bool_decide (seg = ".") then stack
  else if bool_decide (seg = "..") then
    match stack with
    | top :: below => if bool_decide (top = "..") then seg :: stack else below
    | [] => if absolute then [] else [seg]
    end
  else seg :: stack.

(** [path.normalize] *)
Definition posix_normalize (p : string) : string :=
  let absolute := String.prefix "/" p in
  let segments := split_slash "" p in
  let trailing := bool_decide (last segments = Some "") && bool_decide (1 < length segments)%nat in
  let body := String.concat "/" (rev (foldl (resolve_segment absolute) [] segments)) in
  if bool_decide (body = "") then (if absolute then "/" else if trailing then "./" else ".")
  else (if absolute then "/" else "") +:+ body +:+ (if trailing then "/" else "").

Definition posix_join (segments : list string) : string :=
  posix_normalize (String.concat "/" (filter (λ seg, seg ≠ "") segments)).

(** [path.basename]: the last segment that is not empty. *)
Definition posix_basename (p : string) : string :=
  default "" (last (filter (λ seg, seg ≠ "") (split_slash "" p))).

Definition demo_host : Host :=
  {| path_join := posix_join;
     path_basename := posix_basename;
     getRepoHash := λ _, "0a1b2c3d";
     getWorkspaceRoot := Some "/repo";
     repository_path := "/repo" |}.

(** A quiet outside world: git accepts everything and changes nothing, the
    mirror is off, [git status] answers [cf]. *)
Definition demo_env (ids : list string) (cf : option StatusResult) : Env :=
  {| saveSnapshotsToFile := false;
     dateNow := 1700000000000;
     generateId := λ k, nth k ids "cl-z";
     isDirectory := λ _, false;
     mkdir := λ _, None;
     gitShow := λ _, None;
     gitStatus := cf;
     gitAdd := λ _, None;
     gitCommit := λ _, None;
     gitStashPush := inr;
     gitStashPop := inr;
     gitApply := λ _, inr;
     gitCheckout := λ _, inr |}.

(** The entry [updateChangedFiles] writes for [p]. *)
Definition changed (p : string) (s : GitFileStatus) : ChangedFile :=
  {| cf_absolutePath := "/repo/" +:+ p; cf_relativePath := p; cf_status := s;
     cf_originalPath := None; cf_repoPath := Some "/repo" |}.

(** A fresh service on a working tree where [config.json] holds "v2" and is
    reported as modified; then a changelist "Feature A" is created. *)
Definition demo_fresh : World :=
  after (construct demo_host (demo_env ["cl-0"] None)
           (blank ∅ {[ "/repo/config.json" := "v2" ]})).

Definition clean_status : StatusResult :=
  {| sr_modified := []; sr_not_added := []; sr_created := []; sr_deleted := [];
     sr_renamed := []; sr_conflicted := []; sr_files := [] |}.

(** [ M config.json] *)
Definition demo_status : StatusResult :=
  {| sr_modified := ["config.json"]; sr_not_added := []; sr_created := [];
     sr_deleted := []; sr_renamed := []; sr_conflicted := [];
     sr_files := [ {| fsr_path := "config.json"; fsr_index := " ";
                      fsr_working_dir := "M" |} ] |}.

Definition demo_created : World :=
  after (exec demo_host (demo_env ["cl-1"] None) (OpCreate "Feature A")
           (after (exec demo_host (demo_env [] (Some demo_status)) OpRefresh demo_fresh))).

(** "Feature A" holds the "v2" snapshot of [config.json]. *)
Definition demo_shelved : World :=
  after (exec demo_host (demo_env [] None) (OpShelve "config.json" "cl-1") demo_created).

(** [git rm --cached config.json]: the file is still on disk with "v2", and
    [git status] lists it both as deleted (index) and as untracked; the map
    of changed files keeps the entry written last, the deleted one. *)
Definition demo_deleted_status : StatusResult :=
  {| sr_modified := []; sr_not_added := ["config.json"]; sr_created := [];
     sr_deleted := ["config.json"]; sr_renamed := []; sr_conflicted := [];
     sr_files := [ {| fsr_path := "config.json"; fsr_index := "D";
                      fsr_working_dir := " " |};
                   {| fsr_path := "config.json"; fsr_index := "?";
                      fsr_working_dir := "?" |} ] |}.

Definition demo_stale : World :=
  after (exec demo_host (demo_env [] (Some demo_deleted_status)) OpRefresh demo_created).


Definition snapshot (p content : string) : ShelvedFile :=
  {| sf_relativePath := p; sf_status := modified; sf_patch := "";
     sf_originalContent := Some content; sf_headContent := None;
     sf_shelvedAt := 1700000000000; sf_originalPath := None; sf_repoPath := None |}.

(** An import file in which one changelist lists [a.txt] twice. *)
Definition demo_duplicate_import : ChangelistExport :=
  {| exp_version := 2;
     exp_changelists :=
       Some [ {| ex_label := "Merged";
                 ex_shelvedFiles := Some [snapshot "a.txt" "one"; snapshot "a.txt" "two"] |} ];
     exp_exportedAt := "2025-12-11T09:00:00.000Z" |}.







(** Git answers for a commit: [commit] and [pop] are the rejections of
    [git commit] and of [git stash pop], if any. *)
Definition commit_env (commit pop : option string) : Env :=
  {| saveSnapshotsToFile := false;
     dateNow := 1700000000000;
     generateId := λ _, "cl-z";
     isDirectory := λ _, false;
     mkdir := λ _, None;
     gitShow := λ _, None;
     gitStatus := None;
     gitAdd := λ _, None;
     gitCommit := λ _, commit;
     gitStashPush := inr;
     gitStashPop := λ fs, match pop with Some msg => inl msg | None => inr fs end;
     gitApply := λ _, inr;
     gitCheckout := λ _, inr |}.

(** As [demo_shelved], but with a clean working tree: nothing to stash. *)
Definition demo_shelved_clean : World := with_changedFiles ∅ demo_shelved.

(** A record of schema version 3, from before changelists and snapshots
    carried a repository path. *)
Definition demo_v3 : ChangelistState :=
  {| version := 3;
     activeChangelistId := "cl-0";
     changelists :=
       [ {| cl_id := "cl-0"; cl_label := "Default Changelist"; cl_shelvedFiles := [];
            cl_isDefault := true; cl_isActive := true; cl_repoPath := None |};
         {| cl_id := "cl-1"; cl_label := "Feature A";
            cl_shelvedFiles := [snapshot "config.json" "v2"];
            cl_isDefault := false; cl_isActive := false; cl_repoPath := None |} ] |}.

Definition demo_v3_store : World :=
  blank {[ stateKey demo_host := demo_v3 ]} ∅.


(** ** More sample data *)

(** The snapshot of [p] taken at time [t]. *)
Definition snapshot_at (p content : string) (t : Z) : ShelvedFile :=
  {| sf_relativePath := p; sf_status := modified; sf_patch := "";
     sf_originalContent := Some content; sf_headContent := None;
     sf_shelvedAt := t; sf_originalPath := None; sf_repoPath := Some "/repo" |}.

(** Two changelists that both hold a snapshot of [config.json], the older
    one first. *)
Definition demo_versions : ChangelistState :=
  {| version := 4;
     activeChangelistId := "cl-0";
     changelists :=
       [ {| cl_id := "cl-0"; cl_label := "Default Changelist"; cl_shelvedFiles := [];
            cl_isDefault := true; cl_isActive := true; cl_repoPath := Some "/repo" |};
         {| cl_id := "cl-1"; cl_label := "Feature A";
            cl_shelvedFiles := [snapshot_at "config.json" "v2" 100; snapshot_at "a.txt" "a" 150];
            cl_isDefault := false; cl_isActive := false; cl_repoPath := Some "/repo" |};
         {| cl_id := "cl-2"; cl_label := "Feature B";
            cl_shelvedFiles := [snapshot_at "config.json" "v3" 200];
            cl_isDefault := false; cl_isActive := false; cl_repoPath := Some "/repo" |} ] |}.

(** A workspace with a repository and a nested one. *)
Definition demo_repositories : list GitRepository :=
  [ {| gr_path := "/w"; gr_name := "w"; gr_isSubmodule := false; gr_parentRepoPath := None |};
    {| gr_path := "/w/sub"; gr_name := "sub"; gr_isSubmodule := true;
       gr_parentRepoPath := Some "/w" |} ].

(** A store that holds only a record under the legacy key. *)
Definition demo_legacy_store : gmap string ChangelistState :=
  {[ LEGACY_STATE_KEY := demo_v3 ]}.

(** A record written by a later version of the schema. *)
Definition demo_v5 : ChangelistState :=
  {| version := 5; activeChangelistId := activeChangelistId demo_v3;
     changelists := changelists demo_v3 |}.

(** [git status] after a staged deletion of [old.txt] that was then
    recreated: listed as deleted and as untracked, and with a backslash
    path among the modified files. *)
Definition demo_mixed_status : StatusResult :=
  {| sr_modified := ["src\app.ts"]; sr_not_added := ["old.txt"]; sr_created := [];
     sr_deleted := ["old.txt"]; sr_renamed := []; sr_conflicted := [];
     sr_files := [ {| fsr_path := "staged.txt"; fsr_index := "M";
                      fsr_working_dir := "D" |} ] |}.

(** As [demo_env], with the mirror of snapshots switched on. *)
Definition mirror_env : Env :=
  {| saveSnapshotsToFile := true;
     dateNow := 1700000000000;
     generateId := λ _, "cl-z";
     isDirectory := λ _, false;
     mkdir := λ _, None;
     gitShow := λ _, None;
     gitStatus := None;
     gitAdd := λ _, None;
     gitCommit := λ _, None;
     gitStashPush := inr;
     gitStashPop := inr;
     gitApply := λ _, inr;
     gitCheckout := λ _, inr |}.


(** The single byte FF: not the UTF-8 encoding of any text. *)
Definition byte_FF : string := String "255" "".

(** [git status] with [data.bin] and [docs/readme.md] modified. *)
Definition demo_binary_status : StatusResult :=
  {| sr_modified := ["data.bin"; "docs/readme.md"]; sr_not_added := []; sr_created := [];
     sr_deleted := []; sr_renamed := []; sr_conflicted := []; sr_files := [] |}.

(** A service started with the mirror on, on a working tree where
    [data.bin] holds the byte FF and there are two files [readme.md]; both
    [data.bin] and [docs/readme.md] are reported as modified. *)
Definition demo_binary : World :=
  after (exec demo_host (demo_env [] (Some demo_binary_status)) OpRefresh
           (after (construct demo_host mirror_env
                     (blank ∅ {[ "/repo/data.bin" := byte_FF;
                                 "/repo/docs/readme.md" := "new";
                                 "/repo/readme.md" := "top" ]})))).

(** As [demo_binary], with a changelist labelled [..], and with one labelled
    [Feature A]. *)
Definition demo_dotdot : World :=
  after (exec demo_host (demo_env ["cl-1"] None) (OpCreate "..") demo_binary).

Definition demo_binary_created : World :=
  after (exec demo_host (demo_env ["cl-1"] None) (OpCreate "Feature A") demo_binary).

(** A record of the single-repository format. *)
Definition demo_legacy_record : ChangelistState :=
  {| version := 1;
     activeChangelistId := "cl-0";
     changelists :=
       [ {| cl_id := "cl-0"; cl_label := "Default Changelist"; cl_shelvedFiles := [];
            cl_isDefault := true; cl_isActive := true; cl_repoPath := None |};
         {| cl_id := "cl-4"; cl_label := "Old shelf";
            cl_shelvedFiles := [snapshot "b.txt" "b1"];
            cl_isDefault := false; cl_isActive := false; cl_repoPath := None |} ] |}.

(** A store that holds the record [demo_v3] of the repository, of schema
    version 3, and a record under the legacy key as well. *)
Definition demo_both_store : World :=
  blank {[ stateKey demo_host := demo_v3; LEGACY_STATE_KEY := demo_legacy_record ]} ∅.

(** "Feature A" holds a snapshot of [docs/readme.md], taken with the mirror
    on: its mirror copy is in [.smartchangelists/Feature A]. *)
Definition demo_mirrored : World :=
  after (exec demo_host mirror_env (OpShelve "docs/readme.md" "cl-1") demo_binary_created).

(** [git status] with [config.json] modified and [old.txt] deleted. *)
Definition demo_two_status : StatusResult :=
  {| sr_modified := ["config.json"]; sr_not_added := []; sr_created := [];
     sr_deleted := ["old.txt"]; sr_renamed := []; sr_conflicted := []; sr_files := [] |}.

(** "Feature A" holds the "v2" snapshot of [config.json]; since then the
    file has been edited to "v3" and [old.txt] has been deleted. *)
Definition demo_edited : World :=
  with_files (insert "/repo/config.json" "v3")
    (after (exec demo_host (demo_env [] (Some demo_two_status)) OpRefresh demo_shelved)).

(** * Properties *)

Open Scope nat_scope.

(** ** Running computations *)

Lemma run_bind {A B} (m : M A) (k : A → M B) (w : World) :
  (m ≫= k) w = match m w with
               | (Ok a, w') => k a w'
               | (Throw e, w') => (Throw e, w')
               end.
Proof. reflexivity. Qed.

Lemma world_eta (w : World) : with_files (λ _, files w) w = w.
Proof. by destruct w. Qed.

Lemma fs_only_ret {A} (a : A) : fs_only (mret a).
Proof. intros w. exists (Ok a), (files w). by rewrite world_eta. Qed.

Lemma fs_only_throw {A} (e : Error) : fs_only (@throw A e).
Proof. intros w. exists (Throw e), (files w). by rewrite world_eta. Qed.

Lemma fs_only_bind {A B} (m : M A) (k : A → M B) :
  fs_only m → (∀ a, fs_only (k a)) → fs_only (m ≫= k).
Proof.
  intros Hm Hk w. rewrite run_bind.
  destruct (Hm w) as (r & fs & ->). destruct r as [a|e].
  - destruct (Hk a (with_files (λ _, fs) w)) as (r' & fs' & ->).
    by exists r', fs'.
  - by exists (Throw e), fs.
Qed.

Lemma fs_only_finally {A} (m : M A) (c : M unit) :
  fs_only m → fs_only c → fs_only (finally m c).
Proof.
  intros Hm Hc w. unfold finally.
  destruct (Hm w) as (r & fs & ->).
  destruct (Hc (with_files (λ _, fs) w)) as (r' & fs' & ->).
  by exists r, fs'.
Qed.

Lemma fs_only_existsSync p : fs_only (existsSync p).
Proof. intros w. eexists _, (files w). by rewrite world_eta. Qed.

Lemma fs_only_writeFileSync p c : fs_only (writeFileSync p c).
Proof. intros w. by exists (Ok tt), (<[p := c]> (files w)). Qed.

Lemma fs_only_unlinkSync p : fs_only (unlinkSync p).
Proof.
  intros w. unfold unlinkSync. rewrite run_bind. simpl.
  case_bool_decide.
  - by exists (Ok tt), (delete p (files w)).
  - exists (Throw (FsError "ENOENT")), (files w). by rewrite world_eta.
Qed.

Lemma fs_only_gitRun run : fs_only (gitRun run).
Proof.
  intros w. unfold gitRun. destruct (run (files w)) as [msg|fs].
  - exists (Throw (GitError msg)), (files w). by rewrite world_eta.
  - by exists (Ok tt), fs.
Qed.

Lemma fs_only_gitDo r : fs_only (gitDo r).
Proof. destruct r; [apply fs_only_throw | apply fs_only_ret]. Qed.

Lemma fs_only_forEach {A} (f : A → M unit) (l : list A) :
  (∀ x, fs_only (f x)) → fs_only (forEach f l).
Proof.
  intros Hf. induction l as [|x l IH]; simpl.
  - apply fs_only_ret.
  - apply fs_only_bind; auto.
Qed.

Create HintDb fs_only.
#[global] Hint Resolve fs_only_ret fs_only_throw fs_only_existsSync fs_only_writeFileSync
  fs_only_unlinkSync fs_only_gitRun fs_only_gitDo : fs_only.

Ltac fs_only_step :=
  first
    [ solve [ auto with fs_only ]
    | apply fs_only_bind; [| intros ? ]
    | apply fs_only_finally
    | apply fs_only_forEach; intros ?
    | match goal with |- fs_only (if ?b then _ else _) => destruct b end
    | match goal with |- fs_only (match ?o with _ => _ end) => destruct o end ].

Lemma fs_only_unshelveFileInternal h env sf : fs_only (unshelveFileInternal h env sf).
Proof. unfold unshelveFileInternal. repeat fs_only_step. Qed.

Lemma fs_only_saveSnapshotToFile h env sf cl : fs_only (saveSnapshotToFile h env sf cl).
Proof. unfold saveSnapshotToFile. repeat fs_only_step. Qed.

Lemma fs_only_deleteSnapshotFile h env sf cl : fs_only (deleteSnapshotFile h env sf cl).
Proof. unfold deleteSnapshotFile. repeat fs_only_step. Qed.

#[global] Hint Resolve fs_only_unshelveFileInternal fs_only_saveSnapshotToFile
  fs_only_deleteSnapshotFile : fs_only.

Lemma fs_only_restore_all h env l : fs_only (forEach (unshelveFileInternal h env) l).
Proof. repeat fs_only_step. Qed.
#[global] Hint Resolve fs_only_restore_all : fs_only.

(** ** Lists and references *)

Lemma list_find_alter_keep {A} (P : A → Prop) `{!∀ x, Decision (P x)}
    (f : A → A) (l : list A) (i : nat) (x : A) :
  list_find P l = Some (i, x) → P (f x) →
  list_find P (alter f i l) = Some (i, f x).
Proof.
  intros (Hi & HP & Hleast)%list_find_Some Hf. apply list_find_Some.
  split_and!.
  - by rewrite list_lookup_alter_eq, Hi.
  - done.
  - intros j y Hj Hlt. rewrite list_lookup_alter_ne in Hj by lia. eauto.
Qed.

Lemma alter_at_found {A} (f : A → A) (l : list A) (i : nat) (x : A) :
  l !! i = Some x → alter f i l = <[i := f x]> l.
Proof.
  intros Hi. rewrite list_insert_alter.
  apply list_alter_ext; [|done]. intros y Hy. congruence.
Qed.

Lemma getChangelistRef_lookup id st i cl :
  getChangelistRef id st = Some (i, cl) →
  changelists st !! i = Some cl ∧ cl_id cl = id.
Proof. intros (? & ? & _)%list_find_Some. done. Qed.

Lemma getChangelist_Some id st cl :
  getChangelist id st = Some cl ↔ ∃ i, getChangelistRef id st = Some (i, cl).
Proof.
  unfold getChangelist. split.
  - intros ([i c] & ? & ?)%fmap_Some. simplify_eq/=. eauto.
  - intros [i ->]. done.
Qed.

(** A field assignment that keeps the id keeps the reference. *)
Lemma getChangelistRef_insert id st i cl cl' :
  getChangelistRef id st = Some (i, cl) → cl_id cl' = id →
  getChangelistRef id (set_changelists (<[i := cl']> (changelists st)) st) = Some (i, cl').
Proof.
  intros Hfind Hid. pose proof Hfind as (Hi & _ & _)%list_find_Some.
  unfold getChangelistRef. simpl.
  rewrite <- (alter_at_found (λ _, cl') _ _ _ Hi).
  by apply (list_find_alter_keep _ (λ _, cl') _ _ cl).
Qed.

(** ** The snapshot array *)

Lemma findShelved_stored_in sf l :
  normalizePath (sf_relativePath sf) = sf_relativePath sf →
  findShelved (sf_relativePath sf) (stored_in sf l) = Some sf.
Proof.
  intros Hnorm. unfold findShelved, stored_in, findIndex.
  destruct (list_find (samePath (sf_relativePath sf)) l) as [[k y]|] eqn:E; simpl.
  - apply list_find_Some in E as (Hk & _ & Hleast).
    assert (list_find (samePath (sf_relativePath sf)) (<[k:=sf]> l) = Some (k, sf)) as ->; [|done].
    apply list_find_insert_Some. right; left.
    split_and!; eauto using lookup_lt_Some.
  - rewrite list_find_app_r by done. simpl. by rewrite decide_True.
Qed.

Lemma replace_chars_idemp hit r s :
  hit r = false → replace_chars hit r (replace_chars hit r s) = replace_chars hit r s.
Proof.
  intros Hr. induction s as [|c s IH]; cbn [replace_chars]; [done|].
  rewrite IH. f_equal. destruct (hit c) eqn:E; by rewrite ?Hr, ?E.
Qed.

Lemma normalizePath_idemp p : normalizePath (normalizePath p) = normalizePath p.
Proof. by apply replace_chars_idemp. Qed.

(** ** [shelveFile], step by step *)

Lemma saveSnapshotToFile_run h env sf cl w :
  saveSnapshotToFile h env sf cl w = (Ok tt, with_files (mirrored h env sf cl) w).
Proof.
  unfold saveSnapshotToFile, mirrored.
  destruct (saveSnapshotsToFile env); simpl.
  - destruct (sf_originalContent sf) as [c|]; simpl.
    + destruct (truthy c); simpl; [done|]. by destruct w.
    + by destruct w.
  - destruct (sf_originalContent sf); by destruct w.
Qed.

(** The read of [shelveFile]. *)
Lemma readIfExists_run env p w :
  readIfExists env p w
  = match files w !! p with
    | Some bytes => (Ok (Some (decodeUtf8 bytes)), w)
    | None => if isDirectory env p then (Throw (FsError "EISDIR"), w) else (Ok None, w)
    end.
Proof.
  unfold readIfExists. rewrite run_bind. cbn [get fst snd].
  destruct (files w !! p); [done|]. by destruct (isDirectory env p).
Qed.

(** What follows the read in [shelveFile], given what was read. *)
Lemma shelveFile_store h env np w file i cl content :
  changelists (state w) !! i = Some cl →
  content = (if decide (cf_status file = deleted) then None
             else decodeUtf8 <$>
                    files w !! getAbsolutePathFromRepo h np (repository_path h)) →
  let shelvedFile :=
    {| sf_relativePath := np; sf_status := cf_status file; sf_patch := "";
       sf_originalContent := content;
       sf_headContent :=
         if decide (cf_status file = untracked) then None
         else gitShow env ("HEAD:" +:+ np);
       sf_shelvedAt := dateNow env; sf_originalPath := cf_originalPath file;
       sf_repoPath := Some (repository_path h) |} in
  (mutate i (λ cl0,
     set_shelvedFiles
       match findIndex np (cl_shelvedFiles cl) with
       | Some k => <[k := shelvedFile]> (cl_shelvedFiles cl0)
       | None => cl_shelvedFiles cl0 ++ [shelvedFile]
       end cl0);;
   saveSnapshotToFile h env shelvedFile cl;;
   saveState h None;;
   fire ChangelistsChanged) w
  = (Ok tt, shelved h env np file i cl w).
Proof.
  intros Hi -> shelvedFile. subst shelvedFile.
  fold (captured h env file np (files w)).
  rewrite run_bind. unfold mutate at 1, modify at 1.
  rewrite run_bind, saveSnapshotToFile_run.
  unfold with_state, with_files; cbn [state changelists files].
  rewrite (alter_at_found _ _ _ _ Hi). done.
Qed.

Lemma shelveFile_run h env p c w file i cl :
  changedFiles w !! normalizePath p = Some file →
  getChangelistRef c (state w) = Some (i, cl) →
  cl_isDefault cl = false →
  shelveFile h env p c w
  = if decide (readable h env file (normalizePath p) (files w))
    then (Ok tt, shelved h env (normalizePath p) file i cl w)
    else (Throw (FsError "EISDIR"), w).
Proof.
  intros Hfile Hcl Hdef. unfold shelveFile.
  rewrite run_bind. cbn [get fst snd]. rewrite Hfile, Hcl, Hdef.
  apply getChangelistRef_lookup in Hcl as [Hi _].
  rewrite run_bind. unfold readable.
  set (abs := getAbsolutePathFromRepo h (normalizePath p) (repository_path h)).
  destruct (decide (cf_status file = deleted ∨ is_Some (files w !! abs)
                    ∨ isDirectory env abs = false)) as [Hr|Hr].
  - destruct (decide (cf_status file = deleted)) as [Hdel|Hdel].
    + cbn [mret M_ret].
      apply (shelveFile_store h env (normalizePath p) w file i cl None Hi).
      by rewrite decide_True.
    + rewrite readIfExists_run.
      destruct (files w !! abs) as [bytes|] eqn:Hbytes.
      * apply (shelveFile_store h env (normalizePath p) w file i cl _ Hi).
        fold abs. by rewrite decide_False, Hbytes.
      * destruct Hr as [?|[[? ?]|Hdir]]; [done|done|]. rewrite Hdir.
        apply (shelveFile_store h env (normalizePath p) w file i cl _ Hi).
        fold abs. by rewrite decide_False, Hbytes.
  - destruct (decide (cf_status file = deleted)) as [Hdel|Hdel]; [destruct Hr; by left|].
    rewrite readIfExists_run.
    destruct (files w !! abs) as [bytes|] eqn:Hbytes; [destruct Hr; right; left; eauto|].
    destruct (isDirectory env abs) eqn:Hdir; [done|]. destruct Hr. by right; right.
Qed.

(** [shelveFile] where it can read. *)
Lemma shelveFile_run_readable h env p c w file i cl :
  changedFiles w !! normalizePath p = Some file →
  getChangelistRef c (state w) = Some (i, cl) →
  cl_isDefault cl = false →
  readable h env file (normalizePath p) (files w) →
  shelveFile h env p c w = (Ok tt, shelved h env (normalizePath p) file i cl w).
Proof.
  intros Hfile Hcl Hdef Hread.
  by rewrite (shelveFile_run _ _ _ _ _ _ _ _ Hfile Hcl Hdef), decide_True.
Qed.

(** ** Restoring, step by step *)

Lemma refresh_run h env w : refresh h env w = (Ok tt, refreshed h env w).
Proof. unfold refresh, refreshed. by destruct (gitStatus env). Qed.

Lemma state_refreshed h env w : state (refreshed h env w) = state w.
Proof. unfold refreshed. by destruct (gitStatus env). Qed.

Lemma files_refreshed h env w : files (refreshed h env w) = files w.
Proof. unfold refreshed. by destruct (gitStatus env). Qed.

Lemma existsSync_run p w :
  existsSync p w = (Ok (bool_decide (is_Some (files w !! p))), w).
Proof. reflexivity. Qed.

Lemma unlinkSync_run p w :
  is_Some (files w !! p) → unlinkSync p w = (Ok tt, with_files (delete p) w).
Proof. intros Hp. unfold unlinkSync. rewrite run_bind. simpl. by rewrite bool_decide_true. Qed.





(** After a shelve, the changelist resolves as before and [p] resolves to
    the snapshot just captured. *)
Lemma shelved_lookup h env p c w file i cl :
  getChangelistRef c (state w) = Some (i, cl) →
  let sf := captured h env file (normalizePath p) (files w) in
  let cl' := set_shelvedFiles (stored_in sf (cl_shelvedFiles cl)) cl in
  getChangelistRef c (state (shelved h env (normalizePath p) file i cl w)) = Some (i, cl')
  ∧ findShelved (normalizePath p) (cl_shelvedFiles cl') = Some sf.
Proof.
  intros Hcl sf cl'. split.
  - unfold shelved. cbn [state]. apply (getChangelistRef_insert _ _ _ cl); [done|].
    apply getChangelistRef_lookup in Hcl as [_ ?]. done.
  - apply (findShelved_stored_in sf). apply normalizePath_idemp.
Qed.

(** [shelveFile] either stores the snapshot or throws before it has changed
    anything. *)
Lemma shelveFile_cases h env p c w :
  (∃ file i cl,
     changedFiles w !! normalizePath p = Some file
     ∧ getChangelistRef c (state w) = Some (i, cl)
     ∧ cl_isDefault cl = false
     ∧ readable h env file (normalizePath p) (files w)
     ∧ shelveFile h env p c w = (Ok tt, shelved h env (normalizePath p) file i cl w))
  ∨ (∃ e, shelveFile h env p c w = (Throw e, w)).
Proof.
  destruct (changedFiles w !! normalizePath p) as [file|] eqn:Hfile.
  - destruct (getChangelistRef c (state w)) as [[i cl]|] eqn:Hcl.
    + destruct (cl_isDefault cl) eqn:Hdef.
      * right. eexists. unfold shelveFile. rewrite run_bind. cbn [get fst snd].
        by rewrite Hfile, Hcl, Hdef.
      * rewrite (shelveFile_run _ _ _ _ _ _ _ _ Hfile Hcl Hdef).
        destruct (decide (readable h env file (normalizePath p) (files w))).
        -- left. by exists file, i, cl.
        -- right. by eexists.
    + right. eexists. unfold shelveFile. rewrite run_bind. cbn [get fst snd].
      by rewrite Hfile, Hcl.
  - right. eexists. unfold shelveFile. rewrite run_bind. cbn [get fst snd].
    by rewrite Hfile.
Qed.

(** A [shelveFile] that throws has changed nothing at all. *)
Lemma shelveFile_throw_clean h env p c w e :
  outcome (shelveFile h env p c w) = Throw e → after (shelveFile h env p c w) = w.
Proof.
  destruct (shelveFile_cases h env p c w) as [(file & i & cl & _ & _ & _ & _ & ->)|[e' ->]];
    done.
Qed.

(** ** Every method moves the state along [evolves] *)

Section evolution.
Context (h : Host) (ok : list ShelvedFile → Prop).

Local Abbreviation steps := (rtc (evolves h ok)).

Lemma saveState_run w :
  saveState h None w = (Ok tt, with_workspaceState (insert (stateKey h) (state w)) w).
Proof. reflexivity. Qed.

Lemma fire_run e w : fire e w = (Ok tt, with_event e w).
Proof. reflexivity. Qed.

Lemma mutate_run i f w :
  mutate i f w
  = (Ok tt, with_state (λ st, set_changelists (alter f i (changelists st)) st) w).
Proof. reflexivity. Qed.

Lemma createChangelist_run id label w :
  createChangelist h id label w =
    (Ok (length (changelists (state w))),
     with_event ChangelistsChanged
       (with_workspaceState
          (insert (stateKey h)
             (set_changelists (changelists (state w) ++ [new_changelist h id label []])
                (state w)))
          (with_state
             (λ st, set_changelists (changelists st ++ [new_changelist h id label []]) st)
             w))).
Proof. reflexivity. Qed.

Lemma renameChangelist_steps id v w :
  steps (state w) (state (after (renameChangelist h id v w))).
Proof.
  unfold renameChangelist. rewrite run_bind. simpl.
  destruct (getChangelistRef id (state w)) as [[i cl]|] eqn:Hcl; [|done].
  pose proof Hcl as [Hi _]%getChangelistRef_lookup.
  rewrite run_bind, mutate_run, run_bind, saveState_run, fire_run.
  unfold after. simpl. rewrite (alter_at_found _ _ _ _ Hi).
  apply rtc_once. by eapply ev_rename.
Qed.

Lemma setActiveChangelist_steps id w :
  steps (state w) (state (after (setActiveChangelist h id w))).
Proof.
  unfold setActiveChangelist. rewrite run_bind. simpl.
  destruct (getChangelistRef id (state w)) as [[i cl]|] eqn:Hcl; [|done].
  apply rtc_once. exact (ev_activate h ok (state w) id i cl Hcl).
Qed.

Lemma shelveFile_steps env p c w :
  steps (state w) (state (after (shelveFile h env p c w))).
Proof.
  destruct (shelveFile_cases h env p c w)
    as [(file & i & cl & Hfile & Hcl & Hdef & _ & ->)|[e ->]]; [|done].
  apply rtc_once. eapply ev_store; eauto. apply normalizePath_idemp.
Qed.

Lemma forEach_steps {A} (f : A → M unit) (l : list A) w :
  (∀ x w, steps (state w) (state (after (f x w)))) →
  steps (state w) (state (after (forEach f l w))).
Proof.
  intros Hf. revert w. induction l as [|x l IH]; intros w; simpl; [done|].
  rewrite run_bind. specialize (Hf x w).
  destruct (f x w) as [[[]|e] w'] eqn:E; unfold after in *; simpl in *; [|done].
  etrans; [exact Hf|]. apply IH.
Qed.

Lemma shelveFiles_steps env ps c w :
  steps (state w) (state (after (shelveFiles h env ps c w))).
Proof. apply forEach_steps. intros. apply shelveFile_steps. Qed.

Lemma state_kept_fs_only {A} (m : M A) : fs_only m → state_kept m.
Proof. intros Hm w. by destruct (Hm w) as (r & fs & ->). Qed.

Lemma state_kept_bind {A B} (m : M A) (k : A → M B) :
  state_kept m → (∀ a, state_kept (k a)) → state_kept (m ≫= k).
Proof.
  intros Hm Hk w. rewrite run_bind. specialize (Hm w).
  destruct (m w) as [[a|e] w']; unfold after in Hm; simpl in Hm; [|done].
  etrans; [apply (Hk a w') | exact Hm].
Qed.

Lemma state_kept_refresh env : state_kept (refresh h env).
Proof. intros w. rewrite refresh_run. apply state_refreshed. Qed.

Lemma state_kept_fire e : state_kept (fire e).
Proof. done. Qed.

Lemma state_kept_saveState : state_kept (saveState h None).
Proof. done. Qed.

Lemma state_kept_get : state_kept get.
Proof. done. Qed.

Ltac kept :=
  repeat first
    [ apply state_kept_refresh | apply state_kept_fire | apply state_kept_saveState
    | apply state_kept_get
    | apply state_kept_fs_only; solve [repeat fs_only_step]
    | apply state_kept_bind; [| intros ? ]
    | match goal with |- state_kept (if ?b then _ else _) => destruct b end
    | match goal with |- state_kept (match ?o with _ => _ end) => destruct o end ].

Lemma state_kept_unshelveFile env c p : state_kept (unshelveFile h env c p).
Proof. unfold unshelveFile. kept. Qed.

Lemma state_kept_applyAndStage env c p : state_kept (applyAndStage h env c p).
Proof. unfold applyAndStage. kept. Qed.

Lemma state_kept_applyAllAndStage env c : state_kept (applyAllAndStage h env c).
Proof. unfold applyAllAndStage. kept. Qed.

Lemma state_kept_unshelveAll env c : state_kept (unshelveAll h env c).
Proof. unfold unshelveAll. kept. Qed.

Lemma state_kept_commitWorkingChanges env msg : state_kept (commitWorkingChanges h env msg).
Proof. unfold commitWorkingChanges. kept. Qed.

Lemma state_kept_revertFile env p : state_kept (revertFile h env p).
Proof. unfold revertFile. kept. Qed.

(** [deleteChangelist] once the changelist is found and is not the
    default one. *)
Lemma deleteChangelist_run env id w cl :
  getChangelist id (state w) = Some cl → cl_isDefault cl = false →
  deleteChangelist h env id w =
    match forEach (unshelveFileInternal h env) (cl_shelvedFiles cl) w with
    | (Throw e, w') => (Throw e, w')
    | (Ok _, w') =>
      let w1 := with_state (λ st,
                  set_changelists (filter (λ c, cl_id c ≠ id) (changelists st)) st) w' in
      if cl_isActive cl && bool_decide (getDefaultChangelistRef (state w1) = None)
      then (Throw DefaultChangelistNotFound, w1)
      else
        (Ok tt,
         with_event ChangelistsChanged
           (refreshed h env
              (with_workspaceState (insert (stateKey h) (dropped id cl (state w')))
                 (with_state (λ _, dropped id cl (state w')) w'))))
    end.
Proof.
  intros Hcl Hdef. unfold deleteChangelist. rewrite run_bind. simpl. rewrite Hcl, Hdef.
  rewrite run_bind.
  destruct (forEach (unshelveFileInternal h env) (cl_shelvedFiles cl) w) as [[[]|e] w'];
    [|done].
  rewrite run_bind. unfold modify at 1. rewrite run_bind. unfold dropped.
  destruct (cl_isActive cl); simpl.
  - rewrite run_bind. simpl.
    destruct (getDefaultChangelistRef _) as [[j d]|] eqn:Hd; simpl; [|done].
    rewrite run_bind, saveState_run, run_bind, refresh_run, fire_run. done.
  - rewrite run_bind, saveState_run, run_bind, refresh_run, fire_run. done.
Qed.

Lemma deleteChangelist_steps env id w :
  steps (state w) (state (after (deleteChangelist h env id w))).
Proof.
  destruct (getChangelist id (state w)) as [cl|] eqn:Hcl;
    [destruct (cl_isDefault cl) eqn:Hdef|];
    try (unfold deleteChangelist; rewrite run_bind; simpl; rewrite Hcl, ?Hdef; done).
  rewrite (deleteChangelist_run _ _ _ _ Hcl Hdef).
  destruct (fs_only_restore_all h env (cl_shelvedFiles cl) w) as (r & fs & ->).
  destruct r as [[]|e]; [|done]. simpl.
  destruct (cl_isActive cl && _) eqn:Hact; unfold after; simpl.
  - apply rtc_once.
    apply andb_true_iff in Hact as [Hact Hnone%bool_decide_eq_true].
    replace (set_changelists _ _) with (dropped id cl (state w)); [by apply ev_drop|].
    unfold dropped. rewrite Hact. simpl. by rewrite Hnone.
  - rewrite state_refreshed. simpl. apply rtc_once. by apply ev_drop.
Qed.

Lemma commitChangelist_steps env c msg w :
  steps (state w) (state (after (commitChangelist h env c msg w))).
Proof.
  unfold commitChangelist. rewrite run_bind. simpl.
  destruct (getChangelistRef c (state w)) as [[i cl]|] eqn:Hcl; [|done].
  destruct (cl_isDefault cl) eqn:Hdef.
  { by rewrite state_kept_commitWorkingChanges. }
  case_bool_decide; [done|].
  pose proof Hcl as [Hi _]%getChangelistRef_lookup.
  assert (∀ w0 : World, state w0 = state w →
            steps (state w) (state (with_state (λ st,
               set_changelists (alter (set_shelvedFiles []) i (changelists st)) st) w0)))
    as Hclear.
  { intros w0 Hw0. simpl. rewrite Hw0, (alter_at_found _ _ _ _ Hi).
    apply rtc_once. by eapply ev_clear. }
  set (pop := if bool_decide (0 < size (changedFiles w))%nat then _ else _).
  set (stash := if bool_decide (0 < size (changedFiles w))%nat then _ else _).
  assert (fs_only stash) as Hstash by (subst stash; repeat fs_only_step).
  assert (fs_only pop) as Hpop by (subst pop; repeat fs_only_step).
  rewrite run_bind. destruct (Hstash w) as (r1 & fs1 & ->).
  destruct r1 as [[]|e]; [|done].
  rewrite run_bind.
  destruct (fs_only_restore_all h env (cl_shelvedFiles cl) (with_files (λ _, fs1) w))
    as (r2 & fs2 & ->).
  destruct r2 as [[]|e]; [|done].
  rewrite run_bind. destruct (gitAdd env _); [done|]. simpl.
  rewrite run_bind. destruct (gitCommit env _); [done|]. simpl.
  rewrite run_bind, mutate_run, run_bind.
  match goal with |- context [pop ?w0] => destruct (Hpop w0) as (r3 & fs3 & ->) end.
  destruct r3 as [[]|e].
  - rewrite run_bind, saveState_run, run_bind, refresh_run, fire_run.
    unfold after. simpl. rewrite state_refreshed. by apply Hclear.
  - by apply Hclear.
Qed.

Lemma deleteShelvedFile_steps env c p w :
  steps (state w) (state (after (deleteShelvedFile h env c p w))).
Proof.
  unfold deleteShelvedFile. rewrite run_bind. simpl.
  destruct (getChangelistRef c (state w)) as [[i cl]|] eqn:Hcl; [|done].
  pose proof Hcl as [Hi _]%getChangelistRef_lookup.
  set (m := match findShelved _ _ with Some sf => _ | None => _ end).
  assert (fs_only m) as Hm by (subst m; repeat fs_only_step).
  rewrite run_bind. destruct (Hm w) as (r & fs & ->).
  destruct r as [[]|e]; [|done].
  rewrite run_bind, mutate_run, run_bind, saveState_run, fire_run.
  unfold after. simpl. rewrite (alter_at_found _ _ _ _ Hi).
  apply rtc_once. by eapply ev_discard.
Qed.

(** One imported item: [createChangelist], then the array is attached to
    the object just pushed. *)
Lemma import_one_run id label l w :
  (createChangelist h id label ≫= λ changelist, mutate changelist (set_shelvedFiles l)) w
  = (Ok tt,
     with_state (λ st, set_changelists (changelists st ++ [new_changelist h id label l]) st)
       (with_event ChangelistsChanged
          (with_workspaceState
             (insert (stateKey h)
                (set_changelists (changelists (state w) ++ [new_changelist h id label []])
                   (state w))) w))).
Proof.
  rewrite run_bind, createChangelist_run, mutate_run.
  unfold with_state, with_event, with_workspaceState. simpl.
  rewrite alter_app_r_alt by done. rewrite Nat.sub_diag. done.
Qed.

Lemma importItems_steps env items k w :
  items_ok ok items →
  steps (state w) (state (after (importItems h env items k w))).
Proof.
  intros Hok. revert k w. induction Hok as [|item items Hitem _ IH]; intros k w; [done|].
  cbn [importItems].
  destruct (ex_shelvedFiles item) as [l|] eqn:Hl; [|apply IH].
  destruct (truthy (ex_label item)); [|apply IH].
  change (createChangelist h (generateId env k) (ex_label item) ≫= _)
    with ((createChangelist h (generateId env k) (ex_label item)
             ≫= λ changelist, mutate changelist (set_shelvedFiles l))
            ≫= λ _, importItems h env items (S k) ≫= λ imported, mret (S imported)).
  rewrite run_bind, import_one_run, run_bind.
  match goal with |- context [importItems h env items (S k) ?w0] =>
    specialize (IH (S k) w0); destruct (importItems h env items (S k) w0) as [[n|e] w1]
  end; unfold after in *; simpl in *;
    (etrans; [|exact IH]); apply rtc_once, ev_import; auto.
Qed.

Lemma importChangelists_steps env data w :
  import_ok ok (OpImport data) →
  steps (state w) (state (after (importChangelists h env data w))).
Proof.
  intros Hok. unfold importChangelists.
  destruct (exp_changelists data) as [items|] eqn:Hitems; [|done].
  rewrite run_bind. pose proof (importItems_steps env items 0 w (Hok items Hitems)) as Hs.
  destruct (importItems h env items 0 w) as [[n|e] w1]; [|done].
  by rewrite run_bind, saveState_run, run_bind, fire_run.
Qed.

Lemma exec_steps env op w :
  import_ok ok op →
  steps (state w) (state (after (exec h env op w))).
Proof.
  intros Hok. destruct op; cbn [exec].
  - rewrite run_bind, createChangelist_run. apply rtc_once, ev_create.
  - apply renameChangelist_steps.
  - apply deleteChangelist_steps.
  - apply setActiveChangelist_steps.
  - apply shelveFile_steps.
  - apply shelveFiles_steps.
  - by rewrite state_kept_unshelveFile.
  - by rewrite state_kept_applyAndStage.
  - by rewrite state_kept_applyAllAndStage.
  - by rewrite state_kept_unshelveAll.
  - by rewrite state_kept_commitWorkingChanges.
  - apply commitChangelist_steps.
  - by rewrite state_kept_revertFile.
  - apply deleteShelvedFile_steps.
  - rewrite run_bind. pose proof (importChangelists_steps env data w Hok) as Hs.
    by destruct (importChangelists h env data w) as [[n|e] w1].
  - by rewrite state_kept_refresh.
Qed.
End evolution.

(** The constructor on a store that holds nothing for the repository. *)
Lemma ensureSnapshotsDir_off h env w :
  saveSnapshotsToFile env = false → ensureSnapshotsDir h env w = (Ok tt, w).
Proof. intros Hoff. unfold ensureSnapshotsDir. by rewrite Hoff. Qed.

Lemma fs_only_ensureSnapshotsDir h env : fs_only (ensureSnapshotsDir h env).
Proof.
  unfold ensureSnapshotsDir. destruct (saveSnapshotsToFile env); [|apply fs_only_ret].
  cbn [negb]. intros w. rewrite run_bind. cbn [get fst snd].
  destruct (_ || _).
  - exists (Ok tt), (files w). by rewrite world_eta.
  - rewrite run_bind. unfold mkdirSync. destruct (mkdir env _) as [code|].
    + exists (Throw (FsError code)), (files w). by rewrite world_eta.
    + by eexists _, _.
Qed.

Lemma loadState_fresh h env w :
  workspaceState w !! stateKey h = None → workspaceState w !! LEGACY_STATE_KEY = None →
  loadState h env w
  = (Ok (defaultState h (generateId env 0)),
     with_workspaceState (insert (stateKey h) (defaultState h (generateId env 0))) w).
Proof.
  intros Hkey Hlegacy. unfold loadState. rewrite run_bind. cbn [get fst snd].
  rewrite Hkey. unfold tryMigrateLegacyState. rewrite Hlegacy. done.
Qed.

(** The constructor on a store that holds nothing for the repository. *)
Lemma construct_fresh h env ws fs :
  ws !! stateKey h = None → ws !! LEGACY_STATE_KEY = None →
  ∃ r fs',
    construct h env (blank ws fs)
    = (r,
       {| state := defaultState h (generateId env 0);
          changedFiles := ∅;
          workspaceState := <[stateKey h := defaultState h (generateId env 0)]> ws;
          files := fs';
          events := [] |})
    ∧ (saveSnapshotsToFile env = false → r = Ok tt ∧ fs' = fs).
Proof.
  intros Hkey Hlegacy. unfold construct.
  rewrite run_bind, loadState_fresh by done. rewrite run_bind. cbn [modify].
  match goal with |- context [ensureSnapshotsDir h env ?w0] =>
    destruct (fs_only_ensureSnapshotsDir h env w0) as (r & fs' & Hrun);
    pose proof (ensureSnapshotsDir_off h env w0) as Hoff; rewrite Hrun in *
  end.
  exists r, fs'. split; [done|]. intros Hmirror. specialize (Hoff Hmirror).
  injection Hoff as -> Hfs. done.
Qed.

(** ** Registry invariants *)

Section counting.
Context {A : Type} (P : A → Prop) `{!∀ x, Decision (P x)}.

Lemma count_insert_same (l : list A) i x y :
  l !! i = Some x → (P y ↔ P x) →
  length (filter P (<[i := y]> l)) = length (filter P l).
Proof.
  revert i. induction l as [|a l IH]; intros [|i] Hi Hxy; simpl in Hi; try done.
  - injection Hi as ->. simpl. rewrite !filter_cons.
    destruct (decide (P y)), (decide (P x)); try done; exfalso; tauto.
  - simpl. rewrite !filter_cons.
    change (list_insert i y l) with (<[i := y]> l).
    destruct (decide (P a)); simpl; erewrite IH; eauto.
Qed.

Lemma count_alter_le (f : A → A) (l : list A) i :
  length (filter P (alter f i l)) ≤ S (length (filter P l)).
Proof.
  revert i. induction l as [|a l IH]; intros [|i]; simpl;
    [rewrite ?filter_nil; simpl; lia..| |].
  - rewrite !filter_cons. destruct (decide (P (f a))), (decide (P a)); simpl; lia.
  - rewrite !filter_cons. specialize (IH i).
    change (alter f i l) with (list_alter f i l) in IH.
    destruct (decide (P a)); simpl; lia.
Qed.

Lemma count_fmap_none (f : A → A) (l : list A) :
  (∀ x, ¬ P (f x)) → filter P (f <$> l) = [].
Proof.
  intros Hf. induction l as [|a l IH]; [done|]. csimpl.
  rewrite filter_cons_False by apply Hf. done.
Qed.

Lemma count_filter_removed (Q : A → Prop) `{!∀ x, Decision (Q x)} (l : list A) x :
  x ∈ l → P x → ¬ Q x →
  length (filter P (filter Q l)) < length (filter P l).
Proof.
  intros Hx HP HQ.
  assert (filter P (filter Q l) = filter Q (filter P l)) as ->.
  { rewrite !list_filter_filter. apply list_filter_iff. intros ?; tauto. }
  apply (length_filter_lt _ _ x); [|done]. by apply list_elem_of_filter.
Qed.

Lemma count_filter_le (Q : A → Prop) `{!∀ x, Decision (Q x)} (l : list A) :
  length (filter P (filter Q l)) ≤ length (filter P l).
Proof.
  assert (filter P (filter Q l) = filter Q (filter P l)) as ->.
  { rewrite !list_filter_filter. apply list_filter_iff. intros ?; tauto. }
  apply length_filter.
Qed.
End counting.

Lemma default_first_insert st i cl cl' :
  changelists st !! i = Some cl → cl_isDefault cl' = cl_isDefault cl →
  default_first st → default_first (assigned i cl' st).
Proof.
  unfold default_first, assigned. simpl.
  destruct (changelists st) as [|d rest]; [done|].
  intros Hi Hsame [Hd Hrest]. destruct i as [|i]; simplify_eq/=.
  - split; [congruence|done].
  - split; [done|]. apply Forall_insert; [done|].
    rewrite Hsame. exact (Forall_lookup_1 _ _ _ _ Hrest Hi).
Qed.

Lemma default_first_alter st i f :
  (∀ cl, cl_isDefault (f cl) = cl_isDefault cl) →
  default_first st → default_first (set_changelists (alter f i (changelists st)) st).
Proof.
  unfold default_first. simpl.
  destruct (changelists st) as [|d rest]; [done|].
  intros Hf [Hd Hrest]. destruct i as [|i]; simpl.
  - split; [by rewrite Hf|done].
  - split; [done|]. apply Forall_alter; [done|]. intros x _ Hx. by rewrite Hf.
Qed.

Lemma default_first_push st cl :
  cl_isDefault cl = false →
  default_first st → default_first (set_changelists (changelists st ++ [cl]) st).
Proof.
  unfold default_first. simpl.
  destruct (changelists st) as [|d rest]; [done|].
  intros Hcl [Hd Hrest]. simpl. split; [done|].
  apply Forall_app. split; [done|]. by constructor.
Qed.

(** In a registry whose first record is the default one, a changelist that
    resolves to a non-default record has another id than the default. *)
Lemma default_first_filter st id cl :
  getChangelist id st = Some cl → cl_isDefault cl = false →
  default_first st →
  ∃ d rest, changelists st = d :: rest ∧ cl_isDefault d = true
    ∧ Forall (λ c, cl_isDefault c = false) rest
    ∧ filter (λ c, cl_id c ≠ id) (changelists st)
      = d :: filter (λ c, cl_id c ≠ id) rest.
Proof.
  unfold default_first.
  intros [i Hcl]%getChangelist_Some Hnd.
  destruct (changelists st) as [|d rest] eqn:Hl; [done|]. intros [Hd Hrest].
  exists d, rest. split_and!; [done..|].
  rewrite filter_cons_True; [done|].
  intros Hid. unfold getChangelistRef in Hcl. rewrite Hl in Hcl. simpl in Hcl.
  rewrite decide_True in Hcl by done. simplify_eq/=. congruence.
Qed.

Lemma default_first_found st :
  default_first st →
  ∃ d, getDefaultChangelistRef st = Some (0, d) ∧ changelists st !! 0 = Some d
       ∧ cl_isDefault d = true.
Proof.
  unfold default_first, getDefaultChangelistRef.
  destruct (changelists st) as [|d rest]; [done|]. intros [Hd _].
  exists d. simpl. by rewrite decide_True.
Qed.

Lemma default_first_dropped st id cl :
  getChangelist id st = Some cl → cl_isDefault cl = false →
  default_first st → default_first (dropped id cl st).
Proof.
  intros Hcl Hnd Hdf.
  destruct (default_first_filter _ _ _ Hcl Hnd Hdf) as (d & rest & Hl & Hd & Hrest & Hfilter).
  assert (default_first (set_changelists (filter (λ c, cl_id c ≠ id) (changelists st)) st))
    as Hdf1.
  { unfold default_first. simpl. rewrite Hfilter. split; [done|].
    apply Forall_forall. intros c [_ Hc]%list_elem_of_filter.
    by eapply Forall_forall in Hrest. }
  unfold dropped. simpl. destruct (cl_isActive cl); [|done].
  destruct (getDefaultChangelistRef _) as [[j dd]|]; [|done].
  apply (default_first_alter (set_changelists _ _) j (set_isActive true)) in Hdf1; done.
Qed.

Lemma evolves_default_first h ok st st' :
  evolves h ok st st' → default_first st → default_first st'.
Proof.
  intros Hev Hdf. destruct Hev as
    [id label|id label l Hl|id i cl v Hcl|id i cl Hcl|id cl Hcl Hnd
    |id i cl sf Hcl Hnd Hsf|id i cl Hcl Hnd|id i cl p Hcl];
    try (apply getChangelistRef_lookup in Hcl as [Hi _]).
  - by apply default_first_push.
  - by apply default_first_push.
  - by eapply default_first_insert.
  - unfold activated.
    apply (default_first_alter
             (set_changelists (set_isActive false <$> changelists st) st) i (set_isActive true));
      [done|].
    unfold default_first in *. simpl.
    destruct (changelists st) as [|d rest]; [done|]. destruct Hdf as [Hd Hrest].
    csimpl. split; [done|]. by apply Forall_fmap.
  - by apply default_first_dropped.
  - by eapply default_first_insert.
  - by eapply default_first_insert.
  - by eapply default_first_insert.
Qed.

Lemma count_active_dropped st id cl :
  getChangelist id st = Some cl →
  count_active st ≤ 1 → count_active (dropped id cl st) ≤ 1.
Proof.
  intros [i Hcl]%getChangelist_Some Hle. unfold count_active, dropped in *.
  pose proof (count_filter_le (λ c, cl_isActive c = true) (λ c, cl_id c ≠ id)
                (changelists st)) as Hfl.
  destruct (cl_isActive cl) eqn:Hact; simpl; [|lia].
  apply getChangelistRef_lookup in Hcl as [Hi Hid].
  pose proof (count_filter_removed (λ c, cl_isActive c = true) (λ c, cl_id c ≠ id)
                (changelists st) cl) as Hlt.
  destruct (getDefaultChangelistRef _) as [[j d]|]; simpl; [|lia].
  etrans; [apply count_alter_le|].
  assert (cl ∈ changelists st) by (by eapply list_elem_of_lookup_2).
  specialize (Hlt ltac:(done) Hact ltac:(naive_solver)). lia.
Qed.

Lemma evolves_count_active h ok st st' :
  evolves h ok st st' → count_active st ≤ 1 → count_active st' ≤ 1.
Proof.
  intros Hev Hle. destruct Hev as
    [id label|id label l Hl|id i cl v Hcl|id i cl Hcl|id cl Hcl Hnd
    |id i cl sf Hcl Hnd Hsf|id i cl Hcl Hnd|id i cl p Hcl];
    try (pose proof Hcl as [Hi _]%getChangelistRef_lookup);
    unfold count_active in *; simpl.
  - rewrite filter_app, length_app. simpl. lia.
  - rewrite filter_app, length_app. simpl. lia.
  - by erewrite count_insert_same.
  - etrans; [apply count_alter_le|].
    rewrite (count_fmap_none _ (set_isActive false)); [simpl; lia|done].
  - by apply count_active_dropped.
  - by erewrite count_insert_same.
  - by erewrite count_insert_same.
  - by erewrite count_insert_same.
Qed.

Lemma evolves_registry_inv h ok st st' :
  rtc (evolves h ok) st st' → registry_inv st → registry_inv st'.
Proof.
  induction 1 as [|st st1 st' Hev _ IH]; [done|]. intros [Hdf Hle]. apply IH.
  split; [by eapply evolves_default_first | by eapply evolves_count_active].
Qed.

Lemma registry_inv_fresh h id : registry_inv (defaultState h id).
Proof. split; [by split | by vm_compute]. Qed.

Lemma reachable_registry_inv h w : reachable h w → registry_inv (state w).
Proof.
  induction 1 as [env ws fs Hkey Hlegacy|env op w _ IH|fs w _ IH].
  - destruct (construct_fresh h env ws fs Hkey Hlegacy) as (r & fs' & -> & _).
    apply registry_inv_fresh.
  - eapply evolves_registry_inv; [|exact IH].
    apply (exec_steps h (λ _, True)). destruct op; simpl; try done.
    intros items _. apply Forall_forall. done.
  - done.
Qed.

(** ** [deleteChangelist] on a registry that satisfies its invariants *)

Lemma default_first_after_filter st id cl :
  getChangelist id st = Some cl → cl_isDefault cl = false → default_first st →
  ∃ d, getDefaultChangelistRef
         (set_changelists (filter (λ c, cl_id c ≠ id) (changelists st)) st) = Some (0, d)
       ∧ getDefaultChangelistRef st = Some (0, d)
       ∧ cl_isDefault d = true ∧ cl_id d ≠ id.
Proof.
  intros Hcl Hnd Hdf.
  destruct (default_first_filter _ _ _ Hcl Hnd Hdf) as (d & rest & Hl & Hd & Hrest & Hfilter).
  exists d. unfold getDefaultChangelistRef. simpl. rewrite Hfilter, Hl. simpl.
  destruct (decide (cl_isDefault d = true)); [|done]. split_and!; [done..|].
  intros Hid. rewrite Hl in Hfilter. rewrite filter_cons in Hfilter.
  destruct (decide (cl_id d ≠ id)); [done|].
  assert (length (filter (λ c, cl_id c ≠ id) rest) ≤ length rest) by apply length_filter.
  apply (f_equal length) in Hfilter. simpl in Hfilter. lia.
Qed.

(** Either every snapshot was restored and the record is dropped, or a
    restore threw and the state is as before: the record goes last. *)
Lemma deleteChangelist_cases h env id w cl :
  default_first (state w) →
  getChangelist id (state w) = Some cl → cl_isDefault cl = false →
  (∃ fs,
     forEach (unshelveFileInternal h env) (cl_shelvedFiles cl) w
       = (Ok tt, with_files (λ _, fs) w)
     ∧ deleteChangelist h env id w
       = (Ok tt,
          with_event ChangelistsChanged
            (refreshed h env
               (with_workspaceState (insert (stateKey h) (dropped id cl (state w)))
                  (with_state (λ _, dropped id cl (state w)) (with_files (λ _, fs) w))))))
  ∨ (∃ e fs,
       forEach (unshelveFileInternal h env) (cl_shelvedFiles cl) w
         = (Throw e, with_files (λ _, fs) w)
       ∧ deleteChangelist h env id w = (Throw e, with_files (λ _, fs) w)).
Proof.
  intros Hdf Hcl Hnd. rewrite (deleteChangelist_run _ _ _ _ _ Hcl Hnd).
  destruct (fs_only_restore_all h env (cl_shelvedFiles cl) w) as (r & fs & Hr).
  rewrite Hr. destruct r as [[]|e]; [left|right; eauto].
  exists fs. split; [done|]. cbn zeta.
  destruct (default_first_after_filter _ _ _ Hcl Hnd Hdf) as (d & Hd1 & _).
  cbn [with_state with_files state]. rewrite Hd1.
  rewrite bool_decide_eq_false_2 by done. by rewrite andb_false_r.
Qed.



(** ** One snapshot per path *)






(** ** Restoring what a shelve captured *)




(** ** Snapshots visible in the working tree *)







(** ** Shelving and the working tree *)

Lemma mirrored_lookup_ne h env sf cl fs q :
  q ≠ getSnapshotFilePath h sf cl → mirrored h env sf cl fs !! q = fs !! q.
Proof.
  intros Hq. unfold mirrored. destruct (sf_originalContent sf); [|done].
  destruct (_ && _); [|done]. by rewrite lookup_insert_ne.
Qed.

Lemma mirrored_off h env sf cl fs :
  saveSnapshotsToFile env = false → mirrored h env sf cl fs = fs.
Proof. intros Hoff. unfold mirrored. rewrite Hoff. by destruct (sf_originalContent sf). Qed.

(** What [shelveFile] does to the file system, for a changed file and a
    non-default changelist: it returns, or it could not read the path and
    has changed nothing; its only write is the mirror copy, at the path
    [getSnapshotFilePath] gives, wherever that is. *)
Lemma shelveFile_frame h env p c w file cl :
  changedFiles w !! normalizePath p = Some file →
  getChangelist c (state w) = Some cl →
  cl_isDefault cl = false →
  let r := shelveFile h env p c w in
  let sf := captured h env file (normalizePath p) (files w) in
  (if decide (readable h env file (normalizePath p) (files w))
   then outcome r = Ok tt
   else r = (Throw (FsError "EISDIR"), w))
  ∧ (∀ q, q ≠ getSnapshotFilePath h sf cl → files (after r) !! q = files w !! q)
  ∧ (saveSnapshotsToFile env = false → files (after r) = files w)
  ∧ changedFiles (after r) = changedFiles w.
Proof.
  intros Hfile [i Hcl]%getChangelist_Some Hdef r sf. subst r.
  rewrite (shelveFile_run _ _ _ _ _ _ _ _ Hfile Hcl Hdef).
  destruct (decide (readable h env file (normalizePath p) (files w))); [|done].
  unfold outcome, after, shelved. cbn [fst snd files changedFiles].
  split_and!; [done| |apply mirrored_off|done].
  intros q Hq. by apply mirrored_lookup_ne.
Qed.

(** C1, where the code departs from it.  The mirror is on and the target
    changelist is labelled [..], a label that the sanitizer of
    [getSnapshotFilePath] leaves as it is.  The mirror copy of the top-level
    file [data.bin] then goes to [data.bin] itself: the byte FF that the
    file held is overwritten by the three bytes of U+FFFD.  The mirror copy
    of [docs/readme.md] goes to [readme.md], another file of the working
    tree, which is overwritten too. *)
Lemma shelveFile_overwrites_working_file :
  let w := demo_dotdot in
  let r1 := shelveFile demo_host mirror_env "data.bin" "cl-1" w in
  let r2 := shelveFile demo_host mirror_env "docs/readme.md" "cl-1" w in
  changedFiles w !! "data.bin" = Some (changed "data.bin" modified)
  ∧ changedFiles w !! "docs/readme.md" = Some (changed "docs/readme.md" modified)
  ∧ getChangelist "cl-1" (state w) = Some (new_changelist demo_host "cl-1" ".." [])
  ∧ getSnapshotFilePath demo_host (snapshot "data.bin" "") (new_changelist demo_host "cl-1" ".." [])
    = "/repo/data.bin"
  ∧ files w !! "/repo/data.bin" = Some byte_FF
  ∧ outcome r1 = Ok tt
  ∧ files (after r1) !! "/repo/data.bin" = Some REPLACEMENT
  ∧ files (after r1) !! "/repo/data.bin" ≠ files w !! "/repo/data.bin"
  ∧ files w !! "/repo/readme.md" = Some "top"
  ∧ outcome r2 = Ok tt
  ∧ files (after r2) !! "/repo/readme.md" = Some "new"
  ∧ files (after r2) !! "/repo/docs/readme.md" = Some "new".
Proof. vm_compute. split_and!; try reflexivity. discriminate. Qed.

(** ** Shelve, then unshelve *)

(** Text in the ASCII range is UTF-8 as it is. *)
Lemma utf8_decode_ascii s :
  Forall (λ b, (N_of_ascii b <= 127)%N) (list_ascii_of_string s) → decodeUtf8 s = s.
Proof.
  unfold decodeUtf8. induction s as [|b s IH]; intros Hs; [done|].
  apply Forall_cons in Hs as [Hb Hs]. cbn [utf8_decode]. unfold utf8_lead.
  apply N.leb_le in Hb. rewrite Hb. cbn [fst snd]. by rewrite IH.
Qed.




(** ** Re-shelving replaces the snapshot *)





(** ** Restoring twice *)





(** ** The default changelist *)

Lemma default_first_count st : default_first st → count_default st = 1.
Proof.
  unfold default_first, count_default.
  destruct (changelists st) as [|d rest]; [done|]. intros [Hd Hrest].
  rewrite filter_cons_True by done. simpl. f_equal.
  induction Hrest as [|c rest Hc _ IH]; [done|].
  rewrite filter_cons_False; [done|congruence].
Qed.

Lemma default_first_resolves st :
  default_first st →
  ∃ d, getDefaultChangelist st = Ok d ∧ cl_isDefault d = true
       ∧ getChangelistRef (cl_id d) st = Some (0, d).
Proof.
  intros Hdf. destruct (default_first_found _ Hdf) as (d & Hfind & H0 & Hd).
  exists d. unfold getDefaultChangelist. rewrite Hfind. split_and!; [done..|].
  unfold getChangelistRef. destruct (changelists st) as [|d' rest]; simplify_eq/=.
  by rewrite decide_True.
Qed.

Lemma deleteChangelist_default h env st_w d i :
  getChangelistRef (cl_id d) (state st_w) = Some (i, d) → cl_isDefault d = true →
  deleteChangelist h env (cl_id d) st_w = (Throw CannotDeleteDefault, st_w).
Proof.
  intros Hcl Hd. unfold deleteChangelist, getChangelist. rewrite run_bind. simpl.
  rewrite Hcl. simpl. by rewrite Hd.
Qed.

Lemma shelveFile_default h env p w d i :
  getChangelistRef (cl_id d) (state w) = Some (i, d) → cl_isDefault d = true →
  shelveFile h env p (cl_id d) w =
    match changedFiles w !! normalizePath p with
    | Some _ => (Throw CannotSaveToDefault, w)
    | None => (Throw (FileNotFoundInChanges p), w)
    end.
Proof.
  intros Hcl Hd. unfold shelveFile. rewrite run_bind. simpl.
  destruct (changedFiles w !! normalizePath p); [|done]. by rewrite Hcl, Hd.
Qed.

(** C5, as stated, fails in its last part: [shelveFile] looks the path up
    among the changed files before it looks at the target, so shelving a
    path that is not a changed file into the default changelist fails with
    'File not found in changes' (a NotFound), not with the InvalidOperation
    'Cannot save to default changelist'. *)
Lemma shelve_to_default_counterexample :
  reachable demo_host demo_fresh
  ∧ cl_isDefault <$> getChangelist "cl-0" (state demo_fresh) = Some true
  ∧ shelveFile demo_host (demo_env [] None) "notes.txt" "cl-0" demo_fresh
    = (Throw (FileNotFoundInChanges "notes.txt"), demo_fresh)
  ∧ kindOf (FileNotFoundInChanges "notes.txt") ≠ InvalidOperation.
Proof.
  split; [by apply reach_init|]. by vm_compute.
Qed.

(** C5, amended.  In every state reachable from the freshly initialised one
    by any sequence of calls, exactly one changelist is the default one.
    [deleteChangelist] on it fails with 'Cannot delete default changelist'
    (InvalidOperation).  [shelveFile] targeting it fails too: with 'Cannot
    save to default changelist' (InvalidOperation) when the path is a
    currently-changed file, with 'File not found in changes' (NotFound) when
    it is not.  Each failure leaves the whole world, the state included,
    unchanged. *)
Theorem default_changelist_unique_and_protected h w :
  reachable h w →
  count_default (state w) = 1
  ∧ ∃ d, getDefaultChangelist (state w) = Ok d
      ∧ cl_isDefault d = true
      ∧ getChangelist (cl_id d) (state w) = Some d
      ∧ (∀ env, deleteChangelist h env (cl_id d) w = (Throw CannotDeleteDefault, w))
      ∧ kindOf CannotDeleteDefault = InvalidOperation
      ∧ (∀ env p, is_Some (changedFiles w !! normalizePath p) →
           shelveFile h env p (cl_id d) w = (Throw CannotSaveToDefault, w))
      ∧ kindOf CannotSaveToDefault = InvalidOperation
      ∧ (∀ env p, changedFiles w !! normalizePath p = None →
           shelveFile h env p (cl_id d) w = (Throw (FileNotFoundInChanges p), w)
           ∧ kindOf (FileNotFoundInChanges p) = NotFound).
Proof.
  intros [Hdf _]%reachable_registry_inv.
  split; [by apply default_first_count|].
  destruct (default_first_resolves _ Hdf) as (d & Hget & Hd & Hcl).
  exists d. split_and!; [done|done| |..|done| |done|].
  - apply getChangelist_Some. eauto.
  - intros env. by eapply deleteChangelist_default.
  - intros env p [file Hfile]. by rewrite (shelveFile_default _ _ _ _ _ _ Hcl Hd), Hfile.
  - intros env p Hfile. by rewrite (shelveFile_default _ _ _ _ _ _ Hcl Hd), Hfile.
Qed.

Lemma default_changelist_unique_and_protected_witness :
  let env := demo_env [] None in
  reachable demo_host demo_created
  ∧ count_default (state demo_created) = 1
  ∧ deleteChangelist demo_host env "cl-0" demo_created
    = (Throw CannotDeleteDefault, demo_created)
  ∧ shelveFile demo_host env "config.json" "cl-0" demo_created
    = (Throw CannotSaveToDefault, demo_created).
Proof.
  assert (reachable demo_host demo_created) as Hreach.
  { apply reach_exec, reach_exec. by apply reach_init. }
  destruct (default_changelist_unique_and_protected demo_host demo_created Hreach)
    as (Hcount & d & Hget & _ & _ & Hdelete & _ & Hshelve & _).
  vm_compute in Hget. injection Hget as <-.
  cbn zeta. split_and!; [exact Hreach|exact Hcount| |].
  - exact (Hdelete (demo_env [] None)).
  - apply (Hshelve (demo_env [] None) "config.json"). by eexists.
Defined.

(** ** The active changelist *)

Lemma setActiveChangelist_run h id w i cl :
  getChangelistRef id (state w) = Some (i, cl) →
  setActiveChangelist h id w
  = (Ok tt,
     with_event ChangelistsChanged
       (with_workspaceState (insert (stateKey h) (activated id i (state w)))
          (with_state (λ _, activated id i (state w)) w))).
Proof.
  intros Hcl. unfold setActiveChangelist. rewrite run_bind. simpl. by rewrite Hcl.
Qed.

Lemma activated_flags id i st j c :
  changelists (activated id i st) !! j = Some c → cl_isActive c = bool_decide (j = i).
Proof.
  unfold activated. simpl. intros Hj.
  destruct (decide (j = i)) as [->|Hne].
  - rewrite bool_decide_eq_true_2 by done.
    rewrite list_lookup_alter_eq, list_lookup_fmap in Hj.
    destruct (changelists st !! i); by simplify_eq/=.
  - rewrite bool_decide_eq_false_2 by done.
    rewrite list_lookup_alter_ne, list_lookup_fmap in Hj by done.
    destruct (changelists st !! j); by simplify_eq/=.
Qed.



(** ** Deleting a changelist restores its snapshots first *)




(** ** Migration *)

Lemma js_or_idemp o d : js_or (Some (js_or o d)) d = js_or o d.
Proof.
  unfold js_or. destruct o as [s|].
  - destruct (truthy s) eqn:E; [by rewrite E|]. by destruct (truthy d).
  - by destruct (truthy d).
Qed.

Lemma upgradeState_sans h s : sans_repoPath (upgradeState h s) = sans_repoPath s.
Proof.
  unfold sans_repoPath, upgradeState. simpl. f_equal.
  rewrite <- list_fmap_compose. apply list_fmap_ext. intros _ cl _.
  unfold sans_repoPath_cl, set_cl_repoPath, set_shelvedFiles. simpl. f_equal.
  rewrite <- list_fmap_compose. by apply list_fmap_ext.
Qed.

Lemma upgradeState_repoPaths h s :
  repoPaths (upgradeState h s)
  = defaulted (repository_path h) <$> repoPaths s.
Proof.
  unfold repoPaths, upgradeState. simpl.
  rewrite <- !list_fmap_compose. apply list_fmap_ext. intros _ cl _.
  unfold defaulted. simpl. f_equal.
  rewrite <- !list_fmap_compose. by apply list_fmap_ext.
Qed.

Lemma upgradeState_idemp h s : upgradeState h (upgradeState h s) = upgradeState h s.
Proof.
  unfold upgradeState.
  cbn [changelists activeChangelistId]. f_equal.
  rewrite <- list_fmap_compose. apply list_fmap_ext. intros _ cl _.
  unfold compose, set_cl_repoPath, set_shelvedFiles.
  cbn [cl_id cl_label cl_shelvedFiles cl_isDefault cl_isActive cl_repoPath].
  rewrite js_or_idemp. f_equal.
  rewrite <- list_fmap_compose. apply list_fmap_ext. intros _ sf _.
  unfold compose, set_sf_repoPath.
  cbn [sf_relativePath sf_status sf_patch sf_originalContent sf_headContent sf_shelvedAt
       sf_originalPath sf_repoPath].
  by rewrite js_or_idemp.
Qed.

(** C8, as stated, fails: [loadState] looks for a record under the legacy
    key before it upgrades an older record of the repository.  For the
    repository at the workspace root, with both in the store, loading the
    older record [demo_v3] gives the legacy record's changelists, and the
    record of the repository is overwritten: the label "Feature A" and the
    snapshot of [config.json] are gone. *)
Lemma load_older_record_counterexample :
  let w := demo_both_store in
  let r := loadState demo_host (demo_env [] None) w in
  workspaceState w !! stateKey demo_host = Some demo_v3
  ∧ (version demo_v3 < STATE_VERSION)%Z
  ∧ cl_label <$> changelists demo_v3 = ["Default Changelist"; "Feature A"]
  ∧ ∃ s, outcome r = Ok s
       ∧ workspaceState (after r) !! stateKey demo_host = Some s
       ∧ cl_label <$> changelists s = ["Default Changelist"; "Old shelf"]
       ∧ (λ cl, sf_relativePath <$> cl_shelvedFiles cl) <$> changelists s = [[]; ["b.txt"]]
       ∧ sans_repoPath s ≠ sans_repoPath demo_v3.
Proof.
  cbn zeta. split_and!; [reflexivity..|].
  eexists. split_and!; [reflexivity..|]. discriminate.
Qed.

(** C8, amended.  Upgrading a record changes nothing but the version and the
    repository paths: with those set aside the upgraded record is the old
    one, so every id, label, flag, and every snapshot's path, status, patch,
    content, reference content, time and original path is as it was; a
    repository path that is present (and not empty) is kept, one that is
    missing is taken from the repository at hand.  Upgrading twice is
    upgrading once.  Loading a record that is already at the current
    version returns it and writes nothing.  Loading a same-repository
    record at an older version, when no legacy record is migrated in its
    place, returns the upgraded record and saves it; loading again returns
    the same record and leaves the store as it is. *)
Theorem migration_preserves_and_is_idempotent h :
  (∀ s, sans_repoPath (upgradeState h s) = sans_repoPath s
        ∧ cl_label <$> changelists (upgradeState h s) = cl_label <$> changelists s
        ∧ (λ cl, sf_originalContent <$> cl_shelvedFiles cl) <$> changelists (upgradeState h s)
          = (λ cl, sf_originalContent <$> cl_shelvedFiles cl) <$> changelists s
        ∧ version (upgradeState h s) = STATE_VERSION
        ∧ repoPaths (upgradeState h s)
          = defaulted (repository_path h) <$> repoPaths s)
  ∧ (∀ p d, truthy p = true → js_or (Some p) d = p)
  ∧ (∀ d, js_or None d = d)
  ∧ (∀ s, upgradeState h (upgradeState h s) = upgradeState h s)
  ∧ (∀ env w s,
       workspaceState w !! stateKey h = Some s → version s = STATE_VERSION →
       loadState h env w = (Ok s, w))
  ∧ (∀ env env' w s,
       workspaceState w !! stateKey h = Some s → (version s < STATE_VERSION)%Z →
       tryMigrateLegacyState h w = None →
       loadState h env w
       = (Ok (upgradeState h s),
          with_workspaceState (insert (stateKey h) (upgradeState h s)) w)
       ∧ loadState h env' (after (loadState h env w))
         = (Ok (upgradeState h s), after (loadState h env w))).
Proof.
  split_and!.
  - intros s. split_and!.
    + apply upgradeState_sans.
    + unfold upgradeState. simpl. rewrite <- list_fmap_compose. by apply list_fmap_ext.
    + unfold upgradeState. simpl. rewrite <- list_fmap_compose.
      apply list_fmap_ext. intros _ cl _. simpl.
      rewrite <- list_fmap_compose. by apply list_fmap_ext.
    + done.
    + apply upgradeState_repoPaths.
  - intros p d Hp. unfold js_or. by rewrite Hp.
  - done.
  - apply upgradeState_idemp.
  - intros env w s Hs Hv. unfold loadState. rewrite run_bind. simpl.
    rewrite Hs. by rewrite bool_decide_eq_true_2.
  - intros env env' w s Hs Hv Hlegacy.
    assert (loadState h env w
            = (Ok (upgradeState h s),
               with_workspaceState (insert (stateKey h) (upgradeState h s)) w)) as ->.
    { unfold loadState. rewrite run_bind. simpl. rewrite Hs.
      rewrite bool_decide_eq_false_2 by (unfold STATE_VERSION in *; lia).
      rewrite Hlegacy. by rewrite bool_decide_eq_true_2. }
    split; [done|]. unfold after. cbn [snd].
    unfold loadState. rewrite run_bind. simpl.
    rewrite lookup_insert_eq. by rewrite bool_decide_eq_true_2.
Qed.

Lemma migration_preserves_and_is_idempotent_witness :
  let r := loadState demo_host (demo_env ["cl-5"] None) demo_v3_store in
  (version demo_v3 < STATE_VERSION)%Z
  ∧ outcome r = Ok (upgradeState demo_host demo_v3)
  ∧ sans_repoPath (upgradeState demo_host demo_v3) = sans_repoPath demo_v3
  ∧ loadState demo_host (demo_env ["cl-6"] None) (after r)
    = (Ok (upgradeState demo_host demo_v3), after r).
Proof.
  destruct (migration_preserves_and_is_idempotent demo_host)
    as (Hkeep & _ & _ & _ & _ & Hload).
  destruct (Hload (demo_env ["cl-5"] None) (demo_env ["cl-6"] None) demo_v3_store demo_v3)
    as [Hfirst Hagain]; [reflexivity|reflexivity|reflexivity|].
  cbn zeta. split_and!.
  - reflexivity.
  - by rewrite Hfirst.
  - apply Hkeep.
  - exact Hagain.
Defined.

(** ** A failed commit of a changelist *)

(** [commitChangelist] on a non-default, non-empty changelist, step by
    step. *)
Lemma commitChangelist_run h env c msg w i cl :
  getChangelistRef c (state w) = Some (i, cl) →
  cl_isDefault cl = false →
  cl_shelvedFiles cl ≠ [] →
  let hasWorkingChanges := bool_decide (0 < size (changedFiles w)) in
  commitChangelist h env c msg w =
    match (if hasWorkingChanges then gitRun (gitStashPush env) else mret tt) w with
    | (Throw e, w1) => (Throw e, w1)
    | (Ok _, w1) =>
      match forEach (unshelveFileInternal h env) (cl_shelvedFiles cl) w1 with
      | (Throw e, w2) => (Throw e, w2)
      | (Ok _, w2) =>
        match gitAdd env (sf_relativePath <$> cl_shelvedFiles cl) with
        | Some m => (Throw (GitError m), w2)
        | None =>
          match gitCommit env msg with
          | Some m => (Throw (GitError m), w2)
          | None =>
            let w3 := with_state (λ st,
                        set_changelists (alter (set_shelvedFiles []) i (changelists st)) st)
                        w2 in
            match (if hasWorkingChanges then gitRun (gitStashPop env) else mret tt) w3 with
            | (Throw e, w4) => (Throw e, w4)
            | (Ok _, w4) =>
              (Ok tt,
               with_event ChangelistsChanged
                 (refreshed h env (with_workspaceState (insert (stateKey h) (state w4)) w4)))
            end
          end
        end
      end
    end.
Proof.
  intros Hcl Hnd Hne hasWorkingChanges. unfold commitChangelist.
  rewrite run_bind. simpl. rewrite Hcl, Hnd.
  rewrite bool_decide_eq_false_2 by (by destruct (cl_shelvedFiles cl)).
  fold hasWorkingChanges. rewrite run_bind.
  destruct ((if hasWorkingChanges then gitRun (gitStashPush env) else mret ()) w)
    as [[[]|e] w1]; [|done].
  rewrite run_bind.
  destruct (forEach (unshelveFileInternal h env) (cl_shelvedFiles cl) w1)
    as [[[]|e] w2]; [|done].
  rewrite run_bind. destruct (gitAdd env _) as [m|]; [done|]. simpl.
  rewrite run_bind. destruct (gitCommit env msg) as [m|]; [done|]. simpl.
  rewrite run_bind, mutate_run, run_bind.
  destruct ((if hasWorkingChanges then gitRun (gitStashPop env) else mret ()) _)
    as [[[]|e] w4]; [|done].
  by rewrite run_bind, saveState_run, run_bind, refresh_run, fire_run.
Qed.

(** C9, as stated, fails: the service has no error of its own for a
    stranded stash.  A rejected [git stash pop] after a pushed stash and a
    rejected [git commit] with nothing stashed surface the very same error,
    so nothing the caller computes from the error can tell them apart. *)
Lemma stranded_stash_counterexample :
  stash_stranded demo_host (commit_env None (Some "could not write index"))
    "cl-1" "message" demo_shelved (GitError "could not write index")
  ∧ ordinary_failure demo_host (commit_env (Some "could not write index") None)
      "cl-1" "message" demo_shelved_clean (GitError "could not write index")
  ∧ ¬ caller_can_tell demo_host.
Proof.
  assert (stash_stranded demo_host (commit_env None (Some "could not write index"))
            "cl-1" "message" demo_shelved (GitError "could not write index")) as Hs.
  { split_and!.
    - eexists. split_and!; [reflexivity|reflexivity|discriminate].
    - vm_compute. lia.
    - by eexists.
    - reflexivity. }
  assert (ordinary_failure demo_host (commit_env (Some "could not write index") None)
            "cl-1" "message" demo_shelved_clean (GitError "could not write index")) as Ho.
  { split_and!; reflexivity. }
  split_and!; [done|done|].
  intros (unrecoverable & Hyes & Hno).
  specialize (Hyes _ _ _ _ _ Hs). specialize (Hno _ _ _ _ _ Ho). congruence.
Qed.

(** C9, amended.  When [commitChangelist] on a non-default, non-empty
    changelist has pushed a stash and a later step fails, the error
    surfaced to the caller is the failing step's own error, rethrown as it
    is: the error of the restore that threw, or the rejection of [git add],
    [git commit] or [git stash pop], each of the latter an IOFailure like
    any other git failure.  In particular a rejected [git stash pop]
    surfaces as that rejection; by then the commit is made and the
    changelist's snapshots are cleared in memory.  In every such failure
    nothing is persisted and no notification is fired.  The error does not
    tell that a stash is stranded: a [git commit] rejected with the same
    message in a run that pushed no stash surfaces the same error. *)
Theorem commitChangelist_failure_after_stash h env c msg w i cl fs1 :
  getChangelistRef c (state w) = Some (i, cl) →
  cl_isDefault cl = false →
  cl_shelvedFiles cl ≠ [] →
  0 < size (changedFiles w) →
  gitStashPush env (files w) = inr fs1 →
  let r := commitChangelist h env c msg w in
  let restore :=
    forEach (unshelveFileInternal h env) (cl_shelvedFiles cl) (with_files (λ _, fs1) w) in
  let paths := sf_relativePath <$> cl_shelvedFiles cl in
  (∀ e, outcome r = Throw e →
     (outcome restore = Throw e
      ∨ (∃ m, e = GitError m ∧ kindOf e = IOFailure
              ∧ (gitAdd env paths = Some m ∨ gitCommit env msg = Some m
                 ∨ gitStashPop env (files (after restore)) = inl m)))
     ∧ workspaceState (after r) = workspaceState w
     ∧ events (after r) = events w)
  ∧ (∀ m, outcome restore = Ok tt → gitAdd env paths = None → gitCommit env msg = None →
       gitStashPop env (files (after restore)) = inl m →
       outcome r = Throw (GitError m)
       ∧ state (after r) = assigned i (set_shelvedFiles [] cl) (state w)
       ∧ files (after r) = files (after restore)
       ∧ ∀ env' c' msg' w' i' cl',
           getChangelistRef c' (state w') = Some (i', cl') →
           cl_isDefault cl' = false →
           cl_shelvedFiles cl' ≠ [] →
           size (changedFiles w') = 0 →
           outcome (forEach (unshelveFileInternal h env') (cl_shelvedFiles cl') w') = Ok tt →
           gitAdd env' (sf_relativePath <$> cl_shelvedFiles cl') = None →
           gitCommit env' msg' = Some m →
           outcome (commitChangelist h env' c' msg' w') = outcome r).
Proof.
  intros Hcl Hnd Hne Hchanges Hpush r restore paths.
  assert (∀ m env' c' msg' w' i' cl',
            getChangelistRef c' (state w') = Some (i', cl') →
            cl_isDefault cl' = false →
            cl_shelvedFiles cl' ≠ [] →
            size (changedFiles w') = 0 →
            outcome (forEach (unshelveFileInternal h env') (cl_shelvedFiles cl') w') = Ok tt →
            gitAdd env' (sf_relativePath <$> cl_shelvedFiles cl') = None →
            gitCommit env' msg' = Some m →
            outcome (commitChangelist h env' c' msg' w') = Throw (GitError m)) as Hplain.
  { intros m env' c' msg' w' i' cl' Hcl' Hnd' Hne' Hclean Hrestore' Hadd' Hcommit'.
    rewrite (commitChangelist_run _ _ _ _ _ _ _ Hcl' Hnd' Hne'). cbn zeta.
    rewrite bool_decide_eq_false_2 by lia. cbn [mret M_ret].
    destruct (forEach (unshelveFileInternal h env') (cl_shelvedFiles cl') w')
      as [[[]|e] w2]; [|done].
    by rewrite Hadd', Hcommit'. }
  assert (r = match restore with
              | (Throw e, w2) => (Throw e, w2)
              | (Ok _, w2) =>
                match gitAdd env paths with
                | Some m => (Throw (GitError m), w2)
                | None =>
                  match gitCommit env msg with
                  | Some m => (Throw (GitError m), w2)
                  | None =>
                    let w3 := with_state (λ st,
                                set_changelists
                                  (alter (set_shelvedFiles []) i (changelists st)) st) w2 in
                    match gitRun (gitStashPop env) w3 with
                    | (Throw e, w4) => (Throw e, w4)
                    | (Ok _, w4) =>
                      (Ok tt,
                       with_event ChangelistsChanged
                         (refreshed h env
                            (with_workspaceState (insert (stateKey h) (state w4)) w4)))
                    end
                  end
                end
              end) as ->.
  { subst r. rewrite (commitChangelist_run _ _ _ _ _ _ _ Hcl Hnd Hne). cbn zeta.
    rewrite bool_decide_eq_true_2 by done.
    unfold gitRun at 1. by rewrite Hpush. }
  pose proof Hcl as [Hi _]%getChangelistRef_lookup.
  destruct (fs_only_restore_all h env (cl_shelvedFiles cl) (with_files (λ _, fs1) w))
    as (res & fs2 & Hres).
  fold restore in Hres. rewrite Hres. unfold outcome, after. cbn [fst snd].
  destruct res as [[]|e0].
  - destruct (gitAdd env paths) as [ma|] eqn:Hadd.
    { split; [|done]. intros e [= <-]. split_and!; [|done..]. right. eauto 10. }
    destruct (gitCommit env msg) as [mc|] eqn:Hcommit.
    { split; [|done]. intros e [= <-]. split_and!; [|done..]. right. eauto 10. }
    cbn zeta. unfold gitRun. cbn [with_state with_files files].
    destruct (gitStashPop env fs2) as [mp|fs3] eqn:Hpop.
    + split.
      * intros e [= <-]. split_and!; [|done..]. right. eauto 10.
      * intros m _ _ _ [= <-]. split_and!; [done| |done|].
        -- cbn [snd with_state with_files state changelists].
           by rewrite (alter_at_found _ _ _ _ Hi).
        -- intros. by eapply Hplain.
    + split; [done|]. intros m _ _ _ ?. done.
  - split; [|done]. intros e [= <-]. split_and!; [by left|done..].
Qed.

Lemma commitChangelist_failure_after_stash_witness :
  let env := commit_env None (Some "could not write index") in
  let r := commitChangelist demo_host env "cl-1" "message" demo_shelved in
  outcome r = Throw (GitError "could not write index")
  ∧ (cl_shelvedFiles <$> getChangelist "cl-1" (state (after r))) = Some []
  ∧ workspaceState (after r) = workspaceState demo_shelved.
Proof.
  pose proof (commitChangelist_failure_after_stash demo_host
                (commit_env None (Some "could not write index")) "cl-1" "message"
                demo_shelved 1
                (default (new_changelist demo_host "" "" [])
                   (getChangelist "cl-1" (state demo_shelved)))
                (files demo_shelved))
    as Hthm.
  cbn zeta in *.
  destruct Hthm as [Hany Hpop];
    [reflexivity|reflexivity|discriminate|vm_compute; lia|reflexivity|].
  destruct (Hpop "could not write index") as (Hout & Hstate & _); [reflexivity..|].
  destruct (Hany _ Hout) as (_ & Hws & _).
  split_and!; [exact Hout| |exact Hws]. rewrite Hstate. reflexivity.
Defined.

(** ** Discarding a snapshot that is not there *)

Lemma findShelved_None_filter p l :
  findShelved p l = None →
  filter (λ f, normalizePath (sf_relativePath f) ≠ p) l = l.
Proof.
  unfold findShelved. intros Hnone.
  destruct (list_find (samePath p) l) as [[k y]|] eqn:E; [done|].
  apply list_find_None in E.
  induction E as [|f l Hf _ IH]; [done|].
  rewrite filter_cons_True by done. by rewrite IH.
Qed.

Lemma set_shelvedFiles_same cl : set_shelvedFiles (cl_shelvedFiles cl) cl = cl.
Proof. by destruct cl. Qed.

Lemma assigned_same i cl st : changelists st !! i = Some cl → assigned i cl st = st.
Proof.
  intros Hi. unfold assigned. rewrite list_insert_id by done. by destruct st.
Qed.

(** C10. For a changelist id that resolves and a path the changelist holds
    no snapshot for, [deleteShelvedFile] completes without an error; the
    state, and with it the changelist's snapshots, the working tree and the
    list of changed files are as before; the state has been persisted under
    the repository's key and the changelists-changed notification has been
    fired, once, after everything else. *)
Theorem deleteShelvedFile_absent_path h env id p w cl :
  getChangelist id (state w) = Some cl →
  findShelved (normalizePath p) (cl_shelvedFiles cl) = None →
  let r := deleteShelvedFile h env id p w in
  outcome r = Ok tt
  ∧ state (after r) = state w
  ∧ getChangelist id (state (after r)) = Some cl
  ∧ files (after r) = files w
  ∧ changedFiles (after r) = changedFiles w
  ∧ workspaceState (after r) = <[stateKey h := state w]> (workspaceState w)
  ∧ events (after r) = events w ++ [ChangelistsChanged].
Proof.
  intros [i Hcl]%getChangelist_Some Hnone r.
  assert (r = (Ok tt,
               with_event ChangelistsChanged
                 (with_workspaceState (insert (stateKey h) (state w)) w))) as ->.
  { subst r. unfold deleteShelvedFile. rewrite run_bind. simpl. rewrite Hcl, Hnone.
    pose proof Hcl as [Hi _]%getChangelistRef_lookup.
    rewrite run_bind. simpl.
    rewrite run_bind, mutate_run, run_bind, saveState_run, fire_run.
    unfold with_state. cbn [state changelists].
    rewrite (alter_at_found _ _ _ _ Hi), (findShelved_None_filter _ _ Hnone).
    rewrite set_shelvedFiles_same.
    change (set_changelists (<[i:=cl]> (changelists (state w))) (state w))
      with (assigned i cl (state w)).
    rewrite (assigned_same _ _ _ Hi). by destruct w. }
  unfold outcome, after. simpl. split_and!; try done.
  apply getChangelist_Some. eauto.
Qed.

Lemma deleteShelvedFile_absent_path_witness :
  let r := deleteShelvedFile demo_host (demo_env [] None) "cl-1" "missing.txt" demo_shelved in
  outcome r = Ok tt ∧ state (after r) = state demo_shelved
  ∧ events (after r) = events demo_shelved ++ [ChangelistsChanged].
Proof.
  pose proof (deleteShelvedFile_absent_path demo_host (demo_env [] None) "cl-1" "missing.txt"
                demo_shelved
                (default (new_changelist demo_host "" "" [])
                   (getChangelist "cl-1" (state demo_shelved))))
    as Hthm.
  destruct Hthm as (Hok & Hstate & _ & _ & _ & _ & Hev); [reflexivity..|].
  cbn zeta. split_and!; [exact Hok|exact Hstate|exact Hev].
Defined.

(** ** The stable sort *)

Section sorting.
Context {A : Type}.

Lemma insert_by_perm (compare : A → A → Z) x l : insert_by compare x l ≡ₚ x :: l.
Proof.
  induction l as [|y l IH]; cbn [insert_by]; [done|].
  case_bool_decide; [done|]. rewrite IH. apply Permutation_swap.
Qed.

Lemma js_sort_perm (compare : A → A → Z) l : js_sort compare l ≡ₚ l.
Proof.
  induction l as [|x l IH]; [done|]. unfold js_sort in *. cbn [foldr].
  by rewrite insert_by_perm, IH.
Qed.

Context (key : A → Z).

(** Descending by [key]: the comparator [(a, b) => key(b) - key(a)]. *)
Local Abbreviation descending := (λ a b : A, (key b - key a)%Z).
Local Abbreviation later := (λ a b : A, (key b ≤ key a)%Z).

Lemma insert_by_sorted x l :
  StronglySorted later l → StronglySorted later (insert_by descending x l).
Proof.
  induction 1 as [|y l Hl IH Hy]; cbn [insert_by]; [by repeat constructor|].
  case_bool_decide as Hxy.
  - constructor; [by constructor|]. constructor; [lia|].
    eapply Forall_impl; [exact Hy|]. simpl. lia.
  - constructor; [done|]. rewrite insert_by_perm. constructor; [lia|done].
Qed.

Lemma js_sort_sorted l : StronglySorted later (js_sort descending l).
Proof.
  induction l as [|x l IH]; [constructor|]. by apply insert_by_sorted.
Qed.

Lemma insert_by_filter t x l :
  filter (λ a, key a = t) (insert_by descending x l) = filter (λ a, key a = t) (x :: l).
Proof.
  induction l as [|y l IH]; cbn [insert_by]; [done|].
  case_bool_decide as Hxy; [done|].
  rewrite filter_cons, IH, !filter_cons.
  repeat case_decide; try done; lia.
Qed.

(** Elements with equal keys keep the order they came in. *)
Lemma js_sort_stable t l :
  filter (λ a, key a = t) (js_sort descending l) = filter (λ a, key a = t) l.
Proof.
  induction l as [|x l IH]; [done|]. unfold js_sort in *. cbn [foldr].
  by rewrite insert_by_filter, !filter_cons, IH.
Qed.

(** The first hit in a list sorted descending is a hit with the greatest
    key. *)
Lemma find_sorted_max (f : A → bool) l x :
  StronglySorted later l → List.find f l = Some x →
  ∀ y, y ∈ l → f y = true → (key y ≤ key x)%Z.
Proof.
  induction 1 as [|z l Hl IH Hz]; [done|]. cbn [List.find].
  destruct (f z) eqn:Hfz.
  - intros [= ->] y [->|Hy]%elem_of_cons _; [done|].
    by eapply Forall_forall in Hz.
  - intros Hx y [->|Hy]%elem_of_cons Hfy; [congruence|]. by apply IH.
Qed.
End sorting.

(** ** Prefixes *)

Lemma startsWith_spec s p : startsWith s p = true ↔ ∃ rest, s = p +:+ rest.
Proof.
  unfold startsWith. revert s. induction p as [|a p IH]; intros s.
  - destruct s; simpl; (split; [intros _; by eexists|done]).
  - destruct s as [|b s]; simpl; [split; [done|by intros [? ?]]|].
    destruct (ascii_dec a b) as [->|Hne].
    + rewrite IH. split; intros [rest Hrest]; exists rest.
      * simpl. by rewrite Hrest.
      * simpl in Hrest. by injection Hrest.
    + split; [done|]. intros [rest Hrest]. simpl in Hrest. by injection Hrest.
Qed.

(** ** The versions of a file *)

Lemma elem_of_collectVersions v np st :
  v ∈ collectVersions np st ↔
  ∃ cl sf, cl ∈ changelists st ∧ sf ∈ cl_shelvedFiles cl
           ∧ normalizePath (sf_relativePath sf) = np
           ∧ v = {| fv_changelist := cl; fv_shelvedFile := sf;
                    fv_label := cl_label cl; fv_timestamp := sf_shelvedAt sf |}.
Proof.
  unfold collectVersions. rewrite list_elem_of_bind. split.
  - intros (cl & (sf & -> & [Hp Hsf]%list_elem_of_filter)%list_elem_of_fmap & Hcl).
    by exists cl, sf.
  - intros (cl & sf & Hcl & Hsf & Hp & ->). exists cl. split; [|done].
    apply list_elem_of_fmap. exists sf. split; [done|]. by apply list_elem_of_filter.
Qed.

(** X1.  [getFileVersions] returns exactly the snapshots stored under the
    normalized path, one version per snapshot and changelist, newest first;
    versions taken at the same instant stay in the order of the changelists
    that hold them. *)
Theorem getFileVersions_newest_first p st :
  getFileVersions p st ≡ₚ collectVersions (normalizePath p) st
  ∧ StronglySorted (λ a b, (fv_timestamp b ≤ fv_timestamp a)%Z) (getFileVersions p st)
  ∧ (∀ t, filter (λ v, fv_timestamp v = t) (getFileVersions p st)
          = filter (λ v, fv_timestamp v = t) (collectVersions (normalizePath p) st))
  ∧ (∀ v, v ∈ getFileVersions p st ↔
          ∃ cl sf, cl ∈ changelists st ∧ sf ∈ cl_shelvedFiles cl
                   ∧ normalizePath (sf_relativePath sf) = normalizePath p
                   ∧ v = {| fv_changelist := cl; fv_shelvedFile := sf;
                            fv_label := cl_label cl; fv_timestamp := sf_shelvedAt sf |}).
Proof.
  unfold getFileVersions. split_and!.
  - apply js_sort_perm.
  - apply (js_sort_sorted fv_timestamp).
  - intros t. apply (js_sort_stable fv_timestamp).
  - intros v. rewrite js_sort_perm. apply elem_of_collectVersions.
Qed.

(** ** The repository of a file *)

(** X2.  [getRepoForFile] returns a repository of the list that contains
    the file and whose path is as long as that of any other repository
    containing it; it returns nothing exactly when no repository contains
    the file.  A repository contains the file when the file's path is the
    repository's path or continues it with a slash; all paths are compared
    resolved and normalized. *)
Theorem getRepoForFile_most_specific path_resolve filePath repositories :
  let contains := repoContains path_resolve (normalizePath (path_resolve filePath)) in
  match getRepoForFile path_resolve filePath repositories with
  | Some repo =>
    repo ∈ repositories ∧ contains repo = true
    ∧ ∀ other, other ∈ repositories → contains other = true →
               String.length (gr_path other) ≤ String.length (gr_path repo)
  | None => ∀ repo, repo ∈ repositories → contains repo = false
  end
  ∧ ∀ repo,
      contains repo = true
      ↔ normalizePath (path_resolve filePath) = normalizePath (path_resolve (gr_path repo))
        ∨ ∃ rest, normalizePath (path_resolve filePath)
                  = (normalizePath (path_resolve (gr_path repo)) +:+ "/") +:+ rest.
Proof.
  intros contains. split.
  2: { intros repo. unfold contains, repoContains.
       rewrite orb_true_iff, startsWith_spec, bool_decide_eq_true. tauto. }
  unfold getRepoForFile. fold contains.
  set (key := λ r, Z.of_nat (String.length (gr_path r))).
  set (sorted := js_sort _ repositories).
  assert (sorted ≡ₚ repositories) as Hperm by apply js_sort_perm.
  destruct (List.find contains sorted) as [repo|] eqn:Hfind.
  - pose proof (find_some _ _ Hfind) as [Hin Hc]. split_and!.
    + rewrite <- Hperm. by apply list_elem_of_In.
    + done.
    + intros other Hother Hco.
      pose proof (find_sorted_max key contains sorted repo
                    (js_sort_sorted key repositories) Hfind other) as Hmax.
      rewrite Hperm in Hmax. specialize (Hmax Hother Hco). unfold key in Hmax. lia.
  - intros repo Hrepo. apply (find_none _ _ Hfind).
    apply list_elem_of_In. by rewrite Hperm.
Qed.

Lemma getRepoForFile_most_specific_witness :
  getRepoForFile id "/w/sub/a.txt" demo_repositories
  = Some {| gr_path := "/w/sub"; gr_name := "sub"; gr_isSubmodule := true;
            gr_parentRepoPath := Some "/w" |}
  ∧ ∀ other, other ∈ demo_repositories →
      repoContains id (normalizePath "/w/sub/a.txt") other = true →
      String.length (gr_path other) ≤ 6.
Proof.
  pose proof (getRepoForFile_most_specific id "/w/sub/a.txt" demo_repositories) as [H _].
  split; [reflexivity|]. apply H.
Defined.

(** ** What an import appends *)

Lemma imported_changelists_cons h env k item items :
  imported_changelists h env k (item :: items) =
    match importable item with
    | Some x => new_changelist h (generateId env k) (fst x) (snd x)
                :: imported_changelists h env (S k) items
    | None => imported_changelists h env k items
    end.
Proof.
  unfold imported_changelists. cbn [omap list_omap].
  destruct (importable item) as [x|]; [|done].
  cbn [imap]. rewrite Nat.add_0_r. f_equal.
  apply imap_ext. intros j y _. simpl. f_equal. f_equal. lia.
Qed.

Lemma imported_changelists_length h env k items :
  length (imported_changelists h env k items) = length (omap importable items).
Proof. unfold imported_changelists. apply length_imap. Qed.

(** The import loop never throws: it pushes one record per item that passes
    the guard, in the order of the payload, with the ids drawn in that
    order, and counts them. *)
Lemma importItems_run h env items k w :
  ∃ w',
    importItems h env items k w = (Ok (length (omap importable items)), w')
    ∧ state w'
      = set_changelists (changelists (state w) ++ imported_changelists h env k items) (state w)
    ∧ changedFiles w' = changedFiles w
    ∧ files w' = files w
    ∧ events w' = events w ++ replicate (length (omap importable items)) ChangelistsChanged
    ∧ ∀ st, <[stateKey h := st]> (workspaceState w') = <[stateKey h := st]> (workspaceState w).
Proof.
  revert k w. induction items as [|item items IH]; intros k w.
  { exists w. split_and!; try done.
    - unfold imported_changelists. simpl. rewrite app_nil_r. by destruct (state w).
    - simpl. by rewrite app_nil_r. }
  rewrite imported_changelists_cons. cbn [importItems omap list_omap]. unfold importable.
  destruct (ex_shelvedFiles item) as [l|] eqn:Hl; [|apply IH].
  destruct (truthy (ex_label item)); [|apply IH].
  change (createChangelist h (generateId env k) (ex_label item) ≫= _)
    with ((createChangelist h (generateId env k) (ex_label item)
             ≫= λ changelist, mutate changelist (set_shelvedFiles l))
            ≫= λ _, importItems h env items (S k) ≫= λ imported, mret (S imported)).
  rewrite run_bind, import_one_run, run_bind.
  match goal with |- context [importItems h env items (S k) ?w0] =>
    destruct (IH (S k) w0) as (w' & -> & Hst & Hcf & Hfs & Hev & Hws)
  end.
  exists w'. split_and!; try done.
  - rewrite Hst. cbn [fst snd state with_state set_changelists changelists].
    by rewrite <- app_assoc.
  - rewrite Hev. cbn [events with_state with_event length replicate].
    by rewrite <- app_assoc.
  - intros st. rewrite Hws. cbn [workspaceState with_state with_event with_workspaceState].
    apply insert_insert_eq.
Qed.

Lemma importChangelists_run h env data w items :
  exp_changelists data = Some items →
  importChangelists h env data w
  = (Ok (length (imported_changelists h env 0 items)),
     {| state :=
          set_changelists (changelists (state w) ++ imported_changelists h env 0 items)
            (state w);
        changedFiles := changedFiles w;
        workspaceState :=
          <[stateKey h :=
              set_changelists (changelists (state w) ++ imported_changelists h env 0 items)
                (state w)]> (workspaceState w);
        files := files w;
        events :=
          events w
          ++ replicate (S (length (imported_changelists h env 0 items))) ChangelistsChanged |}).
Proof.
  intros Hitems. unfold importChangelists. rewrite Hitems, run_bind.
  destruct (importItems_run h env items 0 w) as (w' & -> & Hst & Hcf & Hfs & Hev & Hws).
  rewrite run_bind, saveState_run, run_bind, fire_run. simpl.
  rewrite imported_changelists_length. f_equal.
  destruct w' as [st1 cf1 ws1 fs1 ev1]. simpl in *. subst.
  unfold with_event, with_workspaceState. simpl. f_equal.
  - apply Hws.
  - rewrite <- app_assoc. f_equal.
    by rewrite <- replicate_S_end.
Qed.

(** X3.  [importChangelists] on a payload that has a changelist array
    never throws.  It appends one changelist per item that has a non-empty
    label and a snapshot array, in the order of the payload, each with a
    newly drawn id, neither default nor active, holding the item's
    snapshots as they are; everything else in the payload is skipped.  It
    returns the number of changelists appended, stores the resulting state
    and leaves the working tree alone.  A payload without the array is
    rejected with 'Invalid import data' and nothing changes. *)
Theorem importChangelists_appends h env data w :
  let r := importChangelists h env data w in
  match exp_changelists data with
  | Some items =>
    let new := imported_changelists h env 0 items in
    outcome r = Ok (length (omap importable items))
    ∧ changelists (state (after r)) = changelists (state w) ++ new
    ∧ Forall (λ cl, cl_isDefault cl = false ∧ cl_isActive cl = false) new
    ∧ (cl_label <$> new) = (fst <$> omap importable items)
    ∧ (cl_shelvedFiles <$> new) = (snd <$> omap importable items)
    ∧ (cl_id <$> new) = (generateId env <$> seq 0 (length (omap importable items)))
    ∧ activeChangelistId (state (after r)) = activeChangelistId (state w)
    ∧ synced h (after r)
    ∧ files (after r) = files w
    ∧ changedFiles (after r) = changedFiles w
  | None => r = (Throw InvalidImportData, w)
  end.
Proof.
  intros r. subst r. destruct (exp_changelists data) as [items|] eqn:Hitems.
  2: { unfold importChangelists. by rewrite Hitems. }
  rewrite (importChangelists_run _ _ _ _ _ Hitems). unfold outcome, after, synced.
  cbn [fst snd state files changedFiles workspaceState changelists set_changelists
       activeChangelistId].
  rewrite imported_changelists_length, lookup_insert_eq.
  split_and!; try done; unfold imported_changelists.
  - apply Forall_forall. intros cl (j & Hj)%list_elem_of_lookup.
    apply list_lookup_imap_Some in Hj as (x & _ & ->). done.
  - generalize 0. induction (omap importable items) as [|x l IH]; intros k; [done|].
    cbn [imap fmap list_fmap]. f_equal. rewrite <- (IH (S k)). f_equal.
    apply imap_ext. intros. simpl. f_equal. f_equal. lia.
  - generalize 0. induction (omap importable items) as [|x l IH]; intros k; [done|].
    cbn [imap fmap list_fmap]. f_equal. rewrite <- (IH (S k)). f_equal.
    apply imap_ext. intros. simpl. f_equal. f_equal. lia.
  - apply list_eq. intros j. rewrite !list_lookup_fmap, list_lookup_imap.
    destruct (omap importable items !! j) as [x|] eqn:Hx; simpl.
    + rewrite lookup_seq_lt by (by eapply lookup_lt_Some). done.
    + rewrite lookup_seq_ge; [done|]. by apply lookup_ge_None.
Qed.

Lemma importChangelists_appends_witness :
  outcome (importChangelists demo_host (demo_env ["cl-5"] None) demo_duplicate_import
             demo_fresh) = Ok 1
  ∧ (cl_label <$> changelists
       (state (after (importChangelists demo_host (demo_env ["cl-5"] None)
                        demo_duplicate_import demo_fresh))))
    = ["Default Changelist"; "Merged"].
Proof.
  pose proof (importChangelists_appends demo_host (demo_env ["cl-5"] None)
                demo_duplicate_import demo_fresh) as (H1 & H2 & _).
  split; [exact H1|]. rewrite H2. reflexivity.
Defined.

(** ** Export, then import *)

Lemma truthy_ne s : truthy s = true ↔ s ≠ "".
Proof. destruct s; simpl; split; congruence. Qed.

(** Written out and read back, the export is the list of the labels and
    snapshot arrays of the changelists that are not the default one and
    hold a snapshot. *)
Lemma throughJSON_items (all : list Changelist) k l :
  (∀ j cl, l !! j = Some cl → all !! (k + j) = Some cl) →
  (λ item, {| ex_label := lx_label item;
              ex_shelvedFiles := cl_shelvedFiles <$> all !! lx_shelvedFilesOf item |})
    <$> ((λ x, {| lx_label := cl_label (snd x); lx_shelvedFilesOf := fst x |})
           <$> filter (λ x, cl_isDefault (snd x) = false
                            ∧ 0 < length (cl_shelvedFiles (snd x)))
                 (imap (λ j, pair (k + j)) l))
  = (λ cl, {| ex_label := cl_label cl; ex_shelvedFiles := Some (cl_shelvedFiles cl) |})
      <$> filter (λ cl, cl_isDefault cl = false ∧ 0 < length (cl_shelvedFiles cl)) l.
Proof.
  revert k. induction l as [|cl l IH]; intros k Hall; [done|].
  cbn [imap]. rewrite !filter_cons. cbn [snd].
  assert (imap ((λ j, pair (k + j)) ∘ S) l = imap (λ j, pair (S k + j)) l) as ->.
  { apply imap_ext. intros j y _. simpl. f_equal. lia. }
  assert (∀ j y, l !! j = Some y → all !! (S k + j) = Some y) as Hrest.
  { intros j y Hj. replace (S k + j) with (k + S j) by lia. by apply Hall. }
  destruct (decide (cl_isDefault cl = false ∧ 0 < length (cl_shelvedFiles cl))).
  - cbn [fmap list_fmap]. f_equal; [|by apply IH].
    cbn [lx_label lx_shelvedFilesOf fst snd]. by rewrite (Hall 0 cl eq_refl).
  - by apply IH.
Qed.

Lemma importable_exported st t items :
  exp_changelists (throughJSON st (exportChangelists t st)) = Some items →
  omap importable items
  = (λ cl, (cl_label cl, cl_shelvedFiles cl))
      <$> filter (λ cl, cl_isDefault cl = false ∧ 0 < length (cl_shelvedFiles cl)
                        ∧ cl_label cl ≠ "") (changelists st).
Proof.
  unfold throughJSON, exportChangelists.
  cbn [exp_changelists lv_changelists]. intros [= <-].
  etrans.
  { apply (f_equal (omap importable)).
    exact (throughJSON_items (changelists st) 0 (changelists st) (λ j cl Hj, Hj)). }
  induction (changelists st) as [|cl l IH]; [done|].
  rewrite !filter_cons. destruct (decide (cl_isDefault cl = false ∧ _)) as [[Hd Hn]|Hno].
  - cbn [fmap list_fmap omap list_omap]. unfold importable at 1. simpl.
    destruct (truthy (cl_label cl)) eqn:Hl.
    + rewrite decide_True by (by rewrite <- truthy_ne). cbn [fmap list_fmap]. by f_equal.
    + rewrite decide_False; [done|]. rewrite <- truthy_ne. intros (_ & _ & ?). congruence.
  - rewrite decide_False by tauto. done.
Qed.

(** X4.  Importing what [exportChangelists] produced from a state, written
    out and read back as the export and import commands do, recreates, in
    order and after the changelists already there, every changelist of
    that state that is not the default one, holds at least one snapshot and
    has a non-empty label: same label, same snapshots, a newly drawn id,
    not active.  The default changelist, the empty changelists and those
    with an empty label are not carried over, and the call returns the
    number of changelists recreated. *)
Theorem import_of_export h env t st w :
  let carried :=
    filter (λ cl, cl_isDefault cl = false ∧ 0 < length (cl_shelvedFiles cl) ∧ cl_label cl ≠ "")
      (changelists st) in
  let r := importChangelists h env (throughJSON st (exportChangelists t st)) w in
  outcome r = Ok (length carried)
  ∧ changelists (state (after r))
    = changelists (state w)
      ++ imap (λ j cl, new_changelist h (generateId env j) (cl_label cl) (cl_shelvedFiles cl))
           carried
  ∧ files (after r) = files w.
Proof.
  intros carried r. subst r.
  destruct (exp_changelists (throughJSON st (exportChangelists t st))) as [items|] eqn:Hitems;
    [|done].
  rewrite (importChangelists_run _ _ _ _ _ Hitems). unfold outcome, after. simpl.
  unfold imported_changelists. rewrite (importable_exported _ _ _ Hitems).
  fold carried. rewrite length_imap, length_fmap, imap_fmap. done.
Qed.

(** ** Looking changelists up *)

(** Overwriting an element that does not satisfy [P] with another one that
    does not changes no search for [P]. *)
Lemma list_find_insert_other {A} (P : A → Prop) `{!∀ x, Decision (P x)}
    (l : list A) (i : nat) (x y : A) :
  l !! i = Some x → ¬ P x → ¬ P y → list_find P (<[i := y]> l) = list_find P l.
Proof.
  revert i. induction l as [|z l IH]; intros i Hi Hx Hy; [done|].
  destruct i as [|i]; simplify_eq/=.
  - by rewrite !decide_False.
  - destruct (decide (P z)); [done|]. by rewrite (IH i).
Qed.

(** Assigning to a changelist object is invisible to lookups by another
    id. *)
Lemma getChangelist_assigned_ne id st i cl cl' :
  changelists st !! i = Some cl → cl_id cl ≠ id → cl_id cl' ≠ id →
  getChangelist id (assigned i cl' st) = getChangelist id st.
Proof.
  intros Hi Hne Hne'. unfold getChangelist, getChangelistRef, assigned. simpl.
  by rewrite (list_find_insert_other _ _ _ cl).
Qed.

Lemma renameChangelist_run h id v w i cl :
  getChangelistRef id (state w) = Some (i, cl) →
  renameChangelist h id v w
  = (Ok tt,
     with_event ChangelistsChanged
       (with_workspaceState (insert (stateKey h) (assigned i (set_label v cl) (state w)))
          (with_state (λ _, assigned i (set_label v cl) (state w)) w))).
Proof.
  intros Hcl. unfold renameChangelist. rewrite run_bind. simpl. rewrite Hcl.
  pose proof Hcl as [Hi _]%getChangelistRef_lookup.
  rewrite run_bind, mutate_run, run_bind, saveState_run, fire_run.
  unfold with_state, with_event, with_workspaceState, assigned. simpl.
  by rewrite (alter_at_found _ _ _ _ Hi).
Qed.

(** X5.  [createChangelist] appends a changelist and disturbs no lookup:
    an id that resolved before resolves to the same changelist, also when
    the new changelist was given that very id, in which case the new one
    cannot be reached by its id; an id that did not resolve does so
    afterwards only if it is the new id, and then to the new changelist,
    which is empty, not default and not active. *)
Theorem createChangelist_lookup h id label w id' :
  getChangelist id' (state (after (createChangelist h id label w)))
  = match getChangelist id' (state w) with
    | Some cl => Some cl
    | None => if decide (id = id') then Some (new_changelist h id label []) else None
    end.
Proof.
  rewrite createChangelist_run. unfold after, getChangelist, getChangelistRef. simpl.
  destruct (list_find (λ cl, cl_id cl = id') (changelists (state w))) as [[i cl]|] eqn:E.
  - by erewrite list_find_app_l.
  - rewrite list_find_app_r by done. simpl. by destruct (decide (id = id')).
Qed.

(** X6.  [renameChangelist] on an id that resolves changes the label of
    the changelist found and nothing else: the id then resolves to the same
    changelist under its new label, with its snapshots and flags; every
    other id resolves as before; the working tree is untouched and the
    state is stored.  On an id that does not resolve it throws and changes
    nothing. *)
Theorem renameChangelist_only_label h id v w :
  let r := renameChangelist h id v w in
  match getChangelist id (state w) with
  | Some cl =>
    outcome r = Ok tt
    ∧ getChangelist id (state (after r)) = Some (set_label v cl)
    ∧ (∀ id', id' ≠ id → getChangelist id' (state (after r)) = getChangelist id' (state w))
    ∧ length (changelists (state (after r))) = length (changelists (state w))
    ∧ activeChangelistId (state (after r)) = activeChangelistId (state w)
    ∧ files (after r) = files w
    ∧ synced h (after r)
  | None => r = (Throw (ChangelistNotFound id), w)
  end.
Proof.
  intros r. subst r.
  destruct (getChangelist id (state w)) as [cl|] eqn:Hcl.
  - apply getChangelist_Some in Hcl as [i Hcl]. rewrite (renameChangelist_run _ _ _ _ _ _ Hcl).
    pose proof Hcl as [Hi Hid]%getChangelistRef_lookup.
    unfold outcome, after, synced. simpl. split_and!; try done.
    + apply getChangelist_Some. exists i. by apply (getChangelistRef_insert _ _ _ cl).
    + intros id' Hne. apply (getChangelist_assigned_ne _ _ _ cl); simpl; congruence.
    + by rewrite length_insert.
    + apply lookup_insert_eq.
  - unfold renameChangelist. rewrite run_bind. simpl.
    unfold getChangelist in Hcl. by destruct (getChangelistRef id (state w)).
Qed.

Lemma renameChangelist_only_label_witness :
  getChangelist "cl-1"
    (state (after (renameChangelist demo_host "cl-1" "Feature B" demo_shelved)))
  = Some {| cl_id := "cl-1"; cl_label := "Feature B";
            cl_shelvedFiles :=
              [set_sf_repoPath (Some "/repo") (snapshot "config.json" "v2")];
            cl_isDefault := false; cl_isActive := false; cl_repoPath := Some "/repo" |}
  ∧ getChangelist "cl-0"
      (state (after (renameChangelist demo_host "cl-1" "Feature B" demo_shelved)))
    = getChangelist "cl-0" (state demo_shelved).
Proof.
  pose proof (renameChangelist_only_label demo_host "cl-1" "Feature B" demo_shelved)
    as (_ & H2 & H3 & _).
  split; [exact H2|]. apply H3. discriminate.
Defined.

(** ** The active changelist, resolved *)

Lemma getActiveChangelist_activated id i st cl :
  getChangelistRef id st = Some (i, cl) →
  getActiveChangelist (activated id i st) = Ok (set_isActive true cl).
Proof.
  intros [Hi Hid]%getChangelistRef_lookup. unfold getActiveChangelist.
  assert (list_find (λ c, cl_isActive c = true) (changelists (activated id i st))
          = Some (i, set_isActive true cl)) as ->; [|done].
  apply list_find_Some. split_and!.
  - unfold activated. simpl. by rewrite list_lookup_alter_eq, list_lookup_fmap, Hi.
  - done.
  - intros j c Hj Hlt. rewrite (activated_flags _ _ _ _ _ Hj).
    rewrite bool_decide_eq_false_2 by lia. done.
Qed.

(** X7.  [getActiveChangelist] never throws on a state the service can
    be in.  Right after [setActiveChangelist id] on an id that resolves it
    returns the changelist that id resolved to, now flagged active, and the
    id resolves to that same changelist. *)
Theorem getActiveChangelist_resolves h w :
  reachable h w →
  (∃ cl, getActiveChangelist (state w) = Ok cl)
  ∧ ∀ id cl, getChangelist id (state w) = Some cl →
      let w' := after (setActiveChangelist h id w) in
      getActiveChangelist (state w') = Ok (set_isActive true cl)
      ∧ getChangelist id (state w') = Some (set_isActive true cl)
      ∧ activeChangelistId (state w') = id.
Proof.
  intros Hreach. split.
  - destruct (reachable_registry_inv _ _ Hreach) as [Hdf _].
    destruct (default_first_resolves _ Hdf) as (d & Hd & _).
    unfold getActiveChangelist. destruct (list_find _ _) as [[j a]|]; eauto.
  - intros id cl [i Hcl]%getChangelist_Some w'. subst w'.
    rewrite (setActiveChangelist_run _ _ _ _ _ Hcl). unfold after. simpl.
    split_and!; [by apply getActiveChangelist_activated| |done].
    pose proof Hcl as [Hi Hid]%getChangelistRef_lookup.
    apply getChangelist_Some. exists i. apply list_find_Some. split_and!.
    + unfold activated. simpl. by rewrite list_lookup_alter_eq, list_lookup_fmap, Hi.
    + done.
    + intros j c Hj Hlt. unfold activated in Hj. simpl in Hj.
      rewrite list_lookup_alter_ne, list_lookup_fmap in Hj by lia.
      apply list_find_Some in Hcl as (_ & _ & Hleast).
      destruct (changelists (state w) !! j) as [c0|] eqn:Hc0; simplify_eq/=.
      by apply (Hleast j).
Qed.

Lemma getActiveChangelist_resolves_witness :
  reachable demo_host demo_fresh
  ∧ (∃ cl, getActiveChangelist (state demo_shelved) = Ok cl)
  ∧ cl_label <$> (match getActiveChangelist
                          (state (after (setActiveChangelist demo_host "cl-1" demo_shelved)))
                  with Ok cl => Some cl | Throw _ => None end) = Some "Feature A".
Proof.
  assert (reachable demo_host demo_fresh) as Hfresh by (by apply reach_init).
  assert (reachable demo_host demo_shelved) as Hshelved.
  { do 3 apply reach_exec. exact Hfresh. }
  split; [exact Hfresh|].
  destruct (getActiveChangelist_resolves demo_host demo_shelved Hshelved) as [H1 H2].
  split; [exact H1|].
  destruct (H2 "cl-1" _ eq_refl) as (-> & _). reflexivity.
Defined.

(** ** Restoring and staging *)









(** ** Restoring a legacy snapshot *)



(** ** A commit that goes through *)

Lemma workspaceState_refreshed h env w :
  workspaceState (refreshed h env w) = workspaceState w.
Proof. unfold refreshed. by destruct (gitStatus env). Qed.

(** X12.  When [commitChangelist] on a changelist other than the default
    one returns normally, the changelist held snapshots, git accepted both
    the staging of the stored paths and the commit, and the changelist is
    still there, under the same id and label, with no snapshot left; the
    state stored is the state held.  Committing the same changelist again
    is then refused with 'No shelved files to commit' and changes
    nothing. *)
Theorem commitChangelist_success h env c msg w i cl :
  getChangelistRef c (state w) = Some (i, cl) →
  cl_isDefault cl = false →
  outcome (commitChangelist h env c msg w) = Ok tt →
  let w' := after (commitChangelist h env c msg w) in
  cl_shelvedFiles cl ≠ []
  ∧ gitAdd env (sf_relativePath <$> cl_shelvedFiles cl) = None
  ∧ gitCommit env msg = None
  ∧ state w' = assigned i (set_shelvedFiles [] cl) (state w)
  ∧ getChangelistRef c (state w') = Some (i, set_shelvedFiles [] cl)
  ∧ synced h w'
  ∧ ∀ env' msg', commitChangelist h env' c msg' w' = (Throw NoShelvedFilesToCommit, w').
Proof.
  intros Hcl Hnd Hok w'. subst w'.
  assert (cl_shelvedFiles cl ≠ []) as Hne.
  { intros Hnil. unfold commitChangelist in Hok. rewrite run_bind in Hok. simpl in Hok.
    rewrite Hcl, Hnd, Hnil in Hok. discriminate. }
  pose proof Hcl as [Hi Hid]%getChangelistRef_lookup.
  assert (getChangelistRef c (assigned i (set_shelvedFiles [] cl) (state w))
          = Some (i, set_shelvedFiles [] cl)) as Hcl'.
  { by apply (getChangelistRef_insert _ _ _ cl). }
  revert Hok. rewrite (commitChangelist_run _ _ _ _ _ _ _ Hcl Hnd Hne).
  set (pop := if bool_decide (0 < size (changedFiles w)) then gitRun (gitStashPop env) else _).
  set (stash := if bool_decide (0 < size (changedFiles w)) then _ else _).
  assert (fs_only stash) as Hstash by (subst stash; repeat fs_only_step).
  assert (fs_only pop) as Hpop by (subst pop; repeat fs_only_step).
  destruct (Hstash w) as (r1 & fs1 & ->). destruct r1 as [[]|e]; [|done].
  destruct (fs_only_restore_all h env (cl_shelvedFiles cl) (with_files (λ _, fs1) w))
    as (r2 & fs2 & ->).
  destruct r2 as [[]|e]; [|done].
  destruct (gitAdd env _) as [m|]; [done|].
  destruct (gitCommit env msg) as [m|]; [done|].
  cbv zeta.
  match goal with |- context [pop ?w0] => destruct (Hpop w0) as (r3 & fs3 & ->) end.
  destruct r3 as [[]|e]; [|done]. intros _.
  unfold after, synced. cbn [fst snd]. cbn [state workspaceState with_event].
  rewrite state_refreshed, workspaceState_refreshed.
  cbn [state workspaceState with_workspaceState with_files with_state].
  rewrite (alter_at_found _ _ _ _ Hi). fold (assigned i (set_shelvedFiles [] cl) (state w)).
  rewrite lookup_insert_eq.
  split_and!; try done.
  intros env' msg'. unfold commitChangelist. rewrite run_bind.
  cbn [get fst snd state with_event]. rewrite state_refreshed.
  cbn [state with_workspaceState with_files with_state].
  rewrite (alter_at_found _ _ _ _ Hi). fold (assigned i (set_shelvedFiles [] cl) (state w)).
  rewrite Hcl'. cbn [set_shelvedFiles cl_isDefault cl_shelvedFiles]. by rewrite Hnd.
Qed.

Lemma commitChangelist_success_witness :
  getChangelist "cl-1"
    (state (after (commitChangelist demo_host (commit_env None None) "cl-1" "message"
                     demo_shelved)))
  = Some {| cl_id := "cl-1"; cl_label := "Feature A"; cl_shelvedFiles := [];
            cl_isDefault := false; cl_isActive := false; cl_repoPath := Some "/repo" |}.
Proof.
  pose proof (commitChangelist_success demo_host (commit_env None None) "cl-1" "message"
                demo_shelved 1 _ eq_refl eq_refl eq_refl) as (_ & _ & _ & _ & H & _).
  unfold getChangelist. rewrite H. reflexivity.
Defined.

(** ** Reverting a changed file *)


(** ** Committing the working tree *)

(** X28.  [commitWorkingChanges] touches neither the changelists, nor
    the store, nor the working tree, and a call that fails has changed
    nothing at all.  It succeeds exactly when there is a changed file and
    git accepts both the staging of the changed files' paths and the
    commit; with no changed file it is refused with 'No files to commit'.
    [commitChangelist] on the default changelist is this very call. *)
Theorem commitWorkingChanges_outcomes h env msg w :
  let r := commitWorkingChanges h env msg w in
  let paths := cf_relativePath <$> (snd <$> map_to_list (changedFiles w)) in
  state (after r) = state w
  ∧ workspaceState (after r) = workspaceState w
  ∧ files (after r) = files w
  ∧ (∀ e, outcome r = Throw e → after r = w)
  ∧ (outcome r = Ok tt
     ↔ changedFiles w ≠ ∅ ∧ gitAdd env paths = None ∧ gitCommit env msg = None)
  ∧ (changedFiles w = ∅ → outcome r = Throw NoFilesToCommit)
  ∧ ∀ c i cl, getChangelistRef c (state w) = Some (i, cl) → cl_isDefault cl = true →
              commitChangelist h env c msg w = r.
Proof.
  intros r paths.
  assert (∀ c i cl, getChangelistRef c (state w) = Some (i, cl) → cl_isDefault cl = true →
            commitChangelist h env c msg w = r) as Hdefault.
  { intros c i cl Hcl Hd. unfold commitChangelist. rewrite run_bind. simpl.
    by rewrite Hcl, Hd. }
  assert (length (snd <$> map_to_list (changedFiles w)) = 0 ↔ changedFiles w = ∅) as Hlen.
  { rewrite length_fmap, length_zero_iff_nil. apply map_to_list_empty_iff. }
  assert (r = if bool_decide (changedFiles w = ∅) then (Throw NoFilesToCommit, w)
              else match gitAdd env paths with
                   | Some m => (Throw (GitError m), w)
                   | None =>
                     match gitCommit env msg with
                     | Some m => (Throw (GitError m), w)
                     | None => (Ok tt, refreshed h env w)
                     end
                   end) as Hr.
  { subst r. unfold commitWorkingChanges. rewrite run_bind. cbn [get fst snd]. fold paths.
    rewrite (bool_decide_ext _ _ Hlen). case_bool_decide; [done|].
    rewrite run_bind. destruct (gitAdd env paths); [done|]. simpl.
    rewrite run_bind. destruct (gitCommit env msg); [done|]. simpl.
    apply refresh_run. }
  clearbody r.
  case_bool_decide as Hempty; [|destruct (gitAdd env paths) as [m|] eqn:Hadd;
                                 [|destruct (gitCommit env msg) as [m|] eqn:Hcommit]];
    subst r; unfold outcome, after; cbn [fst snd];
    rewrite ?state_refreshed, ?workspaceState_refreshed, ?files_refreshed;
    (split_and!; try done).
  - split; [done|]. by intros [? _].
  - split; [done|]. by intros (_ & ? & _).
  - split; [done|]. by intros (_ & _ & ?).
Qed.

(** ** Discarding a snapshot *)

Lemma deleteSnapshotFile_run h env sf cl w :
  deleteSnapshotFile h env sf cl w = (Ok tt, with_files (unmirrored h env sf cl) w).
Proof.
  unfold deleteSnapshotFile, unmirrored. destruct (saveSnapshotsToFile env); simpl.
  - rewrite run_bind, existsSync_run. case_bool_decide as Hex.
    + by apply unlinkSync_run.
    + unfold with_files. rewrite delete_id; [by destruct w|]. by apply eq_None_not_Some.
  - by destruct w.
Qed.

Lemma deleteShelvedFile_run h env c p w i cl :
  getChangelistRef c (state w) = Some (i, cl) →
  let st' := assigned i (set_shelvedFiles (discarded (normalizePath p) (cl_shelvedFiles cl)) cl)
               (state w) in
  deleteShelvedFile h env c p w
  = (Ok tt,
     with_event ChangelistsChanged
       (with_workspaceState (insert (stateKey h) st')
          (with_state (λ _, st')
             (with_files
                match findShelved (normalizePath p) (cl_shelvedFiles cl) with
                | Some sf => unmirrored h env sf cl
                | None => λ fs, fs
                end w)))).
Proof.
  intros Hcl st'. subst st'. unfold deleteShelvedFile. rewrite run_bind. simpl. rewrite Hcl.
  pose proof Hcl as [Hi _]%getChangelistRef_lookup. rewrite run_bind.
  destruct (findShelved (normalizePath p) (cl_shelvedFiles cl)) as [sf|].
  - rewrite deleteSnapshotFile_run, run_bind, mutate_run, run_bind, saveState_run, fire_run.
    unfold with_state, with_event, with_workspaceState, with_files, assigned, discarded. simpl.
    by rewrite (alter_at_found _ _ _ _ Hi).
  - simpl. rewrite run_bind, mutate_run, run_bind, saveState_run, fire_run.
    unfold with_state, with_event, with_workspaceState, with_files, assigned, discarded. simpl.
    by rewrite (alter_at_found _ _ _ _ Hi).
Qed.

(** Searching a filtered list for something the filter lets through. *)
Lemma list_find_filter_keep {A} (P Q : A → Prop) `{!∀ x, Decision (P x)} `{!∀ x, Decision (Q x)}
    (l : list A) :
  (∀ x, P x → Q x) → snd <$> list_find P (filter Q l) = snd <$> list_find P l.
Proof.
  intros HPQ. induction l as [|x l IH]; [done|].
  rewrite filter_cons. cbn [list_find]. destruct (decide (P x)) as [HP|HP].
  - rewrite decide_True by auto. cbn [list_find]. by rewrite decide_True.
  - destruct (decide (Q x)).
    + cbn [list_find]. rewrite decide_False by done.
      destruct (list_find P (filter Q l)) as [[? ?]|], (list_find P l) as [[? ?]|];
        simpl in *; congruence.
    + destruct (list_find P (filter Q l)) as [[? ?]|], (list_find P l) as [[? ?]|];
        simpl in *; congruence.
Qed.

Lemma findShelved_discarded_same np l : findShelved np (discarded np l) = None.
Proof.
  unfold findShelved, discarded.
  destruct (list_find (samePath np) (filter _ l)) as [[k y]|] eqn:E; [|done].
  apply list_find_Some in E as (Hk & Hy & _).
  apply list_elem_of_lookup_2, list_elem_of_filter in Hk as [Hne _]. done.
Qed.

Lemma findShelved_discarded_ne np q l :
  q ≠ np → findShelved q (discarded np l) = findShelved q l.
Proof.
  intros Hne. unfold findShelved, discarded. apply list_find_filter_keep.
  unfold samePath. congruence.
Qed.

(** X14.  [deleteShelvedFile] on a changelist id that resolves never
    throws.  Afterwards the changelist holds no snapshot for the path, not
    even when it held several, while its snapshots of every other path and
    every other changelist resolve as before; the state is stored.  When
    the changelist held a snapshot for the path and the mirror is on, the
    file at the mirror path of that snapshot (of the first one, if there
    were several) is gone, and every other file is as it was; when the
    changelist held no snapshot for the path, or the mirror is off, the
    file system is as it was.  Restoring the discarded path is then refused
    with 'File not found in changelist'. *)
Theorem deleteShelvedFile_discards h env c p w i cl :
  getChangelistRef c (state w) = Some (i, cl) →
  let r := deleteShelvedFile h env c p w in
  let cl' := set_shelvedFiles (discarded (normalizePath p) (cl_shelvedFiles cl)) cl in
  outcome r = Ok tt
  ∧ getChangelistRef c (state (after r)) = Some (i, cl')
  ∧ findShelved (normalizePath p) (cl_shelvedFiles cl') = None
  ∧ (∀ q, q ≠ normalizePath p →
          findShelved q (cl_shelvedFiles cl') = findShelved q (cl_shelvedFiles cl))
  ∧ (∀ id, id ≠ c → getChangelist id (state (after r)) = getChangelist id (state w))
  ∧ synced h (after r)
  ∧ (∀ sf, findShelved (normalizePath p) (cl_shelvedFiles cl) = Some sf →
       (saveSnapshotsToFile env = true →
        files (after r) !! getSnapshotFilePath h sf cl = None)
       ∧ (∀ q, q ≠ getSnapshotFilePath h sf cl → files (after r) !! q = files w !! q))
  ∧ (findShelved (normalizePath p) (cl_shelvedFiles cl) = None → files (after r) = files w)
  ∧ (saveSnapshotsToFile env = false → files (after r) = files w)
  ∧ ∀ env', unshelveFile h env' c p (after r)
            = (Throw (FileNotFoundInChangelist p), after r).
Proof.
  intros Hcl r cl'. subst r. rewrite (deleteShelvedFile_run _ _ _ _ _ _ _ Hcl).
  pose proof Hcl as [Hi Hid]%getChangelistRef_lookup.
  fold cl'. unfold outcome, after, synced.
  cbn [fst snd state workspaceState files with_event with_workspaceState with_state with_files].
  assert (getChangelistRef c (assigned i cl' (state w)) = Some (i, cl')) as Hcl'.
  { by apply (getChangelistRef_insert _ _ _ cl). }
  split_and!; try done.
  - apply findShelved_discarded_same.
  - intros q Hq. by apply findShelved_discarded_ne.
  - intros id Hne. apply (getChangelist_assigned_ne _ _ _ cl); simpl; congruence.
  - apply lookup_insert_eq.
  - intros sf ->. unfold unmirrored. split.
    + intros ->. apply lookup_delete_eq.
    + intros q Hq. destruct (saveSnapshotsToFile env); [|done].
      by rewrite lookup_delete_ne.
  - by intros ->.
  - intros Hoff. destruct (findShelved _ _) as [sf|]; [|done].
    unfold unmirrored. by rewrite Hoff.
  - intros env'. unfold unshelveFile. rewrite run_bind.
    cbn [get fst snd state with_event with_workspaceState with_state with_files].
    unfold getChangelist. rewrite Hcl'. cbn [fmap option_fmap option_map snd].
    subst cl'. cbn [cl_shelvedFiles set_shelvedFiles].
    by rewrite findShelved_discarded_same.
Qed.

Lemma deleteShelvedFile_discards_witness :
  let r := deleteShelvedFile demo_host mirror_env "cl-1" "docs/readme.md" demo_mirrored in
  files demo_mirrored !! "/repo/.smartchangelists/Feature A/readme.md" = Some "new"
  ∧ (cl_shelvedFiles <$> getChangelist "cl-1" (state (after r))) = Some []
  ∧ files (after r) !! "/repo/.smartchangelists/Feature A/readme.md" = None
  ∧ files (after r) !! "/repo/docs/readme.md" = Some "new".
Proof.
  pose proof (deleteShelvedFile_discards demo_host mirror_env "cl-1" "docs/readme.md"
                demo_mirrored 1 _ eq_refl) as (_ & Hcl & _ & _ & _ & _ & Hfound & _).
  destruct (Hfound _ eq_refl) as [Hgone Hkept].
  cbn zeta. split_and!.
  - reflexivity.
  - unfold getChangelist. rewrite Hcl. reflexivity.
  - exact (Hgone eq_refl).
  - etrans; [apply Hkept; discriminate|reflexivity].
Defined.

(** ** Shelving a batch *)

Lemma forEach_app {A} (f : A → M unit) (l1 l2 : list A) w :
  forEach f (l1 ++ l2) w
  = match forEach f l1 w with
    | (Ok _, w1) => forEach f l2 w1
    | (Throw e, w1) => (Throw e, w1)
    end.
Proof.
  revert w. induction l1 as [|x l1 IH]; intros w; [done|].
  cbn [app forEach]. rewrite !run_bind. destruct (f x w) as [[[]|e] w1]; [apply IH|done].
Qed.

(** Storing a snapshot leaves the snapshots of the other paths where they
    are. *)
Lemma findShelved_stored_in_ne q sf l :
  normalizePath (sf_relativePath sf) = sf_relativePath sf →
  q ≠ sf_relativePath sf →
  findShelved q (stored_in sf l) = findShelved q l.
Proof.
  intros Hnorm Hne. unfold findShelved, stored_in, findIndex.
  assert (¬ samePath q sf) as Hsf by (unfold samePath; congruence).
  destruct (list_find (samePath (sf_relativePath sf)) l) as [[k y]|] eqn:E; simpl.
  - apply list_find_Some in E as (Hk & Hy & _).
    rewrite (list_find_insert_other _ _ _ y); [done|done| |done].
    unfold samePath in *. congruence.
  - destruct (list_find (samePath q) l) as [[j z]|] eqn:Eq.
    + by erewrite list_find_app_l.
    + rewrite list_find_app_r by done. simpl. by rewrite decide_False.
Qed.

Lemma shelved_as_stored_in h env w l p q file fs :
  changedFiles w !! normalizePath q = Some file →
  shelved_as w l p →
  shelved_as w (stored_in (captured h env file (normalizePath q) fs) l) p.
Proof.
  intros Hq (sf & file' & Hsf & Hfile & Hpath & Hst & Horig & Hpatch).
  destruct (decide (normalizePath p = normalizePath q)) as [Heq|Hne].
  - exists (captured h env file (normalizePath q) fs), file. split_and!; try done.
    + rewrite Heq. apply (findShelved_stored_in (captured h env file (normalizePath q) fs)).
      apply normalizePath_idemp.
    + by rewrite Heq.
  - exists sf, file'. split_and!; try done.
    rewrite findShelved_stored_in_ne; [done|apply normalizePath_idemp|done].
Qed.

Lemma shelveFiles_run_all h env ps c w i cl :
  getChangelistRef c (state w) = Some (i, cl) →
  cl_isDefault cl = false →
  Forall (λ p, is_Some (changedFiles w !! normalizePath p)) ps →
  Forall (λ p, isDirectory env
                 (getAbsolutePathFromRepo h (normalizePath p) (repository_path h)) = false)
    ps →
  ∃ w' cl',
    shelveFiles h env ps c w = (Ok tt, w')
    ∧ getChangelistRef c (state w') = Some (i, cl')
    ∧ cl_isDefault cl' = false
    ∧ changedFiles w' = changedFiles w
    ∧ (ps ≠ [] → synced h w')
    ∧ Forall (shelved_as w (cl_shelvedFiles cl')) ps
    ∧ (∀ p, shelved_as w (cl_shelvedFiles cl) p → shelved_as w (cl_shelvedFiles cl') p)
    ∧ (∀ q, is_Some (findShelved q (cl_shelvedFiles cl))
            → is_Some (findShelved q (cl_shelvedFiles cl'))).
Proof.
  intros Hcl Hnd Hps Hdirs. revert w cl Hcl Hnd Hps.
  induction Hdirs as [|p ps Hdir Hdirs IH]; intros w cl Hcl Hnd Hps.
  { exists w, cl. by split_and!. }
  apply Forall_cons in Hps as [[file Hfile] Hps].
  unfold shelveFiles. cbn [forEach]. rewrite run_bind.
  rewrite (shelveFile_run_readable _ _ _ _ _ _ _ _ Hfile Hcl Hnd)
    by (by right; right).
  destruct (shelved_lookup h env p c w file i cl Hcl) as [Hcl1 Hsf1].
  set (sf := captured h env file (normalizePath p) (files w)) in *.
  set (cl1 := set_shelvedFiles (stored_in sf (cl_shelvedFiles cl)) cl) in *.
  set (w1 := shelved h env (normalizePath p) file i cl w) in *.
  destruct (IH w1 cl1 Hcl1 Hnd Hps) as (w' & cl' & Hrun & Hcl' & Hnd' & Hcf & Hsync & Hall & Hkeep & Hsome).
  fold (shelveFiles h env ps c w1). rewrite Hrun.
  assert (∀ q, shelved_as w1 (cl_shelvedFiles cl') q
               → shelved_as w (cl_shelvedFiles cl') q) as Hw1.
  { intros q. unfold shelved_as. done. }
  exists w', cl'. split_and!; try done.
  - intros _. destruct ps as [|p' ps']; [|by apply Hsync].
    unfold shelveFiles in Hrun. simpl in Hrun. injection Hrun as <-.
    unfold synced, w1, shelved. simpl. apply lookup_insert_eq.
  - constructor.
    + apply Hw1, Hkeep. exists sf, file. by split_and!.
    + eapply Forall_impl; [exact Hall|]. intros q. apply Hw1.
  - intros q Hq. apply Hw1, Hkeep. by apply (shelved_as_stored_in h).
  - intros q Hq. apply Hsome. subst cl1. cbn [cl_shelvedFiles set_shelvedFiles].
    destruct (decide (q = normalizePath p)) as [->|Hne].
    + cbn [cl_shelvedFiles set_shelvedFiles] in Hsf1. rewrite Hsf1. eauto.
    + rewrite findShelved_stored_in_ne; [done|apply normalizePath_idemp|done].
Qed.

(** X15.  [shelveFiles] into a changelist that resolves and is not the
    default one, for paths that are all changed files and none of them a
    directory, completes.  Afterwards the changelist holds, for every path
    of the batch, a snapshot stored under the normalized path, with the
    status and the original path of the changed file and no patch; no path
    that had a snapshot has lost it; the list of changed files is as
    before. *)
Theorem shelveFiles_shelves_all h env ps c w i cl :
  getChangelistRef c (state w) = Some (i, cl) →
  cl_isDefault cl = false →
  Forall (λ p, is_Some (changedFiles w !! normalizePath p)) ps →
  Forall (λ p, isDirectory env
                 (getAbsolutePathFromRepo h (normalizePath p) (repository_path h)) = false)
    ps →
  let r := shelveFiles h env ps c w in
  outcome r = Ok tt
  ∧ changedFiles (after r) = changedFiles w
  ∧ ∃ cl', getChangelistRef c (state (after r)) = Some (i, cl')
           ∧ Forall (shelved_as w (cl_shelvedFiles cl')) ps
           ∧ ∀ q, is_Some (findShelved q (cl_shelvedFiles cl))
                  → is_Some (findShelved q (cl_shelvedFiles cl')).
Proof.
  intros Hcl Hnd Hps Hdirs r. subst r.
  destruct (shelveFiles_run_all h env ps c w i cl Hcl Hnd Hps Hdirs)
    as (w' & cl' & -> & Hcl' & _ & Hcf & _ & Hall & _ & Hsome).
  unfold outcome, after. simpl. split_and!; [done..|]. by exists cl'.
Qed.

Lemma shelveFiles_shelves_all_witness :
  let r := shelveFiles demo_host (demo_env [] None) ["config.json"; "old.txt"] "cl-1"
             demo_edited in
  (fmap sf_originalContent <$> (cl_shelvedFiles <$> getChangelist "cl-1" (state demo_edited)))
  = Some [Some "v2"]
  ∧ outcome r = Ok tt
  ∧ changedFiles (after r) = changedFiles demo_edited
  ∧ (fmap sf_originalContent <$> (cl_shelvedFiles <$> getChangelist "cl-1" (state (after r))))
    = Some [Some "v3"; None].
Proof.
  destruct (shelveFiles_shelves_all demo_host (demo_env [] None) ["config.json"; "old.txt"]
              "cl-1" demo_edited 1
              (new_changelist demo_host "cl-1" "Feature A"
                 [captured demo_host (demo_env [] None) (changed "config.json" modified)
                    "config.json" (files demo_created)]))
    as (Hok & Hcf & _).
  - reflexivity.
  - reflexivity.
  - repeat constructor; by eexists.
  - repeat constructor.
  - cbn zeta. split_and!; [reflexivity|exact Hok|exact Hcf|reflexivity].
Defined.

(** X16.  [shelveFiles] is not atomic: it stops at the first path that
    cannot be shelved and surfaces that path's error; the paths before it
    stay shelved, exactly as if the batch had ended there, and the paths
    after it are not looked at. *)
Theorem shelveFiles_stops_at_first_failure h env ps1 p ps2 c w e :
  outcome (shelveFiles h env ps1 c w) = Ok tt →
  outcome (shelveFile h env p c (after (shelveFiles h env ps1 c w))) = Throw e →
  shelveFiles h env (ps1 ++ p :: ps2) c w = (Throw e, after (shelveFiles h env ps1 c w)).
Proof.
  unfold shelveFiles. intros Hok Hthrow. rewrite forEach_app.
  destruct (forEach _ ps1 w) as [[[]|e1] w1]; [|done].
  unfold after in *. cbn [snd] in *. cbn [forEach]. rewrite run_bind.
  pose proof (shelveFile_throw_clean _ _ _ _ _ _ Hthrow) as Hclean.
  destruct (shelveFile h env p c w1) as [[[]|e2] w2]; [done|].
  unfold outcome, after in *. simpl in *. congruence.
Qed.

Lemma shelveFiles_stops_at_first_failure_witness :
  shelveFiles demo_host (demo_env [] None) ["config.json"; "missing.txt"; "config.json"]
    "cl-1" demo_created
  = (Throw (FileNotFoundInChanges "missing.txt"), demo_shelved).
Proof.
  exact (shelveFiles_stops_at_first_failure demo_host (demo_env [] None)
           ["config.json"] "missing.txt" ["config.json"] "cl-1" demo_created _
           eq_refl eq_refl).
Defined.

(** ** Loading the state *)

Lemma legacy_key_ne h : LEGACY_STATE_KEY ≠ stateKey h.
Proof.
  unfold LEGACY_STATE_KEY, stateKey, getRepoStateKey. intros Heq. cbn in Heq.
  repeat (injection Heq as _ Heq). discriminate.
Qed.

Lemma tryMigrateLegacyState_run h w :
  tryMigrateLegacyState h w
  = match workspaceState w !! LEGACY_STATE_KEY with
    | Some legacyState =>
      if isWorkspaceRoot h then
        Some {| version := STATE_VERSION;
                activeChangelistId := activeChangelistId legacyState;
                changelists :=
                  (λ cl, set_cl_repoPath (Some (repository_path h))
                           (set_shelvedFiles
                              (set_sf_repoPath (Some (repository_path h))
                                 <$> cl_shelvedFiles cl) cl))
                    <$> changelists legacyState |}
      else None
    | None => None
    end.
Proof.
  unfold tryMigrateLegacyState, isWorkspaceRoot.
  destruct (workspaceState w !! LEGACY_STATE_KEY); [|done].
  destruct (getWorkspaceRoot h) as [root|]; [|done].
  destruct (truthy root); [|done]. simpl. by case_bool_decide.
Qed.

(** What [loadState] returns has the current version and is what the store
    holds afterwards; the store changes under the repository's key only. *)
Lemma loadState_run h env w :
  ∃ st,
    version st = STATE_VERSION
    ∧ (loadState h env w = (Ok st, w) ∧ workspaceState w !! stateKey h = Some st
       ∨ loadState h env w = (Ok st, with_workspaceState (insert (stateKey h) st) w)).
Proof.
  unfold loadState. rewrite run_bind. cbn [get fst snd].
  destruct (workspaceState w !! stateKey h) as [s|] eqn:Hs.
  - case_bool_decide as Hv.
    + exists s. split; [done|]. by left.
    + destruct (tryMigrateLegacyState h w) as [m|] eqn:Hm.
      * exists m. split; [|by right].
        rewrite tryMigrateLegacyState_run in Hm.
        destruct (workspaceState w !! LEGACY_STATE_KEY); [|done].
        destruct (isWorkspaceRoot h); by simplify_eq.
      * case_bool_decide; eexists; (split; [|by right]); done.
  - destruct (tryMigrateLegacyState h w) as [m|] eqn:Hm.
    + exists m. split; [|by right].
      rewrite tryMigrateLegacyState_run in Hm.
      destruct (workspaceState w !! LEGACY_STATE_KEY); [|done].
      destruct (isWorkspaceRoot h); by simplify_eq.
    + eexists; (split; [|by right]); done.
Qed.

Lemma loadState_current h env w st :
  workspaceState w !! stateKey h = Some st → version st = STATE_VERSION →
  loadState h env w = (Ok st, w).
Proof.
  intros Hst Hv. unfold loadState. rewrite run_bind. cbn [get fst snd].
  rewrite Hst. by rewrite bool_decide_eq_true_2.
Qed.

(** What the constructor does after it has loaded the state. *)
Lemma ensureSnapshotsDir_run h env w :
  let snapshotsDir := path_join h [repository_path h; SNAPSHOTS_DIR] in
  ensureSnapshotsDir h env w
  = if saveSnapshotsToFile env
       && negb (isDirectory env snapshotsDir || bool_decide (is_Some (files w !! snapshotsDir)))
    then
      match mkdir env snapshotsDir with
      | Some code => (Throw (FsError code), w)
      | None =>
        (Ok tt,
         with_files (insert (path_join h [snapshotsDir; ".gitignore"]) SNAPSHOTS_GITIGNORE) w)
      end
    else (Ok tt, w).
Proof.
  intros snapshotsDir. unfold ensureSnapshotsDir. fold snapshotsDir.
  destruct (saveSnapshotsToFile env); [|done]. cbn [negb andb].
  rewrite run_bind. cbn [get fst snd].
  destruct (_ || _); [done|]. cbn [negb]. rewrite run_bind. unfold mkdirSync.
  by destruct (mkdir env snapshotsDir).
Qed.

Lemma construct_run h env w st w1 :
  loadState h env w = (Ok st, w1) →
  construct h env w = ensureSnapshotsDir h env (with_state (λ _, st) w1).
Proof. intros Hload. unfold construct. by rewrite run_bind, Hload, run_bind. Qed.

(** The constructor leaves in [this.state] and in the store what
    [loadState] left there. *)
Lemma construct_state h env w st w1 :
  loadState h env w = (Ok st, w1) →
  state (after (construct h env w)) = st
  ∧ workspaceState (after (construct h env w)) = workspaceState w1.
Proof.
  intros Hload. rewrite (construct_run _ _ _ _ _ Hload).
  destruct (fs_only_ensureSnapshotsDir h env (with_state (λ _, st) w1)) as (r & fs & ->).
  done.
Qed.

(** X17.  What the constructor loads is stable: the state it sets has the
    current schema version and is the record the store then holds for the
    repository, and the store is changed under the repository's key only;
    so a service constructed later on that store, whatever ids its
    generator would draw and whatever the mirror setting and the file
    system are then, is given the same state and leaves the store as it
    is.  The constructor fails only when the mirror is on and the mirror
    directory is missing and cannot be made, and then it has written
    nothing; it changes no file other than the [.gitignore] in the mirror
    directory, and with the mirror off it returns and writes nothing. *)
Theorem construct_reload h env env' ws fs fs' :
  let r := construct h env (blank ws fs) in
  let r' := construct h env' (blank (workspaceState (after r)) fs') in
  let snapshotsDir := path_join h [repository_path h; SNAPSHOTS_DIR] in
  version (state (after r)) = STATE_VERSION
  ∧ synced h (after r)
  ∧ (∀ key, key ≠ stateKey h → workspaceState (after r) !! key = ws !! key)
  ∧ state (after r') = state (after r)
  ∧ workspaceState (after r') = workspaceState (after r)
  ∧ (outcome r = Ok tt
     ∨ ∃ code, outcome r = Throw (FsError code)
               ∧ saveSnapshotsToFile env = true
               ∧ fs !! snapshotsDir = None
               ∧ mkdir env snapshotsDir = Some code
               ∧ files (after r) = fs)
  ∧ (∀ q, q ≠ path_join h [snapshotsDir; ".gitignore"] → files (after r) !! q = fs !! q)
  ∧ (saveSnapshotsToFile env = false → outcome r = Ok tt ∧ files (after r) = fs).
Proof.
  intros r r' snapshotsDir.
  assert (version (state (after r)) = STATE_VERSION ∧ synced h (after r)
          ∧ ∀ key, key ≠ stateKey h → workspaceState (after r) !! key = ws !! key)
    as (Hv & Hsync & Hkeys).
  { subst r. destruct (loadState_run h env (blank ws fs)) as (st & Hv & [[Hload Hst]|Hload]);
      destruct (construct_state _ _ _ _ _ Hload) as [Hstate Hws];
      unfold synced; rewrite Hstate, Hws; cbn [workspaceState with_workspaceState blank] in *.
    - done.
    - split_and!; [done|apply lookup_insert_eq|].
      intros key Hkey. by rewrite lookup_insert_ne. }
  assert (loadState h env' (blank (workspaceState (after r)) fs')
          = (Ok (state (after r)), blank (workspaceState (after r)) fs')) as Hagain.
  { by apply loadState_current. }
  split_and!; [done|done|done|..].
  - subst r'. by destruct (construct_state _ _ _ _ _ Hagain) as [-> _].
  - subst r'. by destruct (construct_state _ _ _ _ _ Hagain) as [_ ->].
  - subst r. destruct (loadState_run h env (blank ws fs)) as (st & _ & [[Hload _]|Hload]);
      rewrite (construct_run _ _ _ _ _ Hload), ensureSnapshotsDir_run; fold snapshotsDir;
      cbn [files with_state with_workspaceState blank];
      (destruct (saveSnapshotsToFile env); [|by left]);
      (destruct (isDirectory env snapshotsDir); [by left|]);
      (case_bool_decide as Hthere; [by left|]);
      (destruct (mkdir env snapshotsDir) as [code|] eqn:Hmk; [|by left]);
      right; exists code; split_and!; try done;
      by apply eq_None_not_Some.
  - intros q Hq. subst r.
    destruct (loadState_run h env (blank ws fs)) as (st & _ & [[Hload _]|Hload]);
      rewrite (construct_run _ _ _ _ _ Hload), ensureSnapshotsDir_run; fold snapshotsDir;
      (destruct (_ && _); [|done]);
      (destruct (mkdir env snapshotsDir); [done|]);
      unfold after; cbn [snd files with_files with_state with_workspaceState blank];
      by rewrite lookup_insert_ne.
  - intros Hoff. subst r.
    destruct (loadState_run h env (blank ws fs)) as (st & _ & [[Hload _]|Hload]);
      by rewrite (construct_run _ _ _ _ _ Hload), ensureSnapshotsDir_off.
Qed.

(** X18.  A record stored for the repository under a schema version later
    than the current one is not read: unless a legacy record takes its
    place, the service starts from a new default changelist and overwrites
    the stored record with it. *)
Theorem loadState_discards_newer h env ws fs s :
  ws !! stateKey h = Some s →
  (STATE_VERSION < version s)%Z →
  tryMigrateLegacyState h (blank ws fs) = None →
  let r := construct h env (blank ws fs) in
  state (after r) = defaultState h (generateId env 0)
  ∧ workspaceState (after r) = <[stateKey h := defaultState h (generateId env 0)]> ws.
Proof.
  intros Hs Hv Hm r. subst r.
  assert (loadState h env (blank ws fs)
          = (Ok (defaultState h (generateId env 0)),
             with_workspaceState (insert (stateKey h) (defaultState h (generateId env 0)))
               (blank ws fs))) as Hload.
  { unfold loadState. rewrite !run_bind. cbn [get fst snd blank workspaceState]. rewrite Hs.
    rewrite bool_decide_eq_false_2 by lia. rewrite Hm.
    rewrite bool_decide_eq_false_2 by lia. done. }
  by destruct (construct_state _ _ _ _ _ Hload) as [-> ->].
Qed.

Lemma loadState_discards_newer_witness :
  changelists
    (state (after (construct demo_host (demo_env ["cl-9"] None)
                     (blank {[ stateKey demo_host := demo_v5 ]} ∅))))
  = changelists (defaultState demo_host "cl-9").
Proof.
  pose proof (loadState_discards_newer demo_host (demo_env ["cl-9"] None)
                {[ stateKey demo_host := demo_v5 ]} ∅ demo_v5) as (H & _).
  { reflexivity. } { reflexivity. } { reflexivity. }
  by rewrite H.
Defined.

(** X19.  When the store holds a legacy record and no record of the
    current version for the repository, the constructor adopts the legacy
    record if and only if the repository is the workspace root.  Adopted, it
    becomes the state: same changelists, snapshots, flags and active id,
    every changelist and snapshot stamped with the repository's path, and
    an older record of the repository itself is passed over; the legacy
    record stays in the store.  Otherwise the legacy record plays no part:
    the state is the repository's own older record, upgraded, or a new
    default changelist. *)
Theorem legacy_state_adopted h env ws fs legacy :
  ws !! LEGACY_STATE_KEY = Some legacy →
  (∀ s, ws !! stateKey h = Some s → version s ≠ STATE_VERSION) →
  let w := after (construct h env (blank ws fs)) in
  workspaceState w !! LEGACY_STATE_KEY = Some legacy
  ∧ if isWorkspaceRoot h then
      sans_repoPath (state w) = sans_repoPath legacy
      ∧ stamped (repository_path h) (state w)
      ∧ version (state w) = STATE_VERSION
      ∧ synced h w
    else
      state w
      = match ws !! stateKey h with
        | Some s =>
          if bool_decide (version s < STATE_VERSION)%Z then upgradeState h s
          else defaultState h (generateId env 0)
        | None => defaultState h (generateId env 0)
        end.
Proof.
  intros Hlegacy Hold w. subst w.
  pose proof (construct_state h env (blank ws fs)) as Hcs. revert Hcs.
  unfold loadState. rewrite run_bind. cbn [get fst snd]. rewrite tryMigrateLegacyState_run.
  cbn [blank workspaceState]. rewrite Hlegacy.
  pose proof (legacy_key_ne h) as Hkey.
  assert (∀ m, sans_repoPath
                 {| version := STATE_VERSION;
                    activeChangelistId := activeChangelistId legacy;
                    changelists :=
                      (λ cl, set_cl_repoPath (Some (repository_path h))
                               (set_shelvedFiles
                                  (set_sf_repoPath (Some (repository_path h))
                                     <$> cl_shelvedFiles cl) cl))
                        <$> changelists legacy |} = sans_repoPath legacy
              ∧ stamped (repository_path h)
                  {| version := m;
                     activeChangelistId := activeChangelistId legacy;
                     changelists :=
                       (λ cl, set_cl_repoPath (Some (repository_path h))
                                (set_shelvedFiles
                                   (set_sf_repoPath (Some (repository_path h))
                                      <$> cl_shelvedFiles cl) cl))
                         <$> changelists legacy |}) as Hmig.
  { intros m. split.
    - unfold sans_repoPath. simpl. f_equal. rewrite <- list_fmap_compose.
      apply list_fmap_ext. intros _ cl _. unfold sans_repoPath_cl. simpl.
      unfold set_cl_repoPath, set_shelvedFiles. simpl. f_equal.
      rewrite <- list_fmap_compose. by apply list_fmap_ext.
    - unfold stamped. simpl. apply Forall_fmap, Forall_true. intros cl. simpl.
      split; [done|]. apply Forall_fmap, Forall_true. done. }
  destruct (ws !! stateKey h) as [s|] eqn:Hs.
  - rewrite bool_decide_eq_false_2 by (by apply Hold).
    destruct (isWorkspaceRoot h).
    + intros Hcs. destruct (Hcs _ _ eq_refl) as [Hst Hws].
      unfold synced. rewrite Hst, Hws. cbn [workspaceState with_workspaceState blank].
      rewrite lookup_insert_ne, lookup_insert_eq by done.
      destruct (Hmig STATE_VERSION) as [? ?]. done.
    + case_bool_decide; intros Hcs; destruct (Hcs _ _ eq_refl) as [Hst Hws];
        rewrite Hst, Hws; cbn [workspaceState with_workspaceState blank];
        by rewrite lookup_insert_ne.
  - destruct (isWorkspaceRoot h).
    + intros Hcs. destruct (Hcs _ _ eq_refl) as [Hst Hws].
      unfold synced. rewrite Hst, Hws. cbn [workspaceState with_workspaceState blank].
      rewrite lookup_insert_ne, lookup_insert_eq by done.
      destruct (Hmig STATE_VERSION) as [? ?]. done.
    + intros Hcs. destruct (Hcs _ _ eq_refl) as [Hst Hws].
      rewrite Hst, Hws. cbn [workspaceState with_workspaceState blank].
      by rewrite lookup_insert_ne.
Qed.

Lemma legacy_state_adopted_witness :
  sans_repoPath (state (after (construct demo_host (demo_env [] None)
                                 (blank demo_legacy_store ∅))))
  = sans_repoPath demo_v3.
Proof.
  pose proof (legacy_state_adopted demo_host (demo_env [] None) demo_legacy_store ∅ demo_v3)
    as (_ & H & _).
  { reflexivity. } { intros s Hs. discriminate. }
  exact H.
Defined.

(** ** The map of changed files *)

Lemma processFile_insert h f s o m :
  processFile h f s o m = <[normalizePath f := changedFile h (normalizePath f) s o]> m.
Proof. reflexivity. Qed.

Lemma processFile_status h f s o m k :
  cf_status <$> processFile h f s o m !! k
  = if decide (k = normalizePath f) then Some s else cf_status <$> m !! k.
Proof.
  rewrite processFile_insert. destruct (decide (k = normalizePath f)) as [->|Hne].
  - by rewrite lookup_insert_eq.
  - by rewrite lookup_insert_ne.
Qed.

(** One list of [git status], written with one status: the paths of the
    list get that status, the others keep theirs. *)
Lemma each_status {A} h (path : A → string) (orig : A → option string) s l m k :
  cf_status <$> foldl (λ m x, processFile h (path x) s (orig x) m) m l !! k
  = if decide (k ∈ normalizePath ∘ path <$> l) then Some s else cf_status <$> m !! k.
Proof.
  revert m. induction l as [|x l IH]; intros m; [done|].
  cbn [foldl]. rewrite IH, processFile_status.
  destruct (decide (k ∈ normalizePath ∘ path <$> l)) as [Hin|Hnin].
  - rewrite decide_True; [done|]. cbn [fmap list_fmap]. by right.
  - destruct (decide (k = normalizePath (path x))) as [->|Hne].
    + rewrite decide_True; [done|]. cbn [fmap list_fmap]. by left.
    + rewrite decide_False; [done|]. cbn [fmap list_fmap].
      intros [?|?]%elem_of_cons; done.
Qed.

(** The fallback loop over [status.files]: an entry is written only for a
    path that has none, so the first row of a path decides. *)
Lemma fallback_status h l m k :
  cf_status <$>
    foldl (λ m f,
             if bool_decide (is_Some (m !! normalizePath (fsr_path f))) then m
             else processFile h (fsr_path f)
                    (mapGitStatus (fsr_index f) (fsr_working_dir f)) None m) m l !! k
  = match cf_status <$> m !! k with
    | Some s => Some s
    | None =>
      (λ f, mapGitStatus (fsr_index f) (fsr_working_dir f))
        <$> (snd <$> list_find (λ f, normalizePath (fsr_path f) = k) l)
    end.
Proof.
  revert m. induction l as [|f l IH]; intros m.
  { simpl. by destruct (cf_status <$> m !! k). }
  cbn [foldl list_find]. rewrite IH. case_bool_decide as Hin.
  - destruct (m !! k) as [cf|] eqn:Hk; [done|]. simpl.
    rewrite decide_False; [by destruct (list_find _ l) as [[? ?]|]|].
    intros Heq. rewrite Heq, Hk in Hin. by destruct Hin.
  - rewrite processFile_status.
    destruct (decide (k = normalizePath (fsr_path f))) as [->|Hne].
    + rewrite decide_True by done. simpl.
      destruct (m !! normalizePath (fsr_path f)) eqn:Hk; [|done].
      destruct Hin. eauto.
    + rewrite decide_False by done.
      destruct (cf_status <$> m !! k); [done|].
      by destruct (list_find _ l) as [[? ?]|].
Qed.

(** The seven loops of [updateChangedFiles], read back through the status
    of one key. *)
Ltac status_loops h :=
  unfold updateChangedFiles; cbv zeta;
  rewrite fallback_status;
  rewrite (each_status h (λ p, p) (λ _, None));
  rewrite (each_status h rn_to (λ r, Some (rn_from r)));
  rewrite !(each_status h (λ p, p) (λ _, None));
  rewrite lookup_empty; cbn [fmap option_fmap option_map];
  try rewrite <- list_fmap_compose;
  change (normalizePath ∘ (λ p : string, p)) with normalizePath.

(** X20.  The status [updateChangedFiles] records for a path is decided
    by the last list of [git status] that names it: conflicted wins over
    renamed, renamed over deleted, deleted over created, created over
    untracked, untracked over modified.  Only a path that none of these
    lists names takes its status from [status.files], from the first row
    for that path; a path named nowhere has no entry.  Paths are compared
    in normalized form. *)
Theorem updateChangedFiles_status h status k :
  let named (l : list string) := bool_decide (k ∈ normalizePath <$> l) in
  cf_status <$> updateChangedFiles h status !! k
  = if named (sr_conflicted status) then Some conflicted
    else if named (rn_to <$> sr_renamed status) then Some renamed
    else if named (sr_deleted status) then Some deleted
    else if named (sr_created status) then Some added
    else if named (sr_not_added status) then Some untracked
    else if named (sr_modified status) then Some modified
    else (λ f, mapGitStatus (fsr_index f) (fsr_working_dir f))
           <$> (snd <$> list_find (λ f, normalizePath (fsr_path f) = k) (sr_files status)).
Proof.
  intros named. subst named. status_loops h.
  repeat (case_bool_decide; [rewrite decide_True by done; done|rewrite decide_False by done]).
  done.
Qed.

Lemma wellKeyed_processFile h f s o m :
  map_Forall (wellKeyed h) m → map_Forall (wellKeyed h) (processFile h f s o m).
Proof.
  intros Hm. rewrite processFile_insert. apply map_Forall_insert_2; [|done].
  split_and!; [apply normalizePath_idemp|done..].
Qed.

Lemma wellKeyed_each {A} h (path : A → string) (orig : A → option string) s l m :
  map_Forall (wellKeyed h) m →
  map_Forall (wellKeyed h) (foldl (λ m x, processFile h (path x) s (orig x) m) m l).
Proof.
  revert m. induction l as [|x l IH]; intros m Hm; [done|].
  cbn [foldl]. by apply IH, wellKeyed_processFile.
Qed.

Lemma wellKeyed_updateChangedFiles h status :
  map_Forall (wellKeyed h) (updateChangedFiles h status).
Proof.
  unfold updateChangedFiles. cbv zeta.
  set (m6 := foldl _ _ (sr_conflicted status)).
  assert (map_Forall (wellKeyed h) m6) as H6.
  { subst m6. apply (wellKeyed_each h (λ p, p) (λ _, None)).
    apply (wellKeyed_each h rn_to (λ r, Some (rn_from r))).
    do 4 apply (wellKeyed_each h (λ p, p) (λ _, None)).
    apply map_Forall_empty. }
  revert H6. generalize m6. clear m6.
  induction (sr_files status) as [|f l IH]; intros m Hm; [done|].
  cbn [foldl]. apply IH. case_bool_decide; [done|]. by apply wellKeyed_processFile.
Qed.

(** X21.  Every entry of the map [updateChangedFiles] builds sits under
    its own relative path, which is in normalized form, and its absolute
    path is that path joined to the repository's; and the map has an entry
    exactly for the normalized form of every path [git status] reported in
    any of its lists. *)
Theorem updateChangedFiles_entries h status :
  map_Forall (wellKeyed h) (updateChangedFiles h status)
  ∧ ∀ k, is_Some (updateChangedFiles h status !! k)
         ↔ k ∈ normalizePath <$> reportedPaths status.
Proof.
  split; [apply wellKeyed_updateChangedFiles|].
  intros k. rewrite <- (fmap_is_Some cf_status). status_loops h.
  unfold reportedPaths. rewrite !fmap_app, !elem_of_app, <- !list_fmap_compose.
  repeat (case_decide; [split; [tauto|eauto]|]).
  rewrite !fmap_is_Some. split.
  - intros [[i f] Hf]. apply list_find_Some in Hf as (Hi & Hf & _).
    do 6 right. apply list_elem_of_fmap.
    exists f. split; [done|]. by eapply list_elem_of_lookup_2.
  - intros [?|[?|[?|[?|[?|[?|Hin]]]]]]; try done.
    apply list_elem_of_fmap in Hin as (f & -> & Hf).
    by apply (list_find_elem_of _ _ f).
Qed.

(** ** Status codes and path forms *)

(** X22.  [mapGitStatus] does not tell the index column from the working
    directory column: swapping the two codes gives the same status, and an
    'M' in either column gives modified whatever the other column says. *)
Theorem mapGitStatus_symmetric index workingDir :
  mapGitStatus index workingDir = mapGitStatus workingDir index
  ∧ mapGitStatus "M" workingDir = modified
  ∧ mapGitStatus index "M" = modified.
Proof.
  split_and!.
  - unfold mapGitStatus.
    rewrite !(orb_comm (bool_decide (workingDir = _)) (bool_decide (index = _))). done.
  - unfold mapGitStatus. rewrite (bool_decide_eq_true_2 ("M" = "M")) by done.
    by rewrite orb_true_r.
  - unfold mapGitStatus. by rewrite (bool_decide_eq_true_2 ("M" = "M")) by done.
Qed.

Lemma replace_chars_length hit r s :
  String.length (replace_chars hit r s) = String.length s.
Proof. induction s as [|c s IH]; simpl; congruence. Qed.

Lemma replace_chars_clean hit r s c :
  hit r = false → c ∈ list_ascii_of_string (replace_chars hit r s) → hit c = false.
Proof.
  intros Hr. induction s as [|d s IH]; simpl; [by intros ?%elem_of_nil|].
  intros [->|Hin]%elem_of_cons; [|by apply IH].
  destruct (hit d) eqn:Hd; done.
Qed.

Lemma replace_chars_id hit r s :
  (∀ c, c ∈ list_ascii_of_string s → hit c = false) → replace_chars hit r s = s.
Proof.
  induction s as [|d s IH]; simpl; [done|]. intros Hs.
  rewrite (Hs d) by (by left). f_equal. apply IH. intros c Hc. apply Hs. by right.
Qed.

(** X23.  A normalized path holds no backslash, and the folder name of a
    changelist's mirror holds none of the nine characters the sanitizer
    replaces; both forms keep the length of what they were made from, are
    left alone by a second pass, and a string that holds none of the
    replaced characters is its own form. *)
Theorem path_forms_clean s :
  let name := replace_chars unsafe_in_folder_name "_" s in
  (∀ c, c ∈ list_ascii_of_string (normalizePath s) → c ≠ "\"%char)
  ∧ String.length (normalizePath s) = String.length s
  ∧ ((∀ c, c ∈ list_ascii_of_string s → c ≠ "\"%char) → normalizePath s = s)
  ∧ (∀ c, c ∈ list_ascii_of_string name → unsafe_in_folder_name c = false)
  ∧ String.length name = String.length s
  ∧ replace_chars unsafe_in_folder_name "_" name = name
  ∧ ((∀ c, c ∈ list_ascii_of_string s → unsafe_in_folder_name c = false) → name = s).
Proof.
  intros name. subst name. unfold normalizePath. split_and!.
  - intros c Hc ->. by apply replace_chars_clean in Hc.
  - apply replace_chars_length.
  - intros Hs. apply replace_chars_id. intros c Hc.
    apply Ascii.eqb_neq. intros <-. by apply (Hs _ Hc).
  - intros c. by apply replace_chars_clean.
  - apply replace_chars_length.
  - by apply replace_chars_idemp.
  - apply replace_chars_id.
Qed.

(** ** The store follows the state *)

Lemma store_kept_fs_only {A} (m : M A) : fs_only m → store_kept m.
Proof. intros Hm w. by destruct (Hm w) as (r & fs & ->). Qed.

Lemma store_kept_bind {A B} (m : M A) (k : A → M B) :
  store_kept m → (∀ a, store_kept (k a)) → store_kept (m ≫= k).
Proof.
  intros Hm Hk w. rewrite run_bind. specialize (Hm w).
  destruct (m w) as [[a|e] w']; unfold after in Hm; simpl in Hm; [|done].
  destruct (Hk a w') as [Hs Hws]. destruct Hm as [Hs' Hws']. split; congruence.
Qed.

Lemma store_kept_refresh h env : store_kept (refresh h env).
Proof.
  intros w. rewrite refresh_run. unfold after. simpl.
  by rewrite state_refreshed, workspaceState_refreshed.
Qed.

Lemma store_kept_fire e : store_kept (fire e).
Proof. done. Qed.

Lemma store_kept_get : store_kept get.
Proof. done. Qed.

Ltac stored :=
  repeat first
    [ apply store_kept_refresh | apply store_kept_fire | apply store_kept_get
    | apply store_kept_fs_only; solve [repeat fs_only_step]
    | apply store_kept_bind; [| intros ? ]
    | match goal with |- store_kept (if ?b then _ else _) => destruct b end
    | match goal with |- store_kept (match ?o with _ => _ end) => destruct o end ].

Lemma synced_store_kept {A} h (m : M A) w : store_kept m → synced h w → synced h (after (m w)).
Proof. intros Hm Hw. destruct (Hm w) as [Hs Hws]. unfold synced. by rewrite Hs, Hws. Qed.

Lemma synced_shelveFile h env p c w : synced h w → synced h (after (shelveFile h env p c w)).
Proof.
  intros Hw.
  destruct (shelveFile_cases h env p c w)
    as [(file & i & cl & _ & _ & _ & _ & ->)|[e ->]]; [|done].
  unfold synced, after, shelved. simpl. apply lookup_insert_eq.
Qed.

Lemma synced_forEach {A} h (f : A → M unit) (l : list A) w :
  (∀ x w, synced h w → synced h (after (f x w))) →
  synced h w → synced h (after (forEach f l w)).
Proof.
  intros Hf. revert w. induction l as [|x l IH]; intros w Hw; [done|].
  cbn [forEach]. rewrite run_bind. specialize (Hf x w Hw).
  destruct (f x w) as [[[]|e] w']; unfold after in *; simpl in *; [|done].
  by apply IH.
Qed.

Lemma synced_commitChangelist h env c msg w :
  (∀ fs m, gitStashPop env fs ≠ inl m) →
  synced h w → synced h (after (commitChangelist h env c msg w)).
Proof.
  intros Hpop Hw.
  destruct (getChangelistRef c (state w)) as [[i cl]|] eqn:Hcl.
  2: { unfold commitChangelist. rewrite run_bind. simpl. by rewrite Hcl. }
  destruct (cl_isDefault cl) eqn:Hnd.
  { unfold commitChangelist. rewrite run_bind. simpl. rewrite Hcl, Hnd.
    apply synced_store_kept; [|done]. unfold commitWorkingChanges. stored. }
  destruct (decide (cl_shelvedFiles cl = [])) as [Hnil|Hne].
  { unfold commitChangelist. rewrite run_bind. simpl. by rewrite Hcl, Hnd, Hnil. }
  rewrite (commitChangelist_run _ _ _ _ _ _ _ Hcl Hnd Hne). cbv zeta.
  assert (∀ w0 fs, w0 = with_files (λ _, fs) w → synced h w0) as Hframe.
  { intros w0 fs ->. done. }
  destruct (bool_decide (0 < size (changedFiles w))).
  - unfold gitRun at 1. destruct (gitStashPush env (files w)) as [m|fs1]; [done|].
    destruct (fs_only_restore_all h env (cl_shelvedFiles cl) (with_files (λ _, fs1) w))
      as (r2 & fs2 & ->).
    destruct r2 as [[]|e]; [|done].
    destruct (gitAdd env _) as [m|]; [done|].
    destruct (gitCommit env msg) as [m|]; [done|].
    unfold gitRun. cbn [files with_state with_files].
    destruct (gitStashPop env fs2) as [m|fs3] eqn:Hp; [by destruct (Hpop fs2 m)|].
    unfold after, synced. simpl. rewrite state_refreshed, workspaceState_refreshed. simpl.
    apply lookup_insert_eq.
  - simpl.
    destruct (fs_only_restore_all h env (cl_shelvedFiles cl) w) as (r2 & fs2 & ->).
    destruct r2 as [[]|e]; [|done].
    destruct (gitAdd env _) as [m|]; [done|].
    destruct (gitCommit env msg) as [m|]; [done|].
    unfold after, synced. simpl. rewrite state_refreshed, workspaceState_refreshed. simpl.
    apply lookup_insert_eq.
Qed.

Lemma synced_deleteChangelist h env id w :
  default_first (state w) → synced h w → synced h (after (deleteChangelist h env id w)).
Proof.
  intros Hdf Hw.
  destruct (getChangelist id (state w)) as [cl|] eqn:Hcl;
    [destruct (cl_isDefault cl) eqn:Hdef|];
    try (unfold deleteChangelist; rewrite run_bind; simpl; rewrite Hcl, ?Hdef; done).
  destruct (deleteChangelist_cases h env id w cl Hdf Hcl Hdef)
    as [(fs & _ & ->)|(e & fs & _ & ->)]; [|done].
  unfold after, synced. simpl. rewrite state_refreshed, workspaceState_refreshed. simpl.
  apply lookup_insert_eq.
Qed.

(** X24.  What the store holds for the repository follows the state the
    service holds: if they agree before a call of a public method, they
    agree after it, whether the call returns or throws, provided the
    default changelist is in its place and [git stash pop] does not reject
    during the call.  (A rejected [git stash pop] is the one failure that
    leaves a cleared changelist in memory and its snapshots in the
    store.) *)
Theorem store_follows_state h env op w :
  default_first (state w) →
  synced h w →
  (∀ fs m, gitStashPop env fs ≠ inl m) →
  synced h (after (exec h env op w)).
Proof.
  intros Hdf Hw Hpop. destruct op; cbn [exec].
  - rewrite run_bind, createChangelist_run. unfold after, synced. simpl.
    apply lookup_insert_eq.
  - destruct (getChangelistRef id (state w)) as [[i cl]|] eqn:Hcl.
    + rewrite (renameChangelist_run _ _ _ _ _ _ Hcl). unfold after, synced. simpl.
      apply lookup_insert_eq.
    + unfold renameChangelist. rewrite run_bind. simpl. by rewrite Hcl.
  - by apply synced_deleteChangelist.
  - destruct (getChangelistRef id (state w)) as [[i cl]|] eqn:Hcl.
    + rewrite (setActiveChangelist_run _ _ _ _ _ Hcl). unfold after, synced. simpl.
      apply lookup_insert_eq.
    + unfold setActiveChangelist. rewrite run_bind. simpl. by rewrite Hcl.
  - by apply synced_shelveFile.
  - apply synced_forEach; [|done]. intros. by apply synced_shelveFile.
  - apply synced_store_kept; [|done]. unfold unshelveFile. stored.
  - apply synced_store_kept; [|done]. unfold applyAndStage. stored.
  - apply synced_store_kept; [|done]. unfold applyAllAndStage. stored.
  - apply synced_store_kept; [|done]. unfold unshelveAll. stored.
  - apply synced_store_kept; [|done]. unfold commitWorkingChanges. stored.
  - by apply synced_commitChangelist.
  - apply synced_store_kept; [|done]. unfold revertFile. stored.
  - destruct (getChangelistRef changelistId (state w)) as [[i cl]|] eqn:Hcl.
    + rewrite (deleteShelvedFile_run _ _ _ _ _ _ _ Hcl). unfold after, synced. simpl.
      apply lookup_insert_eq.
    + unfold deleteShelvedFile. rewrite run_bind. simpl. by rewrite Hcl.
  - rewrite run_bind. destruct (exp_changelists data) as [items|] eqn:Hitems.
    + rewrite (importChangelists_run _ _ _ _ _ Hitems). unfold after, synced. simpl.
      apply lookup_insert_eq.
    + unfold importChangelists. by rewrite Hitems.
  - apply synced_store_kept; [|done]. stored.
Qed.

Lemma store_follows_state_witness :
  synced demo_host
    (after (exec demo_host (demo_env [] None) (OpDelete "cl-1") demo_shelved)).
Proof.
  apply (store_follows_state demo_host (demo_env [] None) (OpDelete "cl-1") demo_shelved).
  - vm_compute. split; [reflexivity|repeat constructor].
  - reflexivity.
  - intros fs m. discriminate.
Defined.

(** ** Shelving, then discarding *)

Lemma unmirrored_mirrored h env env' sf cl cl' fs :
  saveSnapshotsToFile env' = saveSnapshotsToFile env →
  cl_label cl' = cl_label cl →
  fs !! getSnapshotFilePath h sf cl = None →
  unmirrored h env' sf cl' (mirrored h env sf cl fs) = fs.
Proof.
  intros Hflag Hlabel Hfree. unfold unmirrored, mirrored, getSnapshotFilePath in *.
  rewrite Hflag, Hlabel. destruct (saveSnapshotsToFile env); simpl.
  - destruct (sf_originalContent sf) as [content|]; [destruct (truthy content)|].
    + by rewrite delete_insert_eq, delete_id.
    + by rewrite delete_id.
    + by rewrite delete_id.
  - by destruct (sf_originalContent sf).
Qed.

(** X25.  Discarding a snapshot right after it was shelved undoes the
    shelve: when [shelveFile] can read the path (it is recorded as deleted,
    or is a regular file, or is no directory), the changelist held no
    snapshot of the path before and no file sat where the mirror copy
    goes, both calls return and [deleteShelvedFile] after [shelveFile]
    leaves the state, every regular file and the list of changed files
    exactly as they were before the shelve; the mirror copy written by the
    shelve is removed again.  (The folder made for the mirror copy is not
    removed by the code.) *)
Theorem shelve_then_discard h env env' p c w file i cl :
  changedFiles w !! normalizePath p = Some file →
  getChangelistRef c (state w) = Some (i, cl) →
  cl_isDefault cl = false →
  readable h env file (normalizePath p) (files w) →
  findShelved (normalizePath p) (cl_shelvedFiles cl) = None →
  files w !! getSnapshotFilePath h (captured h env file (normalizePath p) (files w)) cl = None →
  saveSnapshotsToFile env' = saveSnapshotsToFile env →
  let w1 := after (shelveFile h env p c w) in
  let r := deleteShelvedFile h env' c p w1 in
  outcome (shelveFile h env p c w) = Ok tt
  ∧ outcome r = Ok tt
  ∧ state (after r) = state w
  ∧ files (after r) = files w
  ∧ changedFiles (after r) = changedFiles w
  ∧ synced h (after r).
Proof.
  intros Hfile Hcl Hnd Hread Hnone Hfree Hflag w1 r. subst r w1.
  rewrite (shelveFile_run_readable _ _ _ _ _ _ _ _ Hfile Hcl Hnd Hread).
  destruct (shelved_lookup h env p c w file i cl Hcl) as [Hcl1 Hsf1].
  set (sf := captured h env file (normalizePath p) (files w)) in *.
  unfold after, outcome. cbn [snd fst].
  rewrite (deleteShelvedFile_run _ _ _ _ _ _ _ Hcl1).
  cbn [cl_shelvedFiles set_shelvedFiles] in *. rewrite Hsf1.
  pose proof Hcl as [Hi _]%getChangelistRef_lookup.
  assert (discarded (normalizePath p) (stored_in sf (cl_shelvedFiles cl)) = cl_shelvedFiles cl)
    as Hdisc.
  { unfold stored_in, findIndex. cbn [sf captured sf_relativePath].
    unfold findShelved in Hnone.
    destruct (list_find (samePath (normalizePath p)) (cl_shelvedFiles cl)) as [[? ?]|] eqn:E;
      [done|]. cbn [fmap option_fmap option_map].
    unfold discarded. rewrite filter_app, filter_cons_False.
    - rewrite filter_nil, app_nil_r. apply findShelved_None_filter.
      unfold findShelved. by rewrite E.
    - unfold sf. cbn [captured sf_relativePath]. rewrite normalizePath_idemp. by intros ?. }
  assert (assigned i
            (set_shelvedFiles (discarded (normalizePath p) (stored_in sf (cl_shelvedFiles cl)))
               (set_shelvedFiles (stored_in sf (cl_shelvedFiles cl)) cl))
            (state (shelved h env (normalizePath p) file i cl w)) = state w) as Hst.
  { rewrite Hdisc. unfold assigned, shelved. cbn [state changelists set_changelists].
    fold sf. rewrite list_insert_insert_eq.
    replace (set_shelvedFiles (cl_shelvedFiles cl) (set_shelvedFiles _ cl)) with cl
      by (by destruct cl).
    rewrite list_insert_id by done. by destruct (state w). }
  unfold synced.
  cbn [fst snd state files changedFiles workspaceState
       with_event with_workspaceState with_state with_files].
  rewrite Hst. split_and!; try done.
  - unfold shelved. cbn [files]. fold sf. by apply unmirrored_mirrored.
  - apply lookup_insert_eq.
Qed.

Lemma shelve_then_discard_witness :
  files (after (deleteShelvedFile demo_host mirror_env "cl-1" "config.json"
                  (after (shelveFile demo_host mirror_env "config.json" "cl-1"
                            demo_created))))
  = files demo_created
  ∧ files (after (shelveFile demo_host mirror_env "config.json" "cl-1" demo_created))
      !! "/repo/.smartchangelists/Feature A/config.json" = Some "v2".
Proof.
  pose proof (shelve_then_discard demo_host mirror_env mirror_env "config.json" "cl-1"
                demo_created _ 1 _ eq_refl eq_refl eq_refl)
    as (_ & _ & _ & H & _); [right; left; by eexists|reflexivity..|].
  split; [exact H|reflexivity].
Defined.

(** ** The repositories of the workspace *)

Lemma Map_get_set {V} key key' (value : V) m :
  Map_get key (Map_set key' value m)
  = if decide (key = key') then Some value else Map_get key m.
Proof.
  unfold Map_get. induction m as [|e m IH]; cbn [Map_set list_find].
  - simpl. destruct (decide (key' = key)), (decide (key = key')); done.
  - destruct (decide (fst e = key')) as [He|He]; cbn [list_find fst].
    + destruct (decide (key' = key)) as [->|Hne].
      * by rewrite decide_True.
      * rewrite (decide_False (P := key = key')) by done.
        rewrite (decide_False (P := fst e = key)) by congruence. done.
    + destruct (decide (fst e = key)) as [Hk|Hk].
      * rewrite decide_False by congruence. done.
      * destruct (list_find _ (Map_set key' value m)) as [[? ?]|],
          (list_find _ m) as [[? ?]|], (decide (key = key'));
          simpl in *; congruence.
Qed.

Lemma Map_get_delete {V} key key' (m : JsMap V) :
  Map_get key (Map_delete key' m) = if decide (key = key') then None else Map_get key m.
Proof.
  unfold Map_get, Map_delete. destruct (decide (key = key')) as [->|Hne].
  - match goal with |- context [list_find ?P ?l] =>
      destruct (list_find P l) as [[j e]|] eqn:E; [|done] end.
    apply list_find_Some in E as (Hj & He & _).
    apply list_elem_of_lookup_2, list_elem_of_filter in Hj as [Hne _]. done.
  - f_equal. apply list_find_filter_keep. intros e. congruence.
Qed.

Lemma Map_get_None {V} key (m : JsMap V) : key ∉ fst <$> m → Map_get key m = None.
Proof.
  intros Hnin. unfold Map_get.
  match goal with |- context [list_find ?P ?l] =>
    destruct (list_find P l) as [[j e]|] eqn:E; [|done] end.
  apply list_find_Some in E as (Hj & He & _). destruct Hnin.
  apply list_elem_of_fmap. exists e. split; [done|]. by eapply list_elem_of_lookup_2.
Qed.

Lemma setRepositories_get repos repositories repoPath :
  Map_get repoPath (setRepositories repos repositories)
  = match last (filter (λ repo, gr_path repo = repoPath) repos) with
    | Some repo => Some repo
    | None => Map_get repoPath repositories
    end.
Proof.
  unfold setRepositories. revert repositories.
  induction repos as [|repo repos IH]; intros repositories; [done|].
  cbn [foldl]. rewrite IH, Map_get_set, filter_cons.
  destruct (decide (gr_path repo = repoPath)) as [Heq|Hne].
  - rewrite decide_True by done. rewrite last_cons.
    by destruct (last (filter _ repos)).
  - rewrite decide_False by done. done.
Qed.

Lemma dropRepositories_get folderPath repositories repoPath :
  Map_get repoPath (dropRepositories folderPath repositories)
  = if startsWith repoPath folderPath then None else Map_get repoPath repositories.
Proof.
  unfold dropRepositories.
  assert (∀ keys (m : JsMap GitRepository),
            Map_get repoPath
              (foldl (λ m k, if startsWith k folderPath then Map_delete k m else m) m keys)
            = if bool_decide (repoPath ∈ keys) && startsWith repoPath folderPath
              then None else Map_get repoPath m) as Hloop.
  { induction keys as [|k keys IH]; intros m; [done|].
    cbn [foldl]. rewrite IH.
    destruct (decide (repoPath = k)) as [->|Hne].
    - rewrite (bool_decide_eq_true_2 (k ∈ k :: keys)) by (by left).
      destruct (startsWith k folderPath); simpl.
      + rewrite Map_get_delete, decide_True by done. by destruct (_ && _).
      + by rewrite andb_false_r.
    - assert (bool_decide (repoPath ∈ k :: keys) = bool_decide (repoPath ∈ keys)) as ->.
      { apply bool_decide_ext. rewrite elem_of_cons. tauto. }
      destruct (bool_decide (repoPath ∈ keys) && startsWith repoPath folderPath); [done|].
      destruct (startsWith k folderPath); [|done].
      by rewrite Map_get_delete, decide_False. }
  rewrite Hloop. case_bool_decide as Hin; [done|]. simpl.
  rewrite Map_get_None by done. by destruct (startsWith _ _).
Qed.

Lemma foldl_bind {A B C} (f : A → C → A) (g : B → list C) (l : list B) (a : A) :
  foldl f a (l ≫= g) = foldl (λ a x, foldl f a (g x)) a l.
Proof.
  revert a. induction l as [|x l IH]; intros a; [done|].
  rewrite bind_cons, foldl_app. apply IH.
Qed.

(** X26.  After workspace folders have changed, the repository known
    under a path is the one found last under that path in the added
    folders; failing that, it is the one known before, unless the path
    starts with the path of a removed folder, in which case none is known.
    Starting with is meant character by character: removing a folder also
    drops the repositories of every folder whose path merely continues the
    removed folder's path.  After a rescan the repository known under a
    path is the one found last under that path in the workspace folders. *)
Theorem workspace_folders_changed findGitRepositories added removed repositories repoPath :
  Map_get repoPath (onDidChangeWorkspaceFolders findGitRepositories added removed repositories)
  = match last (filter (λ repo, gr_path repo = repoPath) (added ≫= findGitRepositories)) with
    | Some repo => Some repo
    | None =>
      if existsb (startsWith repoPath) removed then None
      else Map_get repoPath repositories
    end
  ∧ (∀ folderPath, startsWith repoPath folderPath = true
                   ↔ ∃ rest, repoPath = folderPath +:+ rest)
  ∧ ∀ workspaceFolders,
      Map_get repoPath (scanRepositories findGitRepositories workspaceFolders)
      = last (filter (λ repo, gr_path repo = repoPath)
                (workspaceFolders ≫= findGitRepositories)).
Proof.
  split_and!; [|intros; apply startsWith_spec|].
  2: { intros workspaceFolders. unfold scanRepositories.
       change (foldl (λ m folderPath, setRepositories (findGitRepositories folderPath) m))
         with (foldl (λ m folderPath,
                        foldl (λ m repo, Map_set (gr_path repo) repo m) m
                          (findGitRepositories folderPath))).
       rewrite <- (foldl_bind (λ m repo, Map_set (gr_path repo) repo m) findGitRepositories).
       pose proof (setRepositories_get (workspaceFolders ≫= findGitRepositories) [] repoPath)
         as Hset.
       unfold setRepositories in Hset. rewrite Hset. by destruct (last _). }
  unfold onDidChangeWorkspaceFolders. cbv zeta.
  change (foldl (λ m folderPath, setRepositories (findGitRepositories folderPath) m))
    with (foldl (λ m folderPath,
                   foldl (λ m repo, Map_set (gr_path repo) repo m) m
                     (findGitRepositories folderPath))).
  rewrite <- (foldl_bind (λ m repo, Map_set (gr_path repo) repo m) findGitRepositories).
  pose proof (setRepositories_get (added ≫= findGitRepositories)
                (foldl (λ m folderPath, dropRepositories folderPath m) repositories removed)
                repoPath) as Hset.
  unfold setRepositories in Hset. rewrite Hset. clear Hset.
  destruct (last _) as [repo|]; [done|].
  clear added. revert repositories.
  induction removed as [|folderPath removed IH]; intros repositories; [done|].
  cbn [foldl existsb]. rewrite IH, dropRepositories_get.
  destruct (startsWith repoPath folderPath); simpl; [|done].
  by destruct (existsb _ removed).
Qed.

(** ** The list of changed files over a run *)

Section changed_files.
Context (h : Host).

Lemma keeps_wellKeyed_same {A} (m : M A) :
  (∀ w, changedFiles (after (m w)) = changedFiles w) → keeps_wellKeyed h m.
Proof. intros Hm w Hw. by rewrite Hm. Qed.

Lemma keeps_wellKeyed_fs_only {A} (m : M A) : fs_only m → keeps_wellKeyed h m.
Proof.
  intros Hm. apply keeps_wellKeyed_same. intros w. by destruct (Hm w) as (r & fs & ->).
Qed.

Lemma keeps_wellKeyed_bind {A B} (m : M A) (k : A → M B) :
  keeps_wellKeyed h m → (∀ a, keeps_wellKeyed h (k a)) → keeps_wellKeyed h (m ≫= k).
Proof.
  intros Hm Hk w Hw. rewrite run_bind. specialize (Hm w Hw).
  destruct (m w) as [[a|e] w']; unfold after in Hm; simpl in Hm; [|done].
  by apply Hk.
Qed.

Lemma keeps_wellKeyed_refresh env : keeps_wellKeyed h (refresh h env).
Proof.
  intros w Hw. rewrite refresh_run. unfold after, refreshed. simpl.
  destruct (gitStatus env) as [status|]; [|done]. simpl.
  apply wellKeyed_updateChangedFiles.
Qed.

Lemma keeps_wellKeyed_with_state f : keeps_wellKeyed h (modify (with_state f)).
Proof. by apply keeps_wellKeyed_same. Qed.

Lemma keeps_wellKeyed_mutate i f : keeps_wellKeyed h (mutate i f).
Proof. by apply keeps_wellKeyed_same. Qed.

Lemma keeps_wellKeyed_saveState st : keeps_wellKeyed h (saveState h st).
Proof. by apply keeps_wellKeyed_same. Qed.

Lemma keeps_wellKeyed_fire e : keeps_wellKeyed h (fire e).
Proof. by apply keeps_wellKeyed_same. Qed.

Lemma keeps_wellKeyed_get : keeps_wellKeyed h get.
Proof. by apply keeps_wellKeyed_same. Qed.

Lemma keeps_wellKeyed_forEach {A} (f : A → M unit) l :
  (∀ x, keeps_wellKeyed h (f x)) → keeps_wellKeyed h (forEach f l).
Proof.
  intros Hf. induction l as [|x l IH]; [by apply keeps_wellKeyed_same|].
  cbn [forEach]. apply keeps_wellKeyed_bind; auto.
Qed.

Ltac well_keyed :=
  repeat first
    [ apply keeps_wellKeyed_refresh | apply keeps_wellKeyed_fire
    | apply keeps_wellKeyed_saveState | apply keeps_wellKeyed_get
    | apply keeps_wellKeyed_mutate | apply keeps_wellKeyed_with_state
    | apply keeps_wellKeyed_fs_only; solve [repeat fs_only_step]
    | apply keeps_wellKeyed_forEach; intros ?
    | apply keeps_wellKeyed_bind; [| intros ? ]
    | match goal with |- keeps_wellKeyed _ (if ?b then _ else _) => destruct b end
    | match goal with |- keeps_wellKeyed _ (match ?o with _ => _ end) => destruct o end ].

Lemma keeps_wellKeyed_exec env op : keeps_wellKeyed h (exec h env op).
Proof.
  destruct op; cbn [exec].
  - unfold createChangelist. well_keyed.
  - unfold renameChangelist. well_keyed.
  - unfold deleteChangelist. well_keyed.
  - unfold setActiveChangelist. well_keyed.
  - unfold shelveFile. well_keyed.
  - unfold shelveFiles, shelveFile. well_keyed.
  - unfold unshelveFile. well_keyed.
  - unfold applyAndStage. well_keyed.
  - unfold applyAllAndStage. well_keyed.
  - unfold unshelveAll. well_keyed.
  - unfold commitWorkingChanges. well_keyed.
  - unfold commitChangelist, commitWorkingChanges. well_keyed.
  - unfold revertFile. well_keyed.
  - unfold deleteShelvedFile. well_keyed.
  - intros w Hw. rewrite run_bind.
    destruct (exp_changelists data) as [items|] eqn:Hitems.
    + by rewrite (importChangelists_run _ _ _ _ _ Hitems).
    + unfold importChangelists. by rewrite Hitems.
  - well_keyed.
Qed.
End changed_files.

(** X27.  In every state the service can be in, each entry of the list
    of changed files sits under its own relative path in normalized form,
    with the absolute path that path has in the service's repository: the
    list is only ever replaced by what [updateChangedFiles] builds.  So
    [commitWorkingChanges] stages exactly the keys of the list. *)
Theorem changed_files_well_keyed h w :
  reachable h w →
  map_Forall (wellKeyed h) (changedFiles w)
  ∧ cf_relativePath <$> (snd <$> map_to_list (changedFiles w))
    = fst <$> map_to_list (changedFiles w).
Proof.
  intros Hreach.
  assert (map_Forall (wellKeyed h) (changedFiles w)) as Hwk.
  { induction Hreach as [env ws fs Hkey Hlegacy|env op w _ IH|fs w _ IH].
    - destruct (construct_fresh h env ws fs Hkey Hlegacy) as (r & fs' & -> & _).
      unfold after. simpl. apply map_Forall_empty.
    - by apply keeps_wellKeyed_exec.
    - done. }
  split; [done|].
  rewrite <- list_fmap_compose. apply list_fmap_ext.
  intros j [k file] Hj. simpl.
  apply list_elem_of_lookup_2, elem_of_map_to_list in Hj.
  by destruct (Hwk k file Hj) as (_ & -> & _).
Qed.

Lemma changed_files_well_keyed_witness :
  map_Forall (wellKeyed demo_host) (changedFiles demo_shelved).
Proof.
  assert (reachable demo_host demo_shelved) as Hreach.
  { do 3 apply reach_exec. by apply reach_init. }
  exact (proj1 (changed_files_well_keyed demo_host demo_shelved Hreach)).
Defined.

(** ** Restoring what was imported *)



(** ** Mirror copies *)







